(** * BootCamp notebooks: the xkcd downloaders, the Monte Carlo area
    estimator and the emcee log-probability, embedded and verified.

  Sources:
  - "Parallel Programming in Python" notebook: [download_xkcd],
    [download_worker], [DownloadThread], [download_xkcd_threaded],
    [threaded_foo], [counts_in_a_circle], [monte_carlo_area_mp],
    [monte_carlo_area_async], [monte_carlo_area_sendrcv],
    [monte_carlo_area_scattergather], [monte_carlo_area_reduce].
  - "Model Fitting in Python" notebook: [linear_func], [nonlinear_func],
    [loss_function], [loss_function2], [lnprior], [lnlike], [lnprob]. *)

From Stdlib Require Import ZArith List String Ascii Reals Lra Lia.
From stdpp Require Import base list strings pretty.

Open Scope Z_scope.

(** ** The collaborators of the downloaders: HTTP, regular expressions, files *)

Module Scrape.

(** What a downloader does to the outside world, in program order. *)
Inductive event :=
| Get (url : string)                       (* http.request('GET', url) *)
| WriteFile (name : string) (body : string) (* open(name,'wb') + copyfileobj *)
| Print (msg : string).                    (* print(msg) *)

(** The web as the HTTP client sees it: the body of the response, or
    [None] when the request raises. *)
Definition web := string -> option string.

(** The disk as [open(name, 'wb')] sees it: whether the file can be
    opened for writing; when it cannot, [open] raises. *)
Definition files := string -> bool.

(** An urllib3 response.  With [preload_content=True], the default, the
    body is read when the request is made and kept as [rd.data]; a later
    [rd.read()] finds nothing left to read.  With
    [preload_content=False] the body is still to be read. *)
Record response := { body : string; preloaded : bool }.

(** [rd.data] *)
Definition rd_data (rd : response) : string := body rd.

(** [rd.read()], and what [shutil.copyfileobj(rd, out_file)] copies *)
Definition rd_read (rd : response) : string :=
  if preloaded rd then EmptyString else body rd.

(** Effects of a piece of Python code that may raise: the events it
    emitted, and its value unless an exception escaped. *)
Definition io (A : Type) : Type := list event * option A.

Definition ret {A} (a : A) : io A := ([], Some a).

Definition bind {A B} (m : io A) (f : A -> io B) : io B :=
  match m with
  | (l1, Some a) => let (l2, r) := f a in (l1 ++ l2, r)
  | (l1, None) => (l1, None)
  end.

Notation "'let!' x ':=' m 'in' k" := (bind m (fun x => k))
  (at level 10, x name, m at level 200, k at level 200).

(** [http.request('GET', url, preload_content=preload_content)] *)
Definition request (http : web) (url : string) (preload_content : bool)
  : io response :=
  ([Get url],
   (fun b => {| body := b; preloaded := preload_content |}) <$> http url).

(** [with open(name, 'wb') as out_file: shutil.copyfileobj(r, out_file)] *)
Definition write_file (disk : files) (name : string) (r : response) : io unit :=
  if disk name then ([WriteFile name (rd_read r)], Some tt) else ([], None).

Definition print (msg : string) : io unit := ([Print msg], Some tt).

(** *** re.search("/comics/[a-z0-9_()]*.(jpg|png)", data) *)

(** The character class [[a-z0-9_()]]. *)
Definition in_class (c : ascii) : bool :=
  let n := nat_of_ascii c in
  (Nat.leb 97 n && Nat.leb n 122) || (Nat.leb 48 n && Nat.leb n 57)
  || Nat.eqb n 95 || Nat.eqb n 40 || Nat.eqb n 41.

Fixpoint drop_str (n : nat) (s : string) : string :=
  match n, s with
  | O, _ => s
  | S n', String _ t => drop_str n' t
  | S _, EmptyString => EmptyString
  end.

(** [.(jpg|png)] at the head of [s]: any character but a newline, then
    one of the two extensions. *)
Definition ext_here (s : string) : bool :=
  match s with
  | String c t =>
      negb (Ascii.eqb c "010"%char)
      && (String.prefix "jpg" t || String.prefix "png" t)
  | EmptyString => false
  end.

(** Length of the longest run of class characters at the head of [s]. *)
Fixpoint class_run (s : string) : nat :=
  match s with
  | String c t => if in_class c then S (class_run t) else O
  | EmptyString => O
  end.

(** The greedy star: try the longest run first, then give characters
    back one at a time. *)
Fixpoint star_back (k : nat) (s : string) : option nat :=
  if ext_here (drop_str k s) then Some k
  else match k with
       | O => None
       | S k' => star_back k' s
       end.

(** A match anchored at the head of [s]. *)
Definition match_here (s : string) : option string :=
  if String.prefix "/comics/" s then
    let rest := drop_str 8 s in
    match star_back (class_run rest) rest with
    | Some k => Some (substring 0 (8 + k + 4) s)
    | None => None
    end
  else None.

(** [re.search]: the leftmost position with a match; [res.group()]. *)
Fixpoint search_comic (s : string) : option string :=
  match match_here s with
  | Some m => Some m
  | None => match s with
            | EmptyString => None
            | String _ t => search_comic t
            end
  end.

(** re.search(pat, data) for a literal pattern, as a truth value. *)
Fixpoint search_literal (pat s : string) : bool :=
  if String.prefix pat s then true
  else match s with
       | EmptyString => false
       | String _ t => search_literal pat t
       end.

(** *** Names and URLs *)

Definition str (i : Z) : string := pretty i.

Definition path : string := "xkcd_".

Definition page_url (i : Z) : string :=
  "http://www.xkcd.com/" +:+ str i +:+ "/".

Definition img_url (m : string) : string := "http://imgs.xkcd.com" +:+ m.

(** [s[-4:]] *)
Definition last4 (s : string) : string :=
  drop_str (String.length s - 4) s.

Definition failed_msg (i : Z) : string :=
  "Failed to download comic " +:+ str i.

Definition is_get (e : event) : bool :=
  match e with Get _ => true | _ => false end.

Definition is_print (e : event) : bool :=
  match e with Print _ => true | _ => false end.

Definition is_write (e : event) : bool :=
  match e with WriteFile _ _ => true | _ => false end.

(** Number of GET requests among the events. *)
Definition gets (l : list event) : nat := length (List.filter is_get l).

End Scrape.

(** ** The sequential downloader *)

Module Sequential.
Import Scrape.

Section Downloader.
Variable http : web.
Variable disk : files.

(** The body of the [for] loop of [download_xkcd] for item [i]; the value
    is the local variable [content] after the iteration. *)
Definition xkcd_item (i : Z) (content : bool) : io bool :=
  let url := page_url i in
  let! rd := request http url true in
  let data := rd_data rd in
  match search_comic data with
  | Some m =>
      let imgurl := img_url m in
      let! r := request http imgurl false in
      let! _ := write_file disk (path +:+ str i +:+ last4 imgurl) r in
      ret content
  | None =>
      if search_literal "Not Found" data && negb (i =? 404)
      then ret false
      else ret content
  end.

(** [for i in range(start, stop): ...] over the items still to visit. *)
Fixpoint xkcd_loop (items : list Z) (content : bool) : io bool :=
  match items with
  | [] => ret content
  | i :: rest => let! c := xkcd_item i content in xkcd_loop rest c
  end.

(** [range(start, stop)] *)
Definition range (start stop : Z) : list Z := seqZ start (stop - start).

(** [download_xkcd(start, stop)].  The Python function returns nothing;
    the value here is the final [content] flag, kept to observe it. *)
Definition download_xkcd (start stop : Z) : io bool :=
  xkcd_loop (range start stop) true.

(** No request a visit to [items] can make raises: neither the page nor
    the image the page links to. *)
Definition all_answer (items : list Z) : Prop :=
  forall i, i ∈ items ->
    exists data, http (page_url i) = Some data /\
      forall m, search_comic data = Some m -> is_Some (http (img_url m)).

(** Every file a visit to [items] wants to write can be opened. *)
Definition all_open (items : list Z) : Prop :=
  forall i data m, i ∈ items ->
    http (page_url i) = Some data -> search_comic data = Some m ->
    disk (path +:+ str i +:+ last4 (img_url m)) = true.

End Downloader.
End Sequential.

(** ** The threaded downloader *)

Module Pool.
Import Scrape.
Export Sequential.

(** The body of the [while] loop of [download_worker] for item [i], after
    the item has been taken from the queue and marked done.  The page is
    requested with the body preloaded, and [data] is what [rd.read()]
    returns after that. *)
Definition download_item (http : web) (disk : files) (i : Z) : io unit :=
  let url := page_url i in
  let! rd := request http url true in
  let data := rd_read rd in
  match search_comic data with
  | Some m =>
      let imgurl := img_url m in
      let! r := request http imgurl false in
      write_file disk (path +:+ str i +:+ last4 imgurl) r
  | None =>
      if search_literal "Not Found" data && negb (i =? 404)
      then print (failed_msg i)
      else ret tt
  end.

(** Where the main thread is in [download_xkcd_threaded]. *)
Inductive mpc :=
| MFill (todo : list Z)   (* for i in range(start, stop): q.put(i) *)
| MSpawn (k : nat)        (* for i in range(nthreads): ..., k threads to go *)
| MJoin                   (* q.join() *)
| MDel (k : nat)          (* while len(threads)>0: del threads[-1] *)
| MReturned.

(** Where a worker thread is in [DownloadThread.run] / [download_worker]. *)
Inductive wpc :=
| WNew                    (* constructed, not started *)
| WRun                    (* at [while self.running] *)
| WLoop                   (* at [while not q.empty()] *)
| WGet                    (* queue seen non-empty, at [i = q.get()] *)
| WTaskDone (i : Z)       (* holds i, at [q.task_done()] *)
| WWork (i : Z)           (* holds i, about to fetch and save it *)
| WExit                   (* [run] returned *)
| WDead.                  (* an exception escaped [run] *)

(** A [DownloadThread] object. *)
Record thread := { running : bool; pc : wpc }.

Definition DownloadThread_init : thread := {| running := false; pc := WNew |}.

Definition DownloadThread_start (t : thread) : thread :=
  {| running := true; pc := WRun |}.

Definition DownloadThread_stop (t : thread) : thread :=
  {| running := false; pc := pc t |}.

Definition at_pc (t : thread) (p : wpc) : thread :=
  {| running := running t; pc := p |}.

(** What the pool has done, in the order it happened. *)
Inductive entry :=
| Claim (w : nat) (i : Z)                     (* q.get() gave i to worker w *)
| Done (w : nat) (i : Z) (out : list event)   (* w finished i *)
| Crash (w : nat) (i : Z) (out : list event). (* an exception ended w on i *)

(** The shared state: the main thread, the [Queue] (its items and its
    count of unfinished tasks), the started threads and the history. *)
Record state := {
  main : mpc;
  queue : list Z;
  unfinished : nat;
  workers : list thread;
  trace : list entry
}.

Definition with_main (m : mpc) (s : state) : state :=
  {| main := m; queue := queue s; unfinished := unfinished s;
     workers := workers s; trace := trace s |}.

Definition with_worker (w : nat) (t : thread) (s : state) : state :=
  {| main := main s; queue := queue s; unfinished := unfinished s;
     workers := <[w := t]> (workers s); trace := trace s |}.

Definition log (e : entry) (s : state) : state :=
  {| main := main s; queue := queue s; unfinished := unfinished s;
     workers := workers s; trace := trace s ++ [e] |}.

Definition with_queue (q : list Z) (s : state) : state :=
  {| main := main s; queue := q; unfinished := unfinished s;
     workers := workers s; trace := trace s |}.

Definition with_unfinished (n : nat) (s : state) : state :=
  {| main := main s; queue := queue s; unfinished := n;
     workers := workers s; trace := trace s |}.

(** [q.put(i)] *)
Definition q_put (i : Z) (s : state) : state :=
  with_queue (queue s ++ [i]) (with_unfinished (S (unfinished s)) s).

(** [q.get()]: the oldest item, or nothing to return yet (the caller
    blocks). *)
Definition q_get (s : state) : option (Z * state) :=
  match queue s with
  | [] => None
  | i :: q => Some (i, with_queue q s)
  end.

(** [q.task_done()]: [None] is the ValueError of a call too many. *)
Definition q_task_done (s : state) : option state :=
  match unfinished s with
  | O => None
  | S n => Some (with_unfinished n s)
  end.

(** [q.empty()] *)
Definition q_empty (s : state) : bool :=
  match queue s with [] => true | _ => false end.

Definition spawn (s : state) : state :=
  {| main := main s; queue := queue s; unfinished := unfinished s;
     workers := workers s ++ [DownloadThread_start DownloadThread_init];
     trace := trace s |}.

Inductive actor := Main | Worker (w : nat).

Section Program.
Variable http : web.
Variable disk : files.
Variables nthreads start stop : Z.

(** [download_xkcd_threaded(nthreads, start, stop)] before its first step. *)
Definition init : state :=
  {| main := MFill (range start stop); queue := []; unfinished := 0;
     workers := []; trace := [] |}.

(** One step of the main thread through [download_xkcd_threaded]; [None]
    when it cannot move (blocked in [q.join()], or returned). *)
Definition download_xkcd_threaded (s : state) : option state :=
  match main s with
  | MFill (i :: todo) => Some (with_main (MFill todo) (q_put i s))
  | MFill [] => Some (with_main (MSpawn (Z.to_nat nthreads)) s)
  | MSpawn (S k) => Some (with_main (MSpawn k) (spawn s))
  | MSpawn O => Some (with_main MJoin s)
  | MJoin =>
      match unfinished s with
      | O => Some (with_main (MDel (length (workers s))) s)
      | S _ => None
      end
  | MDel (S k) => Some (with_main (MDel k) s)
  | MDel O => Some (with_main MReturned s)
  | MReturned => None
  end.

(** One step of worker [w], whose thread object is [t], through
    [download_worker(q)]; [None] when it cannot move (blocked in
    [q.get()]). *)
Definition download_worker (w : nat) (t : thread) (s : state) : option state :=
  match pc t with
  | WLoop =>
      Some (with_worker w (at_pc t (if q_empty s then WRun else WGet)) s)
  | WGet =>
      match q_get s with
      | Some (i, s') =>
          Some (log (Claim w i) (with_worker w (at_pc t (WTaskDone i)) s'))
      | None => None
      end
  | WTaskDone i =>
      match q_task_done s with
      | Some s' => Some (with_worker w (at_pc t (WWork i)) s')
      | None => Some (with_worker w (at_pc t WDead) s)
      end
  | WWork i =>
      match download_item http disk i with
      | (out, Some _) =>
          Some (log (Done w i out) (with_worker w (at_pc t WLoop) s))
      | (out, None) =>
          Some (log (Crash w i out) (with_worker w (at_pc t WDead) s))
      end
  | _ => None
  end.

(** One step of worker [w] through [DownloadThread.run]: the test of
    [self.running], or a step of the function it calls; [None] when the
    thread does not exist, is not started or has terminated. *)
Definition DownloadThread_run (w : nat) (s : state) : option state :=
  match workers s !! w with
  | None => None
  | Some t =>
      match pc t with
      | WNew | WExit | WDead => None
      | WRun =>
          Some (with_worker w (at_pc t (if running t then WLoop else WExit)) s)
      | _ => download_worker w t s
      end
  end.

Definition step (a : actor) (s : state) : option state :=
  match a with
  | Main => download_xkcd_threaded s
  | Worker w => DownloadThread_run w s
  end.

(** Run a schedule: who moves, step by step. *)
Fixpoint exec (sched : list actor) (s : state) : option state :=
  match sched with
  | [] => Some s
  | a :: rest =>
      match step a s with
      | Some s' => exec rest s'
      | None => None
      end
  end.

Definition reachable (s : state) : Prop :=
  exists sched, exec sched init = Some s.

(** The same steps as a relation, one rule per program point. *)
Inductive trans : actor -> state -> state -> Prop :=
| t_put s i rest :
    main s = MFill (i :: rest) ->
    trans Main s (with_main (MFill rest) (q_put i s))
| t_filled s :
    main s = MFill [] ->
    trans Main s (with_main (MSpawn (Z.to_nat nthreads)) s)
| t_spawn s k :
    main s = MSpawn (S k) ->
    trans Main s (with_main (MSpawn k) (spawn s))
| t_spawned s :
    main s = MSpawn O ->
    trans Main s (with_main MJoin s)
| t_join s :
    main s = MJoin -> unfinished s = O ->
    trans Main s (with_main (MDel (length (workers s))) s)
| t_del s k :
    main s = MDel (S k) ->
    trans Main s (with_main (MDel k) s)
| t_return s :
    main s = MDel O ->
    trans Main s (with_main MReturned s)
| t_run s w t :
    workers s !! w = Some t -> pc t = WRun ->
    trans (Worker w) s
      (with_worker w (at_pc t (if running t then WLoop else WExit)) s)
| t_loop s w t :
    workers s !! w = Some t -> pc t = WLoop ->
    trans (Worker w) s
      (with_worker w (at_pc t (if q_empty s then WRun else WGet)) s)
| t_get s w t i q :
    workers s !! w = Some t -> pc t = WGet -> queue s = i :: q ->
    trans (Worker w) s
      (log (Claim w i) (with_worker w (at_pc t (WTaskDone i)) (with_queue q s)))
| t_task_done s w t i n :
    workers s !! w = Some t -> pc t = WTaskDone i -> unfinished s = S n ->
    trans (Worker w) s
      (with_worker w (at_pc t (WWork i)) (with_unfinished n s))
| t_task_done_error s w t i :
    workers s !! w = Some t -> pc t = WTaskDone i -> unfinished s = O ->
    trans (Worker w) s (with_worker w (at_pc t WDead) s)
| t_work s w t i out :
    workers s !! w = Some t -> pc t = WWork i ->
    download_item http disk i = (out, Some tt) ->
    trans (Worker w) s (log (Done w i out) (with_worker w (at_pc t WLoop) s))
| t_crash s w t i out :
    workers s !! w = Some t -> pc t = WWork i ->
    download_item http disk i = (out, None) ->
    trans (Worker w) s (log (Crash w i out) (with_worker w (at_pc t WDead) s)).

(** No thread can move. *)
Definition stuck (s : state) : Prop := forall a, step a s = None.

End Program.

(** *** Reading the history *)

Definition claim_of (e : entry) : option (nat * Z) :=
  match e with Claim w i => Some (w, i) | _ => None end.

Definition done_of (e : entry) : option (nat * Z) :=
  match e with Done w i _ => Some (w, i) | _ => None end.

Definition crash_of (e : entry) : option (nat * Z) :=
  match e with Crash w i _ => Some (w, i) | _ => None end.

(** Who was given what by [q.get()]. *)
Definition claims (s : state) : list (nat * Z) := omap claim_of (trace s).

(** Who completed what. *)
Definition processed (s : state) : list (nat * Z) := omap done_of (trace s).

(** Who died on what. *)
Definition crashed (s : state) : list (nat * Z) := omap crash_of (trace s).

Definition returned (s : state) : Prop := main s = MReturned.

(** What the main thread has still to put in the queue. *)
Definition todo (s : state) : list Z :=
  match main s with MFill l => l | _ => [] end.

(** The item a worker holds between [q.get()] and the end of its work. *)
Definition holds (p : wpc) : list Z :=
  match p with
  | WTaskDone i => [i]
  | WWork i => [i]
  | _ => []
  end.

Definition held (t : thread) : list Z := holds (pc t).

(** Workers that took an item and have not yet called [q.task_done()]. *)
Definition owes (p : wpc) : nat :=
  match p with WTaskDone _ => 1%nat | _ => 0%nat end.

Definition owing (t : thread) : nat := owes (pc t).

(** Workers ended by an exception. *)
Definition is_dead (p : wpc) : nat :=
  match p with WDead => 1%nat | _ => 0%nat end.

Definition dead (t : thread) : nat := is_dead (pc t).

(** Steps a worker at [p] has to take before its item is processed. *)
Definition cost (p : wpc) : nat :=
  match p with WTaskDone _ => 2%nat | WWork _ => 1%nat | _ => 0%nat end.

Definition effort (t : thread) : nat := cost (pc t).

(** Steps the main thread has to take before it waits in [q.join()],
    counting four for every item it has still to put in the queue. *)
Definition main_left (nthreads : Z) (m : mpc) : nat :=
  match m with
  | MFill l => (4 * length l + 2 + Z.to_nat nthreads)%nat
  | MSpawn k => (k + 1)%nat
  | _ => 0%nat
  end.

(** A bound on the work between a state and the processing of every
    item: an item costs four before it is queued, three in the queue,
    two once claimed and one once marked done. *)
Definition work_left (nthreads : Z) (s : state) : nat :=
  (main_left nthreads (main s) + 3 * length (queue s)
   + sum_list (effort <$> workers s))%nat.

(** A thread that was started and whose [run] has not returned. *)
Definition started (t : thread) : Prop :=
  running t = true /\ pc t <> WExit /\ pc t <> WNew.

(** [q.join()] has returned. *)
Definition joined (s : state) : Prop :=
  match main s with MDel _ | MReturned => True | _ => False end.

(** The main thread has started all its threads. *)
Definition all_started (s : state) : Prop :=
  match main s with MFill _ | MSpawn _ => False | _ => True end.

(** Workers enough to outlive a failure on item [K]: two, or one when
    [K] is not an item of the batch at all. *)
Definition enough_workers (nthreads start stop K : Z) : Prop :=
  2 <= nthreads \/ (1 <= nthreads /\ ~ start <= K < stop).

(** How many threads exist at each point of the main thread. *)
Definition spawned (nthreads : Z) (s : state) : Prop :=
  match main s with
  | MFill _ => workers s = []
  | MSpawn k => (length (workers s) + k)%nat = Z.to_nat nthreads
  | _ => length (workers s) = Z.to_nat nthreads
  end.

(** What holds in every state of every execution. *)
Record inv (http : web) (disk : files) (nthreads start stop : Z) (s : state)
  : Prop := {
  inv_items :
    (snd <$> claims s) ++ queue s ++ todo s ≡ₚ range start stop;
  inv_count :
    unfinished s = (length (queue s) + sum_list (owing <$> workers s))%nat;
  inv_joined : joined s -> unfinished s = O;
  inv_started : Forall started (workers s);
  inv_spawned : spawned nthreads s;
  inv_ledger :
    snd <$> claims s ≡ₚ
      concat (held <$> workers s) ++ (snd <$> processed s) ++ (snd <$> crashed s);
  inv_crashed :
    forall w i, (w, i) ∈ crashed s -> snd (download_item http disk i) = None;
  inv_dead : sum_list (dead <$> workers s) = length (crashed s);
  inv_holder :
    forall w t i, workers s !! w = Some t -> i ∈ held t -> (w, i) ∈ claims s;
  inv_owner :
    forall w i, (w, i) ∈ processed s ++ crashed s -> (w, i) ∈ claims s
}.

End Pool.

(** ** The Monte Carlo area estimator over MPI *)

Module MonteCarlo.

(** A number as the programs hold it: a Python int, a numpy integer or a
    numpy array of one entry.  They agree in value and differ in how
    they divide by zero. *)
Inductive number :=
| PyInt (z : Z)       (* a Python int *)
| NpInt (z : Z)       (* a numpy integer, as [np.sum] returns *)
| NpArray (z : Z).    (* [np.array([z])] *)

Definition value (n : number) : Z :=
  match n with PyInt z | NpInt z | NpArray z => z end.

(** The outcome of the true division [4 * n_in_circle_sum / draws_sum]. *)
Inductive quotient :=
| Ratio (num den : Z)    (* the fraction num/den, den <> 0 *)
| NotANumber             (* numpy 0/0: nan, and a RuntimeWarning *)
| Infinite               (* numpy x/0 with x <> 0: inf, and a RuntimeWarning *)
| ZeroDivisionError.     (* Python int / 0 raises *)

Section World.
(** [comm.Get_size()] *)
Variable size : Z.
(** The random draw: how many of the [n] points that rank [rank] draws
    fall inside the unit circle,
    [np.sum(np.sqrt(x**2 + y**2)<1)]. *)
Variable hits : Z -> Z -> Z.

Definition ranks : list Z := seqZ 0 size.

Definition total (f : Z -> Z) (rs : list Z) : Z := foldr Z.add 0 (f <$> rs).

(** [np.random.uniform(-1, 1, size=n)] twice and the count of the hits,
    at rank [r]: [None] is the ValueError of a negative [n]. *)
Definition draw (r n : Z) : option Z :=
  if n <? 0 then None else Some (hits r n).

(** [comm.reduce(v, root=root, op=MPI.SUM)] as rank [rank] sees it: at the
    root the contributions of the ranks, added up in the order [order]
    in which the implementation combines them; [None] everywhere else. *)
Definition comm_reduce_sum (order : list Z) (v : Z -> Z) (root rank : Z)
  : option Z :=
  if rank =? root then Some (foldl (fun acc r => acc + v r) 0 order)
  else None.

(** What one process holds when it computes its area. *)
Record view := {
  n_samples_per_task : Z;
  n_in_circle : Z;
  draws_sum : Z;
  n_in_circle_sum : number
}.

(** [monte_carlo_area_reduce(n_samples)] as run by rank [rank]; [None]
    when it raises. *)
Definition monte_carlo_area_reduce (order : list Z) (n_samples rank : Z)
  : option view :=
  let per_task := n_samples / size in
  match draw rank per_task with
  | Some n_in_circle =>
      let local := fun r => hits r per_task in
      let reduced := comm_reduce_sum order local 0 rank in
      Some {| n_samples_per_task := per_task;
              n_in_circle := n_in_circle;
              draws_sum := per_task * size;
              n_in_circle_sum :=
                match reduced with Some v => NpInt v | None => PyInt 0 end |}
  | None => None
  end.

(** [monte_carlo_area_sendrcv(n_samples)] as run by rank [rank]; rank 0
    receives the messages of the senders in the order [arrival]. *)
Definition monte_carlo_area_sendrcv (arrival : list Z) (n_samples rank : Z)
  : option view :=
  let per_task := n_samples / size in
  match draw rank per_task with
  | Some n_in_circle =>
      let local := fun r => hits r per_task in
      Some {| n_samples_per_task := per_task;
              n_in_circle := n_in_circle;
              draws_sum := per_task * size;
              n_in_circle_sum :=
                if rank =? 0
                then NpInt (foldl (fun acc r => acc + local r) (local 0) arrival)
                else NpArray 0 |}
  | None => None
  end.

(** [4 * n_in_circle_sum / draws_sum] *)
Definition area (v : view) : quotient :=
  if draws_sum v =? 0 then
    match n_in_circle_sum v with
    | PyInt _ => ZeroDivisionError
    | NpInt z | NpArray z => if 4 * z =? 0 then NotANumber else Infinite
    end
  else Ratio (4 * value (n_in_circle_sum v)) (draws_sum v).


End World.
End MonteCarlo.

(** ** The log-probability handed to the ensemble sampler *)

Module Fitting.
Local Open Scope R_scope.

(** A numpy float64 read as a real number, an infinity or not-a-number:
    rounding, overflow and underflow are left out, and [Num 0] stands
    for the zero of either sign. *)
Inductive npfloat := Nan | PosInf | NegInf | Num (r : R).


Definition Rltb (a b : R) : bool := if Rlt_dec a b then true else false.

Definition Reqb (a b : R) : bool := if Req_dec_T a b then true else false.


(** The infinity with the sign of [x] when [pos], the opposite otherwise. *)
Definition inf_signed (pos : bool) (x : R) : npfloat :=
  if Bool.eqb pos (Rltb x 0) then NegInf else PosInf.

Definition fneg (a : npfloat) : npfloat :=
  match a with
  | Nan => Nan
  | PosInf => NegInf
  | NegInf => PosInf
  | Num x => Num (- x)
  end.

Definition fadd (a b : npfloat) : npfloat :=
  match a, b with
  | Nan, _ | _, Nan => Nan
  | PosInf, NegInf | NegInf, PosInf => Nan
  | PosInf, _ | _, PosInf => PosInf
  | NegInf, _ | _, NegInf => NegInf
  | Num x, Num y => Num (x + y)
  end.

Definition fsub (a b : npfloat) : npfloat := fadd a (fneg b).

Definition fmul (a b : npfloat) : npfloat :=
  match a, b with
  | Nan, _ | _, Nan => Nan
  | PosInf, PosInf | NegInf, NegInf => PosInf
  | PosInf, NegInf | NegInf, PosInf => NegInf
  | PosInf, Num x | Num x, PosInf =>
      if Reqb x 0 then Nan else inf_signed true x
  | NegInf, Num x | Num x, NegInf =>
      if Reqb x 0 then Nan else inf_signed false x
  | Num x, Num y => Num (x * y)
  end.

(** numpy's scalar division: dividing by zero gives an infinity (not-a-
    number for 0/0) and a RuntimeWarning, never an exception. *)
Definition fdiv (a b : npfloat) : npfloat :=
  match a, b with
  | Nan, _ | _, Nan => Nan
  | (PosInf | NegInf), (PosInf | NegInf) => Nan
  | PosInf, Num y => inf_signed true (if Reqb y 0 then 1 else y)
  | NegInf, Num y => inf_signed false (if Reqb y 0 then 1 else y)
  | Num _, (PosInf | NegInf) => Num 0
  | Num x, Num y =>
      if Reqb y 0 then (if Reqb x 0 then Nan else inf_signed true x)
      else Num (x / y)
  end.


(** [np.log] *)
Definition flog (a : npfloat) : npfloat :=
  match a with
  | Nan | NegInf => Nan
  | PosInf => PosInf
  | Num x => if Rltb x 0 then Nan else if Reqb x 0 then NegInf else Num (ln x)
  end.

(** [a ** n] for a literal exponent [n]. *)
Fixpoint fpow (a : npfloat) (n : nat) : npfloat :=
  match n with
  | O => Num 1
  | S k => fmul a (fpow a k)
  end.

(** [np.sum] *)
Definition fsum (l : list npfloat) : npfloat := foldl fadd (Num 0) l.

(** The parameter vector [theta], unpacked as [b,m,sigma = theta]. *)
Definition theta : Type := npfloat * npfloat * npfloat.

(** [linear_func(x, m, b)] on one abscissa *)
Definition linear_func (x m b : npfloat) : npfloat := fadd (fmul m x) b.


(** [a - b] on one-dimensional arrays: entry by entry when the lengths
    agree, an array of length one is broadcast, anything else raises
    ValueError. *)
Definition array_sub (a b : list npfloat) : option (list npfloat) :=
  if (length a =? length b)%nat then Some (zip_with fsub a b)
  else match a, b with
       | [a0], _ => Some (fsub a0 <$> b)
       | _, [b0] => Some ((fun x => fsub x b0) <$> a)
       | _, _ => None
       end.

(** One entry of the array summed by [lnlike], for the residual [r]. *)
Definition lnlike_term (sigma r : npfloat) : npfloat :=
  fadd (fmul (Num 2) (flog sigma)) (fpow (fdiv r sigma) 2).

(** [lnlike(theta, x, y)] for arrays [x], [y]; [None] when it raises. *)
Definition lnlike (th : theta) (x y : list npfloat) : option npfloat :=
  let '(b, m, sigma) := th in
  let y_pred := (fun xi => linear_func xi m b) <$> x in
  match array_sub y y_pred with
  | Some d => Some (fneg (fsum (lnlike_term sigma <$> d)))
  | None => None
  end.






End Fitting.

(** ** Concrete inputs used to exercise the theorems *)

Module Inputs.
Import Scrape.

(** Every page answers "404 Not Found". *)
Definition web_not_found : web := fun _ => Some "404 Not Found".

(** No request succeeds: every GET raises. *)
Definition web_down : web := fun _ => None.

(** Comic 1 exists, everything else is not found. *)
Definition web_one : web := fun u =>
  if String.eqb u "http://www.xkcd.com/1/"
  then Some "<img src=//imgs.xkcd.com/comics/barrel_cropped_(1).jpg>"
  else if String.eqb u "http://imgs.xkcd.com/comics/barrel_cropped_(1).jpg"
  then Some "JFIF"
  else Some "404 Not Found".

(** The request for comic 0 raises, everything else is not found. *)
Definition web_raise0 : web := fun u =>
  if String.eqb u "http://www.xkcd.com/0/" then None
  else Some "404 Not Found".

(** The page of comic 1 links an image whose name has a slash where the
    pattern has its dot. *)
Definition web_slash : web := fun u =>
  if String.eqb u "http://www.xkcd.com/1/"
  then Some "<img src=//imgs.xkcd.com/comics/a/png>"
  else if String.eqb u "http://imgs.xkcd.com/comics/a/png"
  then Some "PNG"
  else Some "404 Not Found".

(** Every file can be opened. *)
Definition disk_any : files := fun _ => true.

Fixpoint has_slash (name : string) : bool :=
  match name with
  | EmptyString => false
  | String c t => Ascii.eqb c "/"%char || has_slash t
  end.

(** An empty working directory: a file can be opened unless its name
    asks for a directory. *)
Definition disk_flat : files := fun name => negb (has_slash name).

(** *** Schedules and the states they lead to *)

Import Pool.

Definition W0 : actor := Worker 0.
Definition W1 : actor := Worker 1.

Definition thread_at (p : wpc) : thread := {| running := true; pc := p |}.

(** Two workers, items 0 and 1: each worker has claimed one item. *)
Definition sched_two_claims : list actor :=
  [Main; Main; Main; Main; Main; Main; W0; W0; W0; W1; W1; W1].

Definition state_two_claims : state :=
  {| main := MJoin; queue := []; unfinished := 2;
     workers := [thread_at (WTaskDone 0); thread_at (WTaskDone 1)];
     trace := [Claim 0 0; Claim 1 1] |}.

(** One worker, item 0: the call returns as soon as the item is marked
    done, before it is fetched. *)
Definition sched_early_return : list actor :=
  [Main; Main; Main; Main; W0; W0; W0; W0; Main; Main; Main].

Definition state_early_return : state :=
  {| main := MReturned; queue := []; unfinished := 0;
     workers := [thread_at (WWork 0)];
     trace := [Claim 0 0] |}.

(** The same run, continued until the worker has finished the item and
    found the queue empty. *)
Definition sched_all_done : list actor := sched_early_return ++ [W0; W0].

Definition state_all_done : state :=
  {| main := MReturned; queue := []; unfinished := 0;
     workers := [thread_at WRun];
     trace := [Claim 0 0; Done 0 0 [Get "http://www.xkcd.com/0/"]] |}.

(** One worker over [range(1, 0)]: an empty batch. *)
Definition sched_empty_batch : list actor := [Main; Main; Main; Main; Main; Main].

Definition state_empty_batch : state :=
  {| main := MReturned; queue := []; unfinished := 0;
     workers := [thread_at WRun]; trace := [] |}.

(** No worker, item 0: the main thread waits in [q.join()]. *)
Definition sched_no_worker : list actor := [Main; Main; Main].

Definition state_no_worker : state :=
  {| main := MJoin; queue := [0]; unfinished := 1; workers := []; trace := [] |}.

(** One worker, items 0 and 1, the request for comic 0 raises. *)
Definition sched_crash : list actor :=
  [Main; Main; Main; Main; Main; W0; W0; W0; W0; W0].

Definition state_crash : state :=
  {| main := MJoin; queue := [1]; unfinished := 1;
     workers := [thread_at WDead];
     trace := [Claim 0 0; Crash 0 0 [Get "http://www.xkcd.com/0/"]] |}.

(** Two workers, items 0 and 1, the request for comic 0 raises: worker 0
    holds item 0 and is about to fetch it. *)
Definition sched_before_crash : list actor :=
  [Main; Main; Main; Main; Main; Main; W0; W0; W0; W0].

Definition state_before_crash : state :=
  {| main := MJoin; queue := [1]; unfinished := 1;
     workers := [thread_at (WWork 0); thread_at WRun];
     trace := [Claim 0 0] |}.

(** The state the worker of the run above leaves when it has worked on
    item 0. *)
Definition state_worked : state :=
  {| main := MReturned; queue := []; unfinished := 0;
     workers := [thread_at WLoop];
     trace := [Claim 0 0; Done 0 0 [Get "http://www.xkcd.com/0/"]] |}.

End Inputs.

(** ** What the downloaders are observed to do *)

Module Observe.
Import Scrape.

(** Number of files written among the events. *)
Definition writes (l : list event) : nat := length (List.filter is_write l).

(** The page of item [i] is answered, has no comic image, says
    "Not Found", and [i] is not 404: the condition under which
    [download_xkcd] clears [content]. *)
Definition not_found (http : web) (i : Z) : bool :=
  match http (page_url i) with
  | Some data =>
      match search_comic data with
      | Some _ => false
      | None => search_literal "Not Found" data && negb (i =? 404)
      end
  | None => false
  end.

(** Every character of [s] is in the class [[a-z0-9_()]]. *)
Fixpoint all_in_class (s : string) : bool :=
  match s with
  | EmptyString => true
  | String c t => in_class c && all_in_class t
  end.

(** Every page shows the same image. *)
Definition web_same_image : web := fun u =>
  if String.prefix "http://www.xkcd.com/" u
  then Some "<img src=//imgs.xkcd.com/comics/a.png>"
  else Some "PNG".

End Observe.

(** ** More of the threaded downloader: what it has written *)

Module PoolFiles.
Import Scrape Pool.

(** The files an entry of the history has written. *)
Definition entry_files (e : entry) : list event :=
  match e with
  | Claim _ _ => []
  | Done _ _ out => List.filter is_write out
  | Crash _ _ out => List.filter is_write out
  end.

(** The files the pool has written so far, in the order of the history. *)
Definition files_written (s : state) : list event :=
  concat (entry_files <$> trace s).

(** The messages an entry of the history has printed. *)
Definition entry_prints (e : entry) : list event :=
  match e with
  | Claim _ _ => []
  | Done _ _ out => List.filter is_print out
  | Crash _ _ out => List.filter is_print out
  end.

(** The messages the pool has printed so far. *)
Definition messages_printed (s : state) : list event :=
  concat (entry_prints <$> trace s).

(** Every download of the batch returns. *)
Definition no_download_raises (http : web) (disk : files) (start stop : Z)
  : Prop :=
  forall i, start <= i < stop -> snd (download_item http disk i) = Some tt.

(** What an entry of the history says about a download. *)
Definition entry_faithful (http : web) (disk : files) (e : entry) : Prop :=
  match e with
  | Claim _ _ => True
  | Done _ i out => download_item http disk i = (out, Some tt)
  | Crash _ i out => download_item http disk i = (out, None)
  end.

(** What a worker leaves in the history for an item: the request for its
    page and nothing else. *)
Definition page_only (e : entry) : Prop :=
  match e with
  | Claim _ _ => True
  | Done _ i out => out = [Get (page_url i)]
  | Crash _ i out => out = [Get (page_url i)]
  end.

(** Two workers, one item: worker 1 has seen the queue non-empty, and
    worker 0 has taken the item before it. *)
Definition sched_lost_race : list actor :=
  [Main; Main; Main; Main; Main;
   Worker 0; Worker 0; Worker 1; Worker 1; Worker 0].

Definition state_lost_race : state :=
  {| main := MJoin; queue := []; unfinished := 1;
     workers := [{| running := true; pc := WTaskDone 0 |};
                 {| running := true; pc := WGet |}];
     trace := [Claim 0 0] |}.

(** The same run, continued until the main thread has returned. *)
Definition sched_after_race : list actor :=
  [Worker 0; Worker 0; Main; Main; Main; Main].

Definition state_after_race : state :=
  {| main := MReturned; queue := []; unfinished := 0;
     workers := [{| running := true; pc := WLoop |};
                 {| running := true; pc := WGet |}];
     trace := [Claim 0 0; Done 0 0 [Get "http://www.xkcd.com/0/"]] |}.

(** One worker, comic 1, which exists: the worker has worked on it. *)
Definition sched_one_file : list actor :=
  [Main; Main; Main; Main; Worker 0; Worker 0; Worker 0; Worker 0; Worker 0].

Definition state_one_file : state :=
  {| main := MJoin; queue := []; unfinished := 0;
     workers := [{| running := true; pc := WLoop |}];
     trace :=
       [Claim 0 1; Done 0 1 [Get "http://www.xkcd.com/1/"]] |}.

End PoolFiles.

(** ** The race on a global counter: [threaded_foo] *)

Module Race.

(** Where a thread is in [foo].  [n += 1] reads the global [n] and then
    writes it, and the interpreter may switch threads in between. *)
Inductive fpc :=
| FNew                (* constructed, not started *)
| FLoad               (* started, about to read n *)
| FStore (v : Z)      (* has read v, about to write v + 1 *)
| FDone.              (* [foo] returned *)

(** Where the calling thread is in [threaded_foo], after it has built
    the list [threads]. *)
Inductive tpc :=
| TStart (i : nat)    (* for t in threads: t.start(), at thread i *)
| TJoin (i : nat)     (* for t in threads: t.join(), at thread i *)
| TPrint              (* print(n) *)
| TEnd.

Record world := {
  n : Z;                  (* the global n *)
  threads : list fpc;
  caller : tpc;
  out : list Z            (* what has been printed *)
}.

Inductive mover := Caller | Thread (t : nat).

(** Threads whose [foo] has returned. *)
Definition is_done (p : fpc) : nat :=
  match p with FDone => 1%nat | _ => 0%nat end.

Definition finished (l : list fpc) : nat := sum_list (is_done <$> l).

Section Counter.
Variable nthreads : nat.   (* range(100) in the notebook *)
Variable n0 : Z.           (* the global n when [threaded_foo] is called *)

Definition initial : world :=
  {| n := n0; threads := replicate nthreads FNew; caller := TStart 0;
     out := [] |}.

(** One move of thread [t] in [foo]. *)
Definition foo (t : nat) (s : world) : option world :=
  match threads s !! t with
  | Some FLoad =>
      Some {| n := n s; threads := <[t:=FStore (n s)]> (threads s);
              caller := caller s; out := out s |}
  | Some (FStore v) =>
      Some {| n := v + 1; threads := <[t:=FDone]> (threads s);
              caller := caller s; out := out s |}
  | _ => None
  end.

(** One move of the calling thread.  [t.join()] waits until thread [t]
    is done. *)
Definition threaded_foo (s : world) : option world :=
  match caller s with
  | TStart i =>
      if decide (i < nthreads)%nat
      then Some {| n := n s; threads := <[i:=FLoad]> (threads s);
                   caller := TStart (S i); out := out s |}
      else Some {| n := n s; threads := threads s; caller := TJoin 0;
                   out := out s |}
  | TJoin i =>
      if decide (i < nthreads)%nat
      then match threads s !! i with
           | Some FDone =>
               Some {| n := n s; threads := threads s; caller := TJoin (S i);
                       out := out s |}
           | _ => None
           end
      else Some {| n := n s; threads := threads s; caller := TPrint;
                   out := out s |}
  | TPrint =>
      Some {| n := n s; threads := threads s; caller := TEnd;
              out := out s ++ [n s] |}
  | TEnd => None
  end.

Definition move (a : mover) (s : world) : option world :=
  match a with
  | Caller => threaded_foo s
  | Thread t => foo t s
  end.

Fixpoint run (sched : list mover) (s : world) : option world :=
  match sched with
  | [] => Some s
  | a :: rest =>
      match move a s with
      | Some s' => run rest s'
      | None => None
      end
  end.

Definition reached (s : world) : Prop :=
  exists sched, run sched initial = Some s.

(** What holds at every moment of a call. *)
Record safe (s : world) : Prop := {
  safe_len : length (threads s) = nthreads;
  safe_lo : n0 <= n s;
  safe_hi : n s <= n0 + Z.of_nat (finished (threads s));
  safe_pos : (0 < finished (threads s))%nat -> n0 + 1 <= n s;
  safe_read : forall t v, threads s !! t = Some (FStore v) ->
              n0 <= v <= n0 + Z.of_nat (finished (threads s));
  safe_fresh : forall i j, caller s = TStart i -> (i <= j < nthreads)%nat ->
               threads s !! j = Some FNew;
  safe_end : caller s = TPrint \/ caller s = TEnd ->
             forall j, (j < nthreads)%nat -> threads s !! j = Some FDone;
  safe_joined : forall i j, caller s = TJoin i -> (j < i)%nat ->
                (j < nthreads)%nat -> threads s !! j = Some FDone;
  safe_out : forall v, v ∈ out s -> caller s = TEnd /\ v = n s
}.

(** A schedule that prints [n0 + 1 + b]: all threads are started, the
    first [a] of them read [n] before any of them writes it, and the
    other [b] run one after the other. *)
Definition racy (a b : nat) : list mover :=
  replicate (a + b + 1) Caller
  ++ (Thread <$> seq 0 a) ++ (Thread <$> seq 0 a)
  ++ (seq a b ≫= fun t => [Thread t; Thread t])
  ++ replicate (a + b + 2) Caller.

End Counter.

(** Two threads, [n = 0]: both read 0 and both write 1. *)
Definition n0_sample : Z := 0.

Definition state_lost_update : world :=
  {| n := 1; threads := [FDone; FDone]; caller := TEnd; out := [1] |}.

End Race.

(** ** The other Monte Carlo estimators *)

Module MonteCarloMore.
Import MonteCarlo.

Section Ranks.
(** [comm.Get_size()] *)
Variable size : Z.
(** The random draw, as in [MonteCarlo]: the hits among the [n] points
    that process (or call) [r] draws. *)
Variable hits : Z -> Z -> Z.

(** [np.sum] of a list of integers. *)
Definition np_sum (l : list Z) : Z := foldr Z.add 0 l.

(** [comm.scatter(data, root=0)] as rank [rank] sees it: entry [rank] of
    the list the root passes. *)
Definition comm_scatter (data : list Z) (rank : Z) : option Z :=
  if (0 <=? rank) && (rank <? size) then data !! Z.to_nat rank else None.

(** [comm.gather(v, root=root)] as rank [rank] sees it: the values of all
    ranks at the root, [None] everywhere else. *)
Definition comm_gather (v : Z -> Z) (root rank : Z) : option (list Z) :=
  if rank =? root then Some (v <$> ranks size) else None.

(** [monte_carlo_area_scattergather(n_samples)] as run by rank [rank];
    [None] when there is no such rank, or when it raises. *)
Definition monte_carlo_area_scattergather (n_samples rank : Z) : option view :=
  let data := (fun _ => n_samples / size) <$> seqZ 0 size in
  let scattered := fun r => comm_scatter data r in
  let local := fun r =>
    match scattered r with Some n => hits r n | None => 0 end in
  match scattered rank with
  | Some per_task =>
      match draw hits rank per_task with
      | Some n_in_circle =>
          let results := comm_gather local 0 rank in
          Some {| n_samples_per_task := per_task;
                  n_in_circle := n_in_circle;
                  draws_sum := per_task * size;
                  n_in_circle_sum :=
                    match results with
                    | Some l => NpInt (np_sum l)
                    | None => NpArray 0
                    end |}
      | None => None
      end
  | None => None
  end.

End Ranks.

Section Processes.
Variable hits : Z -> Z -> Z.

(** [counts_in_a_circle(n)], for the [x]-th call; [None] when it
    raises. *)
Definition counts_in_a_circle (x n : Z) : option (Z * Z) :=
  match draw hits x n with
  | Some n_in_circle => Some (n_in_circle, n)
  | None => None
  end.

(** The results of the calls [0 .. n_proc - 1], collected in this order;
    [None] when one of them raises. *)
Definition pool_results (n_proc n_samples : Z) : option (list (Z * Z)) :=
  mapM (fun x => counts_in_a_circle x (n_samples / n_proc)) (seqZ 0 n_proc).

(** [4*np.sum(results[:,0])/np.sum(results[:,1])] on the array
    [results]. *)
Definition pool_area (results : list (Z * Z)) : quotient :=
  let num := 4 * np_sum (fst <$> results) in
  let den := np_sum (snd <$> results) in
  if den =? 0 then (if num =? 0 then NotANumber else Infinite)
  else Ratio num den.

(** [monte_carlo_area_mp(n_proc, n_samples)]: the area it prints, or
    [None] when it raises: [mp.Pool(processes=n_proc)] for [n_proc < 1],
    or a call of [counts_in_a_circle]. *)
Definition monte_carlo_area_mp (n_proc n_samples : Z) : option quotient :=
  if n_proc <? 1 then None
  else pool_area <$> pool_results n_proc n_samples.

(** [monte_carlo_area_async(n_proc, n_samples)]: what it prints before
    the area, and the area; an exception of a call comes out of
    [p.get()], after the first message. *)
Definition monte_carlo_area_async (n_proc n_samples : Z)
  : list string * option quotient :=
  if n_proc <? 1 then ([], None)
  else
    match pool_results n_proc n_samples with
    | Some output =>
        (["Function called"; "Results returned"], Some (pool_area output))
    | None => (["Function called"], None)
    end.

End Processes.

(** Two processes hold the same numbers, whatever Python type holds
    them. *)
Definition same_numbers (v1 v2 : view) : Prop :=
  n_samples_per_task v1 = n_samples_per_task v2
  /\ n_in_circle v1 = n_in_circle v2
  /\ draws_sum v1 = draws_sum v2
  /\ value (n_in_circle_sum v1) = value (n_in_circle_sum v2).

(** The hits of rank [r] among [n] points, for an example. *)
Definition hits_sample (r n : Z) : Z := Z.max 0 (Z.min n r).

End MonteCarloMore.

(** ** The least-squares losses handed to [minimize] *)

Module Loss.
Local Open Scope R_scope.

(** Arrays and parameters are real numbers here: every operation of the
    loss functions is defined on all of them. *)

Definition true_m : R := 0.68.
Definition true_b : R := 2.38.

(** [linear_func] on real numbers. *)
Definition linear_func_real (x m b : R) : R := m * x + b.

Definition true_p1 : R := -2.1.
Definition true_p2 : R := 0.8.
Definition true_p3 : R := -0.021.
Definition true_p4 : R := 4.3.
Definition true_p5 : R := 0.6.

Definition nonlinear_func (x p1 p2 p3 p4 p5 : R) : R :=
  p1 + p2 * x + p3 * x * x + p4 * sin (x * p5).

(** The [i]-th positional argument of [*params], or the default of the
    parameter when [params] is too short. *)
Definition arg (params : list R) (i : nat) (default : R) : R :=
  match params !! i with Some p => p | None => default end.

(** A model as the loss functions call it, [func(x_data, *params)]: [None]
    when the call raises. *)
Definition model : Type := list R -> list R -> option (list R).

(** [linear_func(x_data, *params)]: more than two parameters raise
    TypeError. *)
Definition linear_func_star : model := fun x_data params =>
  if (length params <=? 2)%nat
  then Some ((fun x =>
                linear_func_real x (arg params 0 true_m) (arg params 1 true_b))
             <$> x_data)
  else None.

(** [nonlinear_func(x_data, *params)]: more than five parameters raise
    TypeError. *)
Definition nonlinear_func_star : model := fun x_data params =>
  if (length params <=? 5)%nat
  then Some ((fun x => nonlinear_func x
                (arg params 0 true_p1) (arg params 1 true_p2)
                (arg params 2 true_p3) (arg params 3 true_p4)
                (arg params 4 true_p5)) <$> x_data)
  else None.

(** [a - b] on one-dimensional arrays: entry by entry when the lengths
    agree, an array of length one is broadcast, anything else raises
    ValueError. *)
Definition np_sub (a b : list R) : option (list R) :=
  if (length a =? length b)%nat then Some (zip_with Rminus a b)
  else match a, b with
       | [a0], _ => Some ((fun y => a0 - y) <$> b)
       | _, [b0] => Some ((fun x => x - b0) <$> a)
       | _, _ => None
       end.

(** [np.sum] *)
Definition np_sum (l : list R) : R := foldr Rplus 0 l.

(** [y_data - func(x_data, *params)] *)
Definition residuals (params : list R) (func : model) (y_data x_data : list R)
  : option (list R) :=
  match func x_data params with
  | Some pred => np_sub y_data pred
  | None => None
  end.

Definition loss_function (params : list R) (func : model)
    (y_data x_data : list R) : option R :=
  match residuals params func y_data x_data with
  | Some d => Some (np_sum ((fun r => r ^ 2) <$> d))
  | None => None
  end.

(** The default of the parameter [l] of [loss_function2], [-1e3]. *)
Definition l_default : R := -1000.

(** [params[-1]] raises IndexError on an empty array. *)
Definition loss_function2 (params : list R) (func : model)
    (y_data x_data : list R) (l : R) : option R :=
  match loss_function params func y_data x_data with
  | Some s =>
      match last params with
      | Some p => Some (s + l * p)
      | None => None
      end
  | None => None
  end.

End Loss.

(** * Properties *)

(** ** The page scraper at work *)

Module ScrapeFacts.
Import Scrape.

(** The image of a comic page is found and named after the comic. *)
Example search_comic_page :
  search_comic "<img src=//imgs.xkcd.com/comics/barrel_cropped_(1).jpg>"
  = Some "/comics/barrel_cropped_(1).jpg".
Proof. reflexivity. Qed.

(** The star gives back characters until [.(jpg|png)] fits. *)
Example search_comic_backtracks :
  search_comic "x/comics/abcjpg" = Some "/comics/abcjpg".
Proof. reflexivity. Qed.

(** A first candidate that fails does not hide a later match. *)
Example search_comic_leftmost :
  search_comic "/comics/jpg /comics/a.png" = Some "/comics/a.png".
Proof. reflexivity. Qed.

Example search_comic_none : search_comic "404 Not Found" = None.
Proof. reflexivity. Qed.

Example search_not_found : search_literal "Not Found" "404 Not Found" = true.
Proof. reflexivity. Qed.

Example file_name_of_comic :
  path +:+ str 1 +:+ last4 (img_url "/comics/barrel_cropped_(1).jpg")
  = "xkcd_1.jpg".
Proof. reflexivity. Qed.

End ScrapeFacts.

(** ** The sequential downloader *)

Module SequentialFacts.
Import Scrape Sequential Inputs.

Lemma gets_app (l1 l2 : list event) : gets (l1 ++ l2) = (gets l1 + gets l2)%nat.
Proof. unfold gets. by rewrite List.filter_app, length_app. Qed.

Section Loop.
Variable http : web.
Variable disk : files.

(** One iteration whose requests are answered and whose file can be
    opened returns, and it has fetched the page of its item. *)
Lemma xkcd_item_returns (i : Z) (content : bool) :
  all_answer http [i] -> all_open http disk [i] ->
  exists evs c, xkcd_item http disk i content = (evs, Some c)
    /\ (1 <= gets evs)%nat /\ Get (page_url i) ∈ evs.
Proof.
  intros Hans Hopen. destruct (Hans i) as (data & Hpage & Himg); [by left|].
  unfold xkcd_item, request, bind. rewrite Hpage. cbn [fmap option_fmap option_map rd_data body].
  destruct (search_comic data) as [m|] eqn:Hm.
  - destruct (Himg m eq_refl) as [r Hr]. rewrite Hr.
    cbn [fmap option_fmap option_map]. unfold write_file.
    rewrite (Hopen i data m) by (done || by left). simpl.
    eexists _, _. split; [reflexivity|]. split; [cbn; lia|]. by left.
  - destruct (search_literal "Not Found" data && negb (i =? 404)); simpl;
      eexists _, _; (split; [reflexivity|]); (split; [cbn; lia|]); by left.
Qed.

(** A page that is not found clears the flag, except for comic 404;
    nothing is written either way, and the iteration returns. *)
Lemma xkcd_item_not_found (i : Z) (content : bool) (data : string) :
  http (page_url i) = Some data ->
  search_comic data = None -> search_literal "Not Found" data = true ->
  xkcd_item http disk i content
  = ([Get (page_url i)], Some (if i =? 404 then content else false)).
Proof.
  intros Hpage Hcomic Hnf. unfold xkcd_item, request, bind.
  rewrite Hpage. cbn [fmap option_fmap option_map rd_data body].
  rewrite Hcomic, Hnf. by destruct (i =? 404).
Qed.

(** The loop never leaves early: whatever the pages say, every item of
    the range is fetched. *)
Lemma xkcd_loop_visits_all (items : list Z) (content : bool) :
  all_answer http items -> all_open http disk items ->
  exists evs c, xkcd_loop http disk items content = (evs, Some c)
    /\ (length items <= gets evs)%nat
    /\ forall i, i ∈ items -> Get (page_url i) ∈ evs.
Proof.
  revert content. induction items as [|i rest IH]; intros content Hans Hopen.
  - exists [], content. repeat split; [simpl; lia|]. intros i Hi. inversion Hi.
  - destruct (xkcd_item_returns i content) as (e1 & c1 & H1 & Hg1 & Hin1).
    { intros j Hj. apply Hans. apply list_elem_of_singleton in Hj. subst. by left. }
    { intros j data m Hj. apply Hopen. apply list_elem_of_singleton in Hj.
      subst. by left. }
    destruct (IH c1) as (e2 & c2 & H2 & Hg2 & Hin2).
    { intros j Hj. apply Hans. by right. }
    { intros j data m Hj. apply Hopen. by right. }
    exists (e1 ++ e2), c2. cbn [xkcd_loop]. unfold bind. rewrite H1, H2.
    split; [reflexivity|]. split.
    + rewrite gets_app. simpl. lia.
    + intros j Hj. apply elem_of_app. apply elem_of_cons in Hj as [->|Hj]; auto.
Qed.

End Loop.

(** C7 (the code at work): in [download_xkcd] a "Not Found" page only
    clears the local flag [content], which nothing reads.  Whenever the
    requests are answered and the files can be opened (nothing raises),
    the call returns after it has fetched the page of every item of
    [range(start, stop)], so it issues at least [stop - start] GET
    requests, never fewer, whatever the pages say. *)
Theorem download_xkcd_never_stops_early
    (http : web) (disk : files) (start stop : Z) :
  all_answer http (range start stop) ->
  all_open http disk (range start stop) ->
  exists evs content,
    download_xkcd http disk start stop = (evs, Some content)
    /\ (Z.to_nat (stop - start) <= gets evs)%nat
    /\ forall i, start <= i < stop -> Get (page_url i) ∈ evs.
Proof.
  intros Hans Hopen.
  destruct (xkcd_loop_visits_all http disk (range start stop) true Hans Hopen)
    as (evs & c & Hrun & Hlen & Hin).
  exists evs, c. split; [exact Hrun|]. split.
  - unfold range in Hlen. by rewrite length_seqZ in Hlen.
  - intros i Hi. apply Hin. unfold range. apply elem_of_seqZ. lia.
Qed.

Lemma web_not_found_answers (items : list Z) : all_answer web_not_found items.
Proof.
  intros i _. exists "404 Not Found". split; [reflexivity|].
  intros m Hm. vm_compute in Hm. discriminate.
Qed.

Lemma disk_any_opens (http : web) (items : list Z) :
  all_open http disk_any items.
Proof. by intros i data m _ _ _. Qed.

Lemma download_xkcd_never_stops_early_witness :
  exists evs content,
    download_xkcd web_not_found disk_any 1 4 = (evs, Some content)
    /\ (Z.to_nat (4 - 1) <= gets evs)%nat
    /\ forall i, 1 <= i < 4 -> Get (page_url i) ∈ evs.
Proof.
  apply (download_xkcd_never_stops_early web_not_found disk_any 1 4).
  - apply web_not_found_answers.
  - apply disk_any_opens.
Defined.

(** The run behind C7: three pages, all "Not Found"; the flag drops at
    the first one and the two others are fetched all the same. *)
Example download_xkcd_not_found_run :
  download_xkcd web_not_found disk_any 1 4 =
    ([Get "http://www.xkcd.com/1/"; Get "http://www.xkcd.com/2/";
      Get "http://www.xkcd.com/3/"], Some false).
Proof. reflexivity. Qed.

End SequentialFacts.

(** ** The Monte Carlo estimator *)

Module MonteCarloFacts.
Import MonteCarlo.

Lemma total_const (c : Z) (rs : list Z) :
  total (fun _ => c) rs = Z.of_nat (length rs) * c.
Proof.
  unfold total. induction rs as [|r rs IH]; [reflexivity|].
  cbn [fmap list_fmap foldr length]. change (foldr Z.add 0 ((fun _ => c) <$> rs))
    with (foldr Z.add 0 ((fun _ : Z => c) <$> rs)) in IH.
  rewrite IH. lia.
Qed.

Lemma foldl_add_total (f : Z -> Z) (a : Z) (rs : list Z) :
  foldl (fun acc r => acc + f r) a rs = a + total f rs.
Proof.
  unfold total. revert a. induction rs as [|r rs IH]; intros a; cbn; [lia|].
  rewrite IH. lia.
Qed.

Lemma total_perm (f : Z -> Z) (l k : list Z) : l ≡ₚ k -> total f l = total f k.
Proof.
  unfold total. induction 1; cbn; lia.
Qed.

Lemma total_ext (f g : Z -> Z) (rs : list Z) :
  (forall r, r ∈ rs -> f r = g r) -> total f rs = total g rs.
Proof.
  unfold total. induction rs as [|r rs IH]; intros H; [done|]. cbn.
  rewrite (H r) by by left. rewrite IH; [done|].
  intros r' Hr'. apply H. by right.
Qed.

Lemma draw_some (hits : Z -> Z -> Z) (r n : Z) :
  0 <= n -> draw hits r n = Some (hits r n).
Proof. intros Hn. unfold draw. destruct (Z.ltb_spec n 0); [lia|done]. Qed.

Lemma draw_none (hits : Z -> Z -> Z) (r n : Z) :
  n < 0 -> draw hits r n = None.
Proof. intros Hn. unfold draw. destruct (Z.ltb_spec n 0); [done|lia]. Qed.

(** What [comm.reduce] delivers at the root does not depend on the order
    in which the contributions are combined. *)
Lemma comm_reduce_sum_root (size : Z) (order : list Z) (v : Z -> Z) :
  order ≡ₚ ranks size ->
  comm_reduce_sum order v 0 0 = Some (total v (ranks size)).
Proof.
  intros Hperm. unfold comm_reduce_sum. cbn.
  by rewrite foldl_add_total, (total_perm _ _ _ Hperm).
Qed.

(** The view of a rank, when nothing raises. *)
Lemma reduce_view
    (size : Z) (hits : Z -> Z -> Z) (order : list Z) (n_samples rank : Z) :
  0 <= n_samples -> 1 <= size ->
  monte_carlo_area_reduce size hits order n_samples rank
  = Some {| n_samples_per_task := n_samples / size;
            n_in_circle := hits rank (n_samples / size);
            draws_sum := n_samples / size * size;
            n_in_circle_sum :=
              match comm_reduce_sum order
                      (fun r => hits r (n_samples / size)) 0 rank with
              | Some v => NpInt v
              | None => PyInt 0
              end |}.
Proof.
  intros Hn Hsize. unfold monte_carlo_area_reduce.
  by rewrite draw_some by (apply Z.div_pos; lia).
Qed.





(** The send/receive variant computes the same total at rank 0, in
    whatever order the messages of ranks 1 .. size-1 arrive. *)
Lemma sendrcv_agrees_with_reduce
    (size : Z) (hits : Z -> Z -> Z) (arrival order : list Z) (n_samples : Z) :
  0 <= n_samples -> 1 <= size ->
  arrival ≡ₚ seqZ 1 (size - 1) -> order ≡ₚ ranks size ->
  monte_carlo_area_sendrcv size hits arrival n_samples 0
  = monte_carlo_area_reduce size hits order n_samples 0.
Proof.
  intros Hn Hsize Hperm Hord. rewrite reduce_view by done.
  unfold monte_carlo_area_sendrcv.
  rewrite draw_some by (apply Z.div_pos; lia).
  rewrite (comm_reduce_sum_root size order _ Hord).
  cbn [Z.eqb]. do 3 f_equal.
  rewrite foldl_add_total, (total_perm _ _ _ Hperm).
  unfold ranks. rewrite (seqZ_cons 0 size) by lia. cbn.
  replace (Z.pred size) with (size - 1) by lia. reflexivity.
Qed.

End MonteCarloFacts.

(** ** The log-probability of the model fit *)

Module FittingFacts.
Import Fitting.
Local Open Scope R_scope.

Lemma Rltb_false (a b : R) : b <= a -> Rltb a b = false.
Proof. intros H. unfold Rltb. destruct (Rlt_dec a b); [lra | reflexivity]. Qed.


Lemma Reqb_false (a b : R) : a <> b -> Reqb a b = false.
Proof. intros H. unfold Reqb. destruct (Req_dec_T a b); [contradiction | reflexivity]. Qed.


Lemma fpow_num (a : R) (n : nat) : fpow (Num a) n = Num (a ^ n).
Proof. induction n as [|n IH]; [reflexivity|]. cbn [fpow]. rewrite IH. reflexivity. Qed.

Lemma fsum_from (acc : R) (l : list R) :
  foldl fadd (Num acc) (Num <$> l) = Num (foldl Rplus acc l).
Proof. revert acc. induction l as [|a l IH]; intros acc; [reflexivity|]. cbn. apply IH. Qed.



Lemma array_sub_same_length (a b : list npfloat) :
  length a = length b -> array_sub a b = Some (zip_with fsub a b).
Proof. intros H. unfold array_sub. by rewrite H, Nat.eqb_refl. Qed.












End FittingFacts.

(** ** The threaded downloader *)

Module PoolFacts.
Import Scrape Pool Inputs.

#[local] Arguments download_item : simpl never.

(** *** Lists of workers updated in place *)

Lemma sum_insert (f : thread -> nat) (l : list thread) (w : nat) (t t' : thread) :
  l !! w = Some t ->
  (sum_list (f <$> <[w:=t']> l) + f t = sum_list (f <$> l) + f t')%nat.
Proof.
  revert w. induction l as [|a l IH]; intros [|w] H; simplify_eq/=; [lia|].
  specialize (IH w H). lia.
Qed.

Lemma held_insert (l : list thread) (w : nat) (t t' : thread) :
  l !! w = Some t ->
  held t ++ concat (held <$> <[w:=t']> l) ≡ₚ held t' ++ concat (held <$> l).
Proof.
  revert w. induction l as [|a l IH]; intros [|w] H; simplify_eq/=.
  - apply Permutation_app_swap_app.
  - rewrite Permutation_app_swap_app, (IH w H). apply Permutation_app_swap_app.
Qed.

Lemma owing_at_pc (l : list thread) (w : nat) (t : thread) (p : wpc) :
  l !! w = Some t ->
  (sum_list (owing <$> <[w:=at_pc t p]> l) + owes (pc t)
   = sum_list (owing <$> l) + owes p)%nat.
Proof. apply (sum_insert owing). Qed.

Lemma dead_at_pc (l : list thread) (w : nat) (t : thread) (p : wpc) :
  l !! w = Some t ->
  (sum_list (dead <$> <[w:=at_pc t p]> l) + is_dead (pc t)
   = sum_list (dead <$> l) + is_dead p)%nat.
Proof. apply (sum_insert dead). Qed.

Lemma effort_at_pc (l : list thread) (w : nat) (t : thread) (p : wpc) :
  l !! w = Some t ->
  (sum_list (effort <$> <[w:=at_pc t p]> l) + cost (pc t)
   = sum_list (effort <$> l) + cost p)%nat.
Proof. apply (sum_insert effort). Qed.

Lemma sum_positive (f : thread -> nat) (l : list thread) :
  (0 < sum_list (f <$> l))%nat -> exists w t, l !! w = Some t /\ (0 < f t)%nat.
Proof.
  induction l as [|a l IH]; cbn; [lia|]. intros H.
  destruct (f a) eqn:E.
  - destruct IH as (w & t & Hw & Ht); [lia|]. by exists (S w), t.
  - exists O, a. split; [done | lia].
Qed.

Lemma sum_zero (f : thread -> nat) (l : list thread) (t : thread) :
  sum_list (f <$> l) = O -> t ∈ l -> f t = O.
Proof. intros H Ht. induction Ht; cbn in H; [lia|]. apply IHHt. lia. Qed.

Lemma sum_below_length (f : thread -> nat) (l : list thread) :
  (sum_list (f <$> l) < length l)%nat -> exists w t, l !! w = Some t /\ f t = O.
Proof.
  induction l as [|a l IH]; cbn; [lia|]. intros H.
  destruct (f a) eqn:E.
  - by exists O, a.
  - destruct IH as (w & t & Hw & Ht); [lia|]. by exists (S w), t.
Qed.

Lemma NoDup_all_equal {A} (l : list A) (x : A) :
  NoDup l -> (forall y, y ∈ l -> y = x) -> (length l <= 1)%nat.
Proof.
  intros Hnd Hall. destruct l as [|a [|b l]]; cbn; try lia.
  apply NoDup_cons in Hnd as [Hnd _]. exfalso. apply Hnd.
  rewrite (Hall a), <- (Hall b); [by left | by right; left | by left].
Qed.

Lemma held_at_pc (l : list thread) (w : nat) (t : thread) (p : wpc) :
  l !! w = Some t ->
  holds (pc t) ++ concat (held <$> <[w:=at_pc t p]> l)
  ≡ₚ holds p ++ concat (held <$> l).
Proof. apply held_insert. Qed.

Lemma sum_snoc (f : thread -> nat) (l : list thread) (t : thread) :
  sum_list (f <$> (l ++ [t])) = (sum_list (f <$> l) + f t)%nat.
Proof. induction l as [|a l IH]; cbn in *; lia. Qed.

Lemma held_snoc (l : list thread) (t : thread) :
  concat (held <$> (l ++ [t])) = concat (held <$> l) ++ held t.
Proof. rewrite fmap_app, concat_app. cbn. by rewrite app_nil_r. Qed.

(** *** Reading the history after a step *)

Lemma crashed_log (e : entry) (s : state) :
  crashed (log e s) = crashed s ++ match crash_of e with Some c => [c] | None => [] end.
Proof. unfold crashed. cbn. rewrite omap_app. cbn. by destruct (crash_of e). Qed.

(** *** What a worker does with an item *)

(** The worker searches what [rd.read()] returns after a request that
    has read the body already: the empty string.  So it finds neither an
    image nor "Not Found": it requests the page and does nothing else,
    and it raises exactly when that request does. *)
Lemma download_item_page_only (http : web) (disk : files) (i : Z) :
  download_item http disk i
  = ([Get (page_url i)], (fun _ => tt) <$> http (page_url i)).
Proof.
  unfold download_item, request, bind.
  destruct (http (page_url i)) as [data|]; reflexivity.
Qed.

(** *** The step function and the step relation agree *)

Section Steps.
Variable http : web.
Variable disk : files.
Variables nthreads start stop : Z.

#[local] Abbreviation step := (step http disk nthreads).
#[local] Abbreviation exec := (exec http disk nthreads).
#[local] Abbreviation trans := (trans http disk nthreads).
#[local] Abbreviation reachable := (reachable http disk nthreads start stop).

Lemma step_trans (a : actor) (s s' : state) :
  step a s = Some s' -> trans a s s'.
Proof.
  destruct a as [|w]; cbn [Pool.step].
  - unfold download_xkcd_threaded. destruct (main s) as [[|i rest]|[|k]| |[|k]|] eqn:Hm;
      try (intros [= <-]; by constructor); try discriminate.
    destruct (unfinished s) eqn:Hu; [|discriminate].
    intros [= <-]. by constructor.
  - unfold DownloadThread_run, download_worker. destruct (workers s !! w) as [t|] eqn:Hw; [|discriminate].
    destruct (pc t) eqn:Hpc; try discriminate.
    + intros [= <-]. by apply t_run.
    + intros [= <-]. by apply t_loop.
    + unfold q_get. destruct (queue s) as [|i q] eqn:Hq; [discriminate|].
      intros [= <-]. by apply t_get.
    + unfold q_task_done. destruct (unfinished s) as [|n] eqn:Hu; intros [= <-].
      * by eapply t_task_done_error.
      * by eapply t_task_done.
    + destruct (download_item http disk i) as [out [[]|]] eqn:Hd; intros [= <-].
      * by eapply t_work.
      * by eapply t_crash.
Qed.

Lemma trans_step (a : actor) (s s' : state) :
  trans a s s' -> step a s = Some s'.
Proof.
  destruct 1; cbn [Pool.step]; unfold download_xkcd_threaded, DownloadThread_run, download_worker, q_get, q_task_done;
    repeat match goal with H : _ = _ |- _ => rewrite H end; reflexivity.
Qed.

Lemma exec_app (l1 l2 : list actor) (s : state) :
  exec (l1 ++ l2) s = exec l1 s ≫= exec l2.
Proof.
  revert s. induction l1 as [|a l1 IH]; intros s; [reflexivity|].
  cbn. destruct (step a s); [apply IH | reflexivity].
Qed.

Lemma reachable_exec (sched : list actor) (s s' : state) :
  reachable s -> exec sched s = Some s' -> reachable s'.
Proof.
  intros [l Hl] H. exists (l ++ sched). rewrite exec_app, Hl. exact H.
Qed.

(** Induction over the executions of the program. *)
Lemma reachable_ind (P : state -> Prop) :
  P (init start stop) ->
  (forall a s s', reachable s -> P s -> trans a s s' -> P s') ->
  forall s, reachable s -> P s.
Proof.
  intros H0 Hstep s [sched Hs]. revert s Hs.
  induction sched as [|a sched IH] using rev_ind; intros s Hs.
  - cbn in Hs. by simplify_eq.
  - rewrite exec_app in Hs. destruct (exec sched (init start stop)) as [s1|] eqn:H1;
      [|discriminate].
    cbn in Hs. destruct (step a s1) as [s2|] eqn:H2; [|discriminate]. simplify_eq.
    eapply Hstep; [by exists sched | by apply IH | by apply step_trans].
Qed.

(** *** The invariant *)

#[local] Abbreviation inv := (inv http disk nthreads start stop).

Lemma inv_init : inv (init start stop).
Proof.
  constructor; cbn -[download_item]; try done.
  all: intros w i H; by apply elem_of_nil in H.
Qed.

Ltac unfold_state :=
  unfold joined, spawned, todo, claims, processed, crashed in *;
  cbn [main queue unfinished workers trace with_main with_worker log
       q_put spawn with_queue with_unfinished] in *.

(** Bring in what [lem] says about the worker the step has moved. *)
Ltac at_worker lem :=
  repeat match goal with
         | |- context [if ?b then _ else _] => destruct b
         end;
  match goal with
  | Hw : workers ?s !! ?w = Some ?t, Hpc : pc ?t = _
    |- context [<[?w := at_pc ?t ?p]> (workers ?s)] =>
      let E := fresh "E" in
      pose proof (lem (workers s) w t p Hw) as E; rewrite Hpc in E;
      cbn [owes is_dead holds cost] in E
  end.

Ltac history :=
  rewrite ?omap_app, ?fmap_app, ?length_app;
  cbn [length omap list_omap crash_of done_of claim_of fmap list_fmap snd app];
  rewrite ?app_nil_r.

Lemma trans_items (a : actor) (s s' : state) :
  trans a s s' ->
  (snd <$> claims s) ++ queue s ++ todo s ≡ₚ range start stop ->
  (snd <$> claims s') ++ queue s' ++ todo s' ≡ₚ range start stop.
Proof.
  intros Ht I. destruct Ht; unfold_state;
    repeat match goal with H : main _ = _ |- _ => rewrite H in I; clear H end;
    repeat match goal with H : queue _ = _ |- _ => rewrite H in I; clear H end;
    try assumption.
  - rewrite <- I, <- (app_assoc (queue s)). reflexivity.
  - rewrite omap_app, fmap_app, <- I, <- app_assoc. reflexivity.
  - rewrite omap_app. cbn. by rewrite app_nil_r.
  - rewrite omap_app. cbn. by rewrite app_nil_r.
Qed.

Lemma trans_count (a : actor) (s s' : state) :
  trans a s s' ->
  unfinished s = (length (queue s) + sum_list (owing <$> workers s))%nat ->
  unfinished s' = (length (queue s') + sum_list (owing <$> workers s'))%nat.
Proof.
  intros Ht I. destruct Ht; unfold_state; try assumption;
    try at_worker owing_at_pc;
    repeat match goal with H : queue _ = _ |- _ => rewrite H in *; clear H end;
    rewrite ?length_app, ?sum_snoc in *; cbn [length] in *;
    change (owing (DownloadThread_start DownloadThread_init)) with O;
    lia.
Qed.

Lemma trans_joined (a : actor) (s s' : state) :
  trans a s s' ->
  (joined s -> unfinished s = O) ->
  joined s' -> unfinished s' = O.
Proof.
  intros Ht I. destruct Ht; unfold_state;
    repeat match goal with H : main _ = _ |- _ => rewrite H in I; clear H end;
    try assumption; try done.
  intros J. specialize (I J). congruence.
Qed.

Lemma started_at_pc (t : thread) (p : wpc) :
  started t -> p <> WExit -> p <> WNew -> started (at_pc t p).
Proof. intros (? & ? & ?) ? ?. by repeat split. Qed.

Lemma trans_started (a : actor) (s s' : state) :
  trans a s s' -> Forall started (workers s) -> Forall started (workers s').
Proof.
  intros Ht I. destruct Ht; unfold_state; try assumption.
  { apply Forall_app. split; [assumption|]. by repeat constructor. }
  all: apply Forall_insert; [assumption|];
    match goal with Hw : workers _ !! _ = Some _ |- _ =>
      pose proof (Forall_lookup_1 _ _ _ _ I Hw) as Hst end;
    apply started_at_pc; try assumption; try done.
  all: try (destruct Hst as [-> _]); try destruct (q_empty s); done.
Qed.

Lemma trans_spawned (a : actor) (s s' : state) :
  trans a s s' -> spawned nthreads s -> spawned nthreads s'.
Proof.
  intros Ht I. destruct Ht; unfold_state;
    repeat match goal with H : main _ = _ |- _ => rewrite H in I; clear H end;
    rewrite ?length_insert, ?length_app; cbn [length]; try assumption; try lia.
  { by rewrite I. }
  all: destruct (main s); rewrite ?length_insert; try assumption.
  all: match goal with Hw : workers _ !! _ = Some _ |- _ =>
         rewrite I in Hw; by rewrite lookup_nil in Hw end.
Qed.

Lemma trans_crashed (a : actor) (s s' : state) :
  trans a s s' ->
  (forall w i, (w, i) ∈ crashed s -> snd (download_item http disk i) = None) ->
  forall w i, (w, i) ∈ crashed s' -> snd (download_item http disk i) = None.
Proof.
  intros Ht I. destruct Ht; unfold_state; try assumption.
  all: intros w' i'; rewrite omap_app; cbn [omap crash_of]; rewrite ?app_nil_r;
    try exact (I w' i').
  intros [Hin|Hin]%elem_of_app; [by apply (I w')|].
  apply list_elem_of_singleton in Hin. simplify_eq.
  match goal with Hd : download_item _ _ _ = _ |- _ => by rewrite Hd end.
Qed.

Lemma trans_dead (a : actor) (s s' : state) :
  trans a s s' ->
  unfinished s = (length (queue s) + sum_list (owing <$> workers s))%nat ->
  sum_list (dead <$> workers s) = length (crashed s) ->
  sum_list (dead <$> workers s') = length (crashed s').
Proof.
  intros Ht I2 I. destruct Ht; unfold_state; try assumption;
    try at_worker dead_at_pc; try at_worker owing_at_pc;
    rewrite ?sum_snoc; history;
    change (dead (DownloadThread_start DownloadThread_init)) with O;
    lia.
Qed.

Lemma trans_ledger (a : actor) (s s' : state) :
  trans a s s' ->
  unfinished s = (length (queue s) + sum_list (owing <$> workers s))%nat ->
  snd <$> claims s ≡ₚ
    concat (held <$> workers s) ++ (snd <$> processed s) ++ (snd <$> crashed s) ->
  snd <$> claims s' ≡ₚ
    concat (held <$> workers s') ++ (snd <$> processed s') ++ (snd <$> crashed s').
Proof.
  intros Ht I2 I. destruct Ht; unfold_state; try assumption;
    try at_worker held_at_pc; try at_worker owing_at_pc;
    history; rewrite ?held_snoc; cbn [app] in *.
  { rewrite concat_app. cbn [concat app]. by rewrite app_nil_r. }
  all: try (exfalso; lia).
  all: rewrite I; try (apply (inj (cons _)) in E).
  all: try (rewrite E; solve_Permutation).
  all: rewrite <- E; solve_Permutation.
Qed.

Lemma held_at_pc_elem (t : thread) (p : wpc) (i : Z) :
  i ∈ held (at_pc t p) -> i ∈ holds p.
Proof. done. Qed.

Lemma trans_holder (a : actor) (s s' : state) :
  trans a s s' ->
  (forall w t i, workers s !! w = Some t -> i ∈ held t -> (w, i) ∈ claims s) ->
  forall w t i, workers s' !! w = Some t -> i ∈ held t -> (w, i) ∈ claims s'.
Proof.
  intros Ht I. destruct Ht; unfold_state; try assumption; history.
  all: intros w' t' i'.
  { intros [Hl|[_ Hl]]%lookup_app_Some Hin; [by eapply I|].
    destruct (w' - length (workers s))%nat; simplify_eq/=.
    by apply elem_of_nil in Hin. }
  all: destruct (decide (w' = w)) as [->|Hne];
    [ rewrite list_lookup_insert_eq by (by eapply lookup_lt_Some);
      intros [= <-] Hin; apply held_at_pc_elem in Hin
    | rewrite list_lookup_insert_ne by done; intros Hl Hin;
      rewrite ?elem_of_app; eauto ].
  all: repeat match goal with
         | Hin : _ ∈ holds (if ?b then _ else _) |- _ => destruct b
         end; cbn [holds] in Hin;
       try (by apply elem_of_nil in Hin);
       apply list_elem_of_singleton in Hin; subst.
  - apply elem_of_app. right. by left.
  - eapply I; [eassumption|]. unfold held.
    match goal with Hpc : pc _ = _ |- _ => rewrite Hpc end. by left.
Qed.

Lemma trans_owner (a : actor) (s s' : state) :
  trans a s s' ->
  (forall w t i, workers s !! w = Some t -> i ∈ held t -> (w, i) ∈ claims s) ->
  (forall w i, (w, i) ∈ processed s ++ crashed s -> (w, i) ∈ claims s) ->
  forall w i, (w, i) ∈ processed s' ++ crashed s' -> (w, i) ∈ claims s'.
Proof.
  intros Ht I9 I. destruct Ht; unfold_state; try assumption; history.
  all: intros w' i'.
  - intros Hin. apply elem_of_app. left. by apply I.
  - rewrite !elem_of_app, list_elem_of_singleton.
    intros [[Hin| [= -> ->]]|Hin]; [apply I, elem_of_app; by left | |
                                    apply I, elem_of_app; by right].
    eapply I9; [eassumption|]. unfold held.
    match goal with Hpc : pc _ = _ |- _ => rewrite Hpc end. by left.
  - rewrite !elem_of_app, list_elem_of_singleton.
    intros [Hin|[Hin| [= -> ->]]]; [apply I, elem_of_app; by left |
                                    apply I, elem_of_app; by right |].
    eapply I9; [eassumption|]. unfold held.
    match goal with Hpc : pc _ = _ |- _ => rewrite Hpc end. by left.
Qed.

(** Every step keeps the invariant. *)
Lemma trans_inv (a : actor) (s s' : state) : inv s -> trans a s s' -> inv s'.
Proof.
  intros [I1 I2 I3 I4 I5 I6 I7 I8 I9 I10] Ht. constructor.
  - by eapply trans_items.
  - by eapply trans_count.
  - by eapply trans_joined.
  - by eapply trans_started.
  - by eapply trans_spawned.
  - by eapply trans_ledger.
  - by eapply trans_crashed.
  - by eapply trans_dead.
  - by eapply trans_holder.
  - by eapply trans_owner.
Qed.

(** The invariant holds in every state the program can reach. *)
Lemma reachable_inv (s : state) : reachable s -> inv s.
Proof.
  revert s. apply reachable_ind.
  - apply inv_init.
  - intros a s s' _ Hs Ht. by eapply trans_inv.
Qed.

(** *** No item is handed out twice *)

Lemma NoDup_fmap_inj_on {A B} (f : A -> B) (l : list A) (x y : A) :
  NoDup (f <$> l) -> x ∈ l -> y ∈ l -> f x = f y -> x = y.
Proof.
  induction l as [|a l IH]; cbn; intros Hnd Hx Hy Hf; [by apply elem_of_nil in Hx|].
  apply NoDup_cons in Hnd as [Ha Hnd].
  apply elem_of_cons in Hx as [->|Hx]; apply elem_of_cons in Hy as [->|Hy]; auto.
  - exfalso. apply Ha. rewrite Hf. by apply list_elem_of_fmap_2.
  - exfalso. apply Ha. rewrite <- Hf. by apply list_elem_of_fmap_2.
Qed.

Lemma claims_NoDup (s : state) : reachable s -> NoDup (snd <$> claims s).
Proof.
  intros Hr. pose proof (inv_items _ _ _ _ _ _ (reachable_inv s Hr)) as Hperm.
  assert (NoDup ((snd <$> claims s) ++ queue s ++ todo s)) as Hnd.
  { rewrite Hperm. apply NoDup_seqZ. }
  by apply NoDup_app in Hnd as [? _].
Qed.

Lemma claims_in_range (s : state) (w : nat) (i : Z) :
  reachable s -> (w, i) ∈ claims s -> start <= i < stop.
Proof.
  intros Hr Hin. pose proof (inv_items _ _ _ _ _ _ (reachable_inv s Hr)) as Hperm.
  assert (i ∈ range start stop) as Hi.
  { rewrite <- Hperm. apply elem_of_app. left.
    by apply (list_elem_of_fmap_2 snd _ (w, i)). }
  unfold range in Hi. apply elem_of_seqZ in Hi. lia.
Qed.

(** C4: in every state of every interleaving, [q.get()] has delivered
    each item at most once: the items claimed so far are pairwise
    distinct, so no item went to two workers, nor twice to one. *)
Theorem no_item_claimed_twice (s : state) :
  reachable s ->
  NoDup (snd <$> claims s)
  /\ NoDup (claims s)
  /\ forall w1 w2 i, (w1, i) ∈ claims s -> (w2, i) ∈ claims s -> w1 = w2.
Proof.
  intros Hr. pose proof (claims_NoDup s Hr) as Hnd.
  split; [exact Hnd|]. split; [by eapply NoDup_fmap_1|].
  intros w1 w2 i H1 H2.
  pose proof (NoDup_fmap_inj_on snd (claims s) (w1, i) (w2, i) Hnd H1 H2 eq_refl).
  congruence.
Qed.

(** Nor is an item processed twice, and only its claimant processes it. *)
Lemma processed_NoDup (s : state) :
  reachable s ->
  NoDup (snd <$> processed s) /\ forall w i, (w, i) ∈ processed s -> (w, i) ∈ claims s.
Proof.
  intros Hr. pose proof (reachable_inv s Hr) as I. split.
  - pose proof (claims_NoDup s Hr) as Hnd.
    rewrite (inv_ledger _ _ _ _ _ _ I) in Hnd.
    apply NoDup_app in Hnd as (_ & _ & Hnd). by apply NoDup_app in Hnd as [? _].
  - intros w i Hin. apply (inv_owner _ _ _ _ _ _ I), elem_of_app. by left.
Qed.

(** *** What a return of [download_xkcd_threaded] means *)


(** *** Configurations the caller should not have passed *)

Lemma exec_cons (a : actor) (sched : list actor) (s s1 s2 : state) :
  step a s = Some s1 -> exec sched s1 = Some s2 -> exec (a :: sched) s = Some s2.
Proof. intros H1 H2. cbn. by rewrite H1. Qed.

(** The [del] loop runs to the end. *)
Lemma main_deletes (k : nat) (s : state) :
  main s = MDel k ->
  exists sched s', exec sched s = Some s' /\ returned s'
    /\ workers s' = workers s /\ trace s' = trace s.
Proof.
  revert s. induction k as [|k IH]; intros s Hm.
  - exists [Main], (with_main MReturned s). repeat split.
    cbn. unfold download_xkcd_threaded. by rewrite Hm.
  - destruct (IH (with_main (MDel k) s) eq_refl) as (sched & s' & He & Hr & Hw & Ht).
    exists (Main :: sched), s'. repeat split; try done.
    eapply exec_cons; [|exact He]. cbn. unfold download_xkcd_threaded. by rewrite Hm.
Qed.

(** With nothing left unfinished, the main thread starts its [k]
    remaining threads, passes [q.join()] and returns. *)
Lemma main_spawns_and_returns (k : nat) (s : state) :
  main s = MSpawn k -> unfinished s = O ->
  exists sched s', exec sched s = Some s' /\ returned s'
    /\ length (workers s') = (length (workers s) + k)%nat /\ trace s' = trace s.
Proof.
  revert s. induction k as [|k IH]; intros s Hm Hu.
  - destruct (main_deletes (length (workers s))
                (with_main (MDel (length (workers s))) (with_main MJoin s)) eq_refl)
      as (sched & s' & He & Hr & Hw & Ht).
    exists (Main :: Main :: sched), s'. repeat split; try done.
    + eapply exec_cons; [cbn; unfold download_xkcd_threaded; by rewrite Hm|].
      eapply exec_cons; [cbn; unfold download_xkcd_threaded; cbn; by rewrite Hu|]. exact He.
    + rewrite Hw. cbn. lia.
  - destruct (IH (with_main (MSpawn k) (spawn s)) eq_refl Hu)
      as (sched & s' & He & Hr & Hw & Ht).
    exists (Main :: sched), s'. repeat split; try done.
    + eapply exec_cons; [cbn; unfold download_xkcd_threaded; by rewrite Hm | exact He].
    + rewrite Hw. cbn. rewrite length_app. cbn. lia.
Qed.

(** An entry of the history is a claim, a completion or a crash. *)
Lemma trace_nil (s : state) :
  claims s = [] -> processed s = [] -> crashed s = [] -> trace s = [].
Proof.
  unfold claims, processed, crashed. destruct (trace s) as [|[w i|w i out|w i out] l];
    cbn; intros; congruence.
Qed.

(** Without workers nothing is ever claimed. *)
Lemma no_workers_no_trace (s : state) :
  reachable s -> workers s = [] -> trace s = [].
Proof.
  revert s. apply (reachable_ind (fun s => workers s = [] -> trace s = [])); [done|].
  intros a s s' _ IH Ht. destruct Ht; unfold_state; try assumption.
  { intros Hnil. by destruct (workers s). }
  all: intros Hnil; apply (f_equal length) in Hnil; rewrite length_insert in Hnil;
    match goal with Hw : workers _ !! _ = Some _ |- _ =>
      apply lookup_lt_Some in Hw; rewrite Hnil in Hw; cbn in Hw; lia end.
Qed.

(** Over an empty range nothing is ever claimed either. *)
Lemma empty_range_no_trace (s : state) :
  stop <= start -> reachable s -> trace s = [] /\ queue s = [] /\ todo s = [].
Proof.
  intros Hle Hr. pose proof (reachable_inv s Hr) as I.
  pose proof (inv_items _ _ _ _ _ _ I) as Hperm.
  assert (range start stop = []) as Hnil.
  { unfold range. apply length_zero_iff_nil. rewrite length_seqZ. lia. }
  rewrite Hnil in Hperm. apply Permutation_nil_r in Hperm.
  apply app_eq_nil in Hperm as [Hc Hperm]. apply app_eq_nil in Hperm as [Hq Ht].
  apply fmap_nil_inv in Hc.
  repeat split; try done. apply trace_nil; [done| |].
  - destruct (processed s) as [|[w i] l] eqn:E; [done|].
    assert ((w, i) ∈ claims s) as Hin.
    { apply (inv_owner _ _ _ _ _ _ I). rewrite E. by left. }
    rewrite Hc in Hin. by apply elem_of_nil in Hin.
  - destruct (crashed s) as [|[w i] l] eqn:E; [done|].
    assert ((w, i) ∈ claims s) as Hin.
    { apply (inv_owner _ _ _ _ _ _ I), elem_of_app. right. rewrite E. by left. }
    rewrite Hc in Hin. by apply elem_of_nil in Hin.
Qed.

Lemma no_threads_no_workers (s : state) :
  Z.to_nat nthreads = O -> reachable s -> workers s = [].
Proof.
  intros Hn Hr. pose proof (inv_spawned _ _ _ _ _ _ (reachable_inv s Hr)) as I.
  unfold spawned in I. destruct (main s); try done;
    apply length_zero_iff_nil; lia.
Qed.

(** C6 (amended): [download_xkcd_threaded] does not check its
    arguments, and a malformed configuration (no worker, or a negative
    item count) is run like any other.  No item is ever claimed or
    processed.  With a negative item count the queue stays empty, all
    the [nthreads] workers are started and the call returns normally.
    With no worker, no thread is started; the call returns if the range
    is empty and otherwise never returns, blocked in [q.join()]. *)
Theorem malformed_configuration_is_run :
  nthreads = 0 \/ stop - start < 0 ->
  (forall s, reachable s -> trace s = [])
  /\ (forall s, reachable s -> nthreads = 0 -> workers s = [])
  /\ (forall s, reachable s -> nthreads = 0 -> start < stop -> ~ returned s)
  /\ (stop <= start ->
      exists s, reachable s /\ returned s
        /\ length (workers s) = Z.to_nat nthreads).
Proof.
  intros Hbad. split; [|split; [|split]].
  - intros s Hr. destruct Hbad as [H0 | Hneg].
    + apply no_workers_no_trace; [done|]. apply no_threads_no_workers; [lia | done].
    + apply empty_range_no_trace; [lia | done].
  - intros s Hr H0. apply no_threads_no_workers; [lia | done].
  - intros s Hr H0 Hlt Hret.
    assert (workers s = []) as Hnow by (apply no_threads_no_workers; [lia | done]).
    pose proof (reachable_inv s Hr) as I.
    pose proof (inv_items _ _ _ _ _ _ I) as Hperm.
    pose proof (inv_count _ _ _ _ _ _ I) as Hcount.
    pose proof (inv_joined _ _ _ _ _ _ I) as Hj.
    unfold returned in Hret. unfold joined, todo, claims in *. rewrite Hret in *.
    rewrite (no_workers_no_trace s Hr Hnow) in Hperm.
    rewrite (Hj Logic.I) in Hcount.
    destruct (queue s); [|cbn in Hcount; lia].
    cbn in Hperm. apply Permutation_nil_l, (f_equal length) in Hperm.
    unfold range in Hperm. rewrite length_seqZ in Hperm. cbn in Hperm. lia.
  - intros Hle.
    assert (range start stop = []) as Hnil.
    { unfold range. apply length_zero_iff_nil. rewrite length_seqZ. lia. }
    destruct (main_spawns_and_returns (Z.to_nat nthreads)
                (with_main (MSpawn (Z.to_nat nthreads)) (init start stop))
                eq_refl eq_refl) as (sched & s' & He & Hr & Hw & _).
    exists s'. split; [|by split].
    exists (Main :: sched). eapply exec_cons; [|exact He].
    cbn. unfold download_xkcd_threaded. cbn. by rewrite Hnil.
Qed.

(** *** One item whose download raises *)

(** A step of worker [w] leaves the other workers as they were. *)
Lemma step_worker_frame (w w' : nat) (s s' : state) :
  step (Worker w) s = Some s' -> w' <> w -> workers s' !! w' = workers s !! w'.
Proof.
  intros Hs Hne. apply step_trans in Hs. inversion Hs; subst; unfold_state;
    by rewrite list_lookup_insert_ne.
Qed.

(** The end of work on an item, normal or not, touches nothing but the
    worker and the history. *)
Lemma work_step_frame (w : nat) (t : thread) (i : Z) (s s' : state) :
  workers s !! w = Some t -> pc t = WWork i -> step (Worker w) s = Some s' ->
  main s' = main s /\ queue s' = queue s /\ unfinished s' = unfinished s
  /\ exists p e, workers s' = <[w:=at_pc t p]> (workers s) /\ trace s' = trace s ++ [e].
Proof.
  intros Hw Hpc. cbn. unfold DownloadThread_run, download_worker. rewrite Hw, Hpc.
  destruct (download_item http disk i) as [out [[]|]]; intros [= <-]; cbn; eauto 10.
Qed.

(** An exception in the work on an item ends the worker, and is
    recorded. *)
Lemma work_step_raises (w : nat) (t : thread) (i : Z) (s s' : state) :
  workers s !! w = Some t -> pc t = WWork i -> step (Worker w) s = Some s' ->
  snd (download_item http disk i) = None ->
  workers s' !! w = Some (at_pc t WDead) /\ (w, i) ∈ crashed s'.
Proof.
  intros Hw Hpc. cbn. unfold DownloadThread_run, download_worker. rewrite Hw, Hpc.
  destruct (download_item http disk i) as [out [[]|]];
    [intros _ Hraise; cbn in Hraise; discriminate|].
  intros [= <-] _. split.
  - cbn. apply list_lookup_insert_eq. by eapply lookup_lt_Some.
  - rewrite crashed_log. apply elem_of_app. right. by left.
Qed.

(** Whoever could move before worker [w] ended its work on an item can
    still move afterwards. *)
Lemma work_step_keeps_enabled (w : nat) (t : thread) (i : Z) (s s' : state) (a : actor) :
  workers s !! w = Some t -> pc t = WWork i -> step (Worker w) s = Some s' ->
  a <> Worker w -> is_Some (step a s) -> is_Some (step a s').
Proof.
  intros Hw Hpc Hs Hne.
  destruct (work_step_frame w t i s s' Hw Hpc Hs) as (Hm & Hq & Hu & p & e & Hws & Htr).
  destruct a as [|w']; cbn.
  - unfold download_xkcd_threaded. rewrite Hm, Hu.
    destruct (main s) as [[|]|[|]| |[|]|]; try destruct (unfinished s); done.
  - assert (w' <> w) as Hne' by congruence.
    unfold DownloadThread_run, download_worker, q_get, q_task_done, q_empty.
    rewrite (step_worker_frame w w' s s' Hs Hne'), Hq, Hu.
    destruct (workers s !! w') as [t'|]; [|done].
    destruct (pc t'); try done.
    + by destruct (queue s).
    + by destruct (unfinished s).
    + by destruct (download_item http disk i0) as [out [[]|]].
Qed.

Section OneFailure.
Variable K : Z.
Hypothesis only_K_raises :
  forall i, start <= i < stop -> i <> K -> snd (download_item http disk i) = Some tt.

Lemma crashed_only_K (s : state) (w : nat) (i : Z) :
  reachable s -> (w, i) ∈ crashed s -> i = K.
Proof.
  intros Hr Hin. destruct (decide (i = K)) as [|Hne]; [done|].
  pose proof (reachable_inv s Hr) as I.
  pose proof (inv_crashed _ _ _ _ _ _ I w i Hin) as Hnone.
  assert (start <= i < stop) as Hi.
  { apply (claims_in_range s w i Hr), (inv_owner _ _ _ _ _ _ I), elem_of_app. by right. }
  rewrite (only_K_raises i Hi Hne) in Hnone. discriminate.
Qed.

Lemma at_most_one_dead (s : state) :
  reachable s -> (sum_list (dead <$> workers s) <= 1)%nat.
Proof.
  intros Hr. pose proof (reachable_inv s Hr) as I.
  rewrite (inv_dead _ _ _ _ _ _ I), <- (length_fmap snd).
  apply (NoDup_all_equal _ K).
  - pose proof (claims_NoDup s Hr) as Hnd. rewrite (inv_ledger _ _ _ _ _ _ I) in Hnd.
    apply NoDup_app in Hnd as (_ & _ & Hnd). by apply NoDup_app in Hnd as (_ & _ & ?).
  - intros i [[w i'] [-> Hin]]%list_elem_of_fmap. by eapply crashed_only_K.
Qed.

#[local] Abbreviation enough_workers := (enough_workers nthreads start stop K).

Lemma some_worker_lives (s : state) :
  enough_workers -> reachable s -> all_started s ->
  (sum_list (dead <$> workers s) < length (workers s))%nat.
Proof.
  intros Hn Hr Hall. pose proof (reachable_inv s Hr) as I.
  pose proof (inv_spawned _ _ _ _ _ _ I) as Hlen. unfold spawned, all_started in *.
  assert (length (workers s) = Z.to_nat nthreads) as -> by (by destruct (main s)).
  destruct Hn as [Hn|[Hn Hout]]; [pose proof (at_most_one_dead s Hr); lia|].
  rewrite (inv_dead _ _ _ _ _ _ I).
  destruct (crashed s) as [|[w i] l] eqn:E; [cbn; lia|].
  assert ((w, i) ∈ crashed s) as Hin by (rewrite E; by left).
  exfalso. apply Hout. rewrite <- (crashed_only_K s w i Hr Hin).
  apply (claims_in_range s w i Hr), (inv_owner _ _ _ _ _ _ I), elem_of_app. by right.
Qed.

#[local] Abbreviation work_left := (work_left nthreads).

Lemma elem_le_sum (f : thread -> nat) (l : list thread) (w : nat) (t : thread) :
  l !! w = Some t -> (f t <= sum_list (f <$> l))%nat.
Proof.
  revert w. induction l as [|a l IH]; intros [|w] H; simplify_eq/=; [lia|].
  specialize (IH w H). lia.
Qed.

Lemma no_effort_nothing_held (l : list thread) :
  sum_list (effort <$> l) = O -> concat (held <$> l) = [].
Proof.
  induction l as [|a l IH]; cbn; [done|]. intros H.
  rewrite IH by lia. unfold held, effort in *. destruct (pc a); cbn in *; done || lia.
Qed.

Ltac measure :=
  unfold work_left, Pool.work_left; unfold_state;
  repeat match goal with H : main _ = _ |- _ => rewrite H end;
  repeat match goal with H : queue _ = _ |- _ => rewrite H end;
  rewrite ?length_app, ?sum_snoc; cbn [main_left length];
  change (effort (DownloadThread_start DownloadThread_init)) with O.

(** A worker that holds an item can take its next step, and the step
    brings the item closer to its end. *)
Lemma holder_progress (s : state) (w : nat) (t : thread) :
  reachable s -> workers s !! w = Some t -> (0 < effort t)%nat ->
  exists s', step (Worker w) s = Some s' /\ (work_left s' < work_left s)%nat.
Proof.
  intros Hr Hw He. pose proof (reachable_inv s Hr) as I.
  unfold effort in He. destruct (pc t) as [| | | |j|j| |] eqn:Hpc; cbn in He; try lia.
  - pose proof (elem_le_sum owing _ _ _ Hw) as Hle. unfold owing in Hle at 1.
    rewrite Hpc in Hle. cbn in Hle.
    destruct (unfinished s) as [|n] eqn:Hu;
      [pose proof (inv_count _ _ _ _ _ _ I); lia|].
    eexists. split; [apply trans_step; by eapply t_task_done|].
    measure. at_worker effort_at_pc. lia.
  - destruct (download_item http disk j) as [out [[]|]] eqn:Hd.
    + eexists. split; [apply trans_step; by eapply t_work|].
      measure. at_worker effort_at_pc. lia.
    + eexists. split; [apply trans_step; by eapply t_crash|].
      measure. at_worker effort_at_pc. lia.
Qed.

(** An idle worker that finds the queue non-empty claims its head. *)
Lemma get_progress (s : state) (w : nat) (t : thread) (j : Z) (q : list Z) :
  workers s !! w = Some t -> pc t = WGet -> queue s = j :: q ->
  exists s', step (Worker w) s = Some s' /\ (work_left s' < work_left s)%nat.
Proof.
  intros Hw Hpc Hq. eexists. split; [apply trans_step; by eapply t_get|].
  measure. at_worker effort_at_pc. lia.
Qed.

Lemma loop_progress (s : state) (w : nat) (t : thread) (j : Z) (q : list Z) :
  workers s !! w = Some t -> pc t = WLoop -> queue s = j :: q ->
  exists s', exec [Worker w; Worker w] s = Some s'
    /\ (work_left s' < work_left s)%nat.
Proof.
  intros Hw Hpc Hq.
  pose (s1 := with_worker w (at_pc t WGet) s).
  assert (step (Worker w) s = Some s1) as H1.
  { cbn. unfold DownloadThread_run, download_worker, q_empty. by rewrite Hw, Hpc, Hq. }
  destruct (get_progress s1 w (at_pc t WGet) j q) as (s2 & H2 & Hlt); try done.
  { cbn. apply list_lookup_insert_eq. by eapply lookup_lt_Some. }
  exists s2. split; [by repeat (eapply exec_cons; [eassumption|])|].
  assert (work_left s1 = work_left s) as <-; [|done].
  subst s1. measure.
  pose proof (effort_at_pc _ _ _ WGet Hw) as E. rewrite Hpc in E. cbn in E. lia.
Qed.

Lemma run_progress (s : state) (w : nat) (t : thread) (j : Z) (q : list Z) :
  workers s !! w = Some t -> pc t = WRun -> running t = true -> queue s = j :: q ->
  exists s', exec [Worker w; Worker w; Worker w] s = Some s'
    /\ (work_left s' < work_left s)%nat.
Proof.
  intros Hw Hpc Hrun Hq.
  pose (s1 := with_worker w (at_pc t WLoop) s).
  assert (step (Worker w) s = Some s1) as H1.
  { cbn. unfold DownloadThread_run, download_worker. by rewrite Hw, Hpc, Hrun. }
  destruct (loop_progress s1 w (at_pc t WLoop) j q) as (s2 & H2 & Hlt); try done.
  { cbn. apply list_lookup_insert_eq. by eapply lookup_lt_Some. }
  exists s2. split; [change (exec (Worker w :: [Worker w; Worker w]) s = Some s2);
                     by eapply exec_cons|].
  assert (work_left s1 = work_left s) as <-; [|done].
  subst s1. measure.
  pose proof (effort_at_pc _ _ _ WLoop Hw) as E. rewrite Hpc in E. cbn in E. lia.
Qed.

(** An unprocessed item other than [K] that no worker holds is still in
    the queue once the main thread has filled it. *)
Lemma unprocessed_is_queued (s : state) (i : Z) :
  reachable s -> todo s = [] -> sum_list (effort <$> workers s) = O ->
  start <= i < stop -> i <> K -> i ∉ (snd <$> processed s) -> i ∈ queue s.
Proof.
  intros Hr Htodo Hidle Hi HiK Hnot. pose proof (reachable_inv s Hr) as I.
  pose proof (inv_items _ _ _ _ _ _ I) as Hitems.
  pose proof (inv_ledger _ _ _ _ _ _ I) as Hledger.
  rewrite (no_effort_nothing_held _ Hidle) in Hledger. cbn in Hledger.
  assert (i ∈ (snd <$> claims s) ++ queue s ++ todo s) as Hin.
  { rewrite Hitems. unfold range. apply elem_of_seqZ. lia. }
  rewrite Htodo, app_nil_r in Hin. apply elem_of_app in Hin as [Hin|Hin]; [|done].
  rewrite Hledger in Hin. apply elem_of_app in Hin as [Hin|Hin]; [done|].
  apply list_elem_of_fmap in Hin as [[w i'] [-> Hin]].
  by apply crashed_only_K in Hin.
Qed.

(** As long as an item other than [K] is unprocessed and there are
    workers enough, some thread can move the batch forward. *)
Lemma progress (s : state) (i : Z) :
  enough_workers -> reachable s ->
  start <= i < stop -> i <> K -> i ∉ (snd <$> processed s) ->
  exists sched s', exec sched s = Some s' /\ (work_left s' < work_left s)%nat.
Proof.
  intros Hn Hr Hi HiK Hnot. pose proof (reachable_inv s Hr) as I.
  destruct (decide (0 < sum_list (effort <$> workers s))%nat) as [Hbusy|Hidle].
  { apply sum_positive in Hbusy as (w & t & Hw & Ht).
    destruct (holder_progress s w t Hr Hw Ht) as (s' & Hs & Hlt).
    exists [Worker w], s'. split; [by eapply exec_cons | done]. }
  assert (sum_list (effort <$> workers s) = O) as Hzero by lia. clear Hidle.
  destruct (main s) as [[|j rest]|[|k]| | |] eqn:Hm.
  1-4: eexists [Main], _; split;
    [cbn; unfold download_xkcd_threaded; rewrite Hm; reflexivity|]; measure; lia.
  all: assert (todo s = []) as Htodo by (unfold todo; by rewrite Hm).
  all: pose proof (unprocessed_is_queued s i Hr Htodo Hzero Hi HiK Hnot) as Hq.
  all: destruct (queue s) as [|j q] eqn:Hqueue; [by apply elem_of_nil in Hq|].
  all: destruct (sum_below_length dead (workers s)) as (w & t & Hw & Hlive);
    [apply some_worker_lives; try done; unfold all_started; by rewrite Hm|].
  all: pose proof (sum_zero effort _ t Hzero (list_elem_of_lookup_2 _ _ _ Hw)) as Hfree.
  all: pose proof (Forall_lookup_1 _ _ _ _ (inv_started _ _ _ _ _ _ I) Hw)
    as (Hrun & Hexit & Hnew).
  all: unfold dead, effort in *.
  all: destruct (pc t) eqn:Hpc; cbn in Hlive, Hfree; try done.
  all: first
    [ destruct (run_progress s w t j q Hw Hpc Hrun Hqueue) as (s' & He & Hlt)
    | destruct (loop_progress s w t j q Hw Hpc Hqueue) as (s' & He & Hlt)
    | destruct (get_progress s w t j q Hw Hpc Hqueue) as (s' & He & Hlt);
      apply (exec_cons _ [] _ _ s') in He; [|done] ];
    eauto.
Qed.

(** From every state of an execution the batch can be driven to the
    point where every item other than [K] is processed. *)
Lemma completion (n : nat) (s : state) :
  enough_workers -> reachable s -> (work_left s <= n)%nat ->
  exists sched s', exec sched s = Some s'
    /\ Forall (fun i => i = K \/ i ∈ (snd <$> processed s')) (range start stop).
Proof.
  intros Hn. revert s. induction n as [|n IH]; intros s Hr Hle.
  all: destruct (decide (Forall (fun i => i = K \/ i ∈ (snd <$> processed s))
                          (range start stop))) as [Hall|Hnot];
    [by exists [], s|].
  all: apply not_Forall_Exists in Hnot; [|solve_decision].
  all: apply Exists_exists in Hnot as (i & Hi & Hmiss).
  all: assert (start <= i < stop) as Hi'
    by (unfold range in Hi; apply elem_of_seqZ in Hi; lia).
  all: assert (i <> K) as HiK by (intros ->; apply Hmiss; by left).
  all: assert (i ∉ (snd <$> processed s)) as Hnp by (intros ?; apply Hmiss; by right).
  all: destruct (progress s i Hn Hr Hi' HiK Hnp) as (sched & s1 & He & Hlt).
  - lia.
  - destruct (IH s1) as (sched' & s2 & He' & Hall);
      [by eapply reachable_exec | lia |].
    exists (sched ++ sched'), s2. split; [|done].
    rewrite exec_app, He. exact He'.
Qed.

End OneFailure.

(** When no download raises, one worker is enough: from every state of
    the execution the batch can be driven to the point where every item
    is processed (and, by [processed_NoDup], processed once). *)
Lemma batch_can_complete (s : state) :
  1 <= nthreads ->
  (forall i, start <= i < stop -> snd (download_item http disk i) = Some tt) ->
  reachable s ->
  exists sched s',
    exec sched s = Some s'
    /\ forall i, start <= i < stop -> i ∈ (snd <$> processed s').
Proof.
  intros Hn Hok Hr.
  destruct (completion stop (fun i Hi _ => Hok i Hi) (work_left nthreads s) s)
    as (sched & s' & He & Hall); [right; split; [done | lia] | done | lia |].
  exists sched, s'. split; [done|]. intros i Hi.
  rewrite Forall_forall in Hall. destruct (Hall i) as [|Hin]; [|lia|done].
  unfold range. apply elem_of_seqZ. lia.
Qed.

(** *** A single worker *)

(** Once the only worker is dead, nothing moves but the main thread, and
    the main thread changes nothing but its own place: the workers, the
    queue and the history stay as they are, and the call does not return
    while an item is queued. *)
Lemma lone_dead_worker (s s' : state) (w : nat) (t : thread)
    (sched : list actor) :
  nthreads = 1 -> reachable s ->
  workers s !! w = Some t -> pc t = WDead ->
  exec sched s = Some s' ->
  workers s' = workers s /\ queue s' = queue s /\ trace s' = trace s
  /\ (queue s <> [] -> ~ returned s').
Proof.
  intros Hone Hr Hw Hpc.
  pose proof (reachable_inv s Hr) as I.
  pose proof (inv_spawned _ _ _ _ _ _ I) as Hsp.
  pose proof (inv_count _ _ _ _ _ _ I) as Hcount.
  pose proof (inv_joined _ _ _ _ _ _ I) as Hjoin.
  set (Q := fun s2 : state =>
    workers s2 = workers s /\ queue s2 = queue s /\ trace s2 = trace s
    /\ unfinished s2 = unfinished s
    /\ match main s2 with
       | MFill _ | MSpawn (S _) => False
       | MSpawn O | MJoin => True
       | MDel _ | MReturned => queue s = []
       end).
  assert (workers s = [t] /\ w = 0%nat) as [Hws ->].
  { unfold spawned in Hsp. rewrite Hone in Hsp.
    destruct (workers s) as [|t0 [|t1 l]] eqn:E.
    - by destruct w.
    - destruct w as [|[|w]]; by simplify_eq/=.
    - destruct (main s); cbn in Hsp; try done; lia. }
  assert (Q s) as HQ.
  { unfold Q. repeat (split; [done|]). unfold spawned in Hsp.
    rewrite Hone, Hws in Hsp. unfold joined in Hjoin.
    destruct (main s) as [l|[|k]| |k|] eqn:Hm; try done; try (cbn in Hsp; lia).
    all: specialize (Hjoin Logic.I); rewrite Hjoin in Hcount;
      destruct (queue s); [done|cbn in Hcount; lia]. }
  assert (forall a s2 s3, Q s2 -> step a s2 = Some s3 -> Q s3) as Hstep.
  { intros a s2 s3 (Hw2 & Hq2 & Ht2 & Hu2 & Hm2). destruct a as [|w']; cbn.
    - unfold download_xkcd_threaded.
      destruct (main s2) as [l|[|k]| |[|k]|] eqn:Hm; try done.
      + intros [= <-]. unfold Q. by cbn.
      + destruct (unfinished s2) eqn:Hu; [|done]. intros [= <-].
        unfold Q. cbn. repeat (split; [done|]).
        rewrite <- Hu2 in Hcount. split; [by rewrite Hu|].
        destruct (queue s); [done|cbn in Hcount; lia].
      + intros [= <-]. unfold Q. by cbn.
      + intros [= <-]. unfold Q. by cbn.
    - unfold DownloadThread_run. rewrite Hw2, Hws.
      destruct w' as [|w']; cbn; [by rewrite Hpc|done]. }
  assert (forall sched s2 s3, Q s2 -> exec sched s2 = Some s3 -> Q s3) as Hexec.
  { clear sched. induction sched as [|a sched IH]; intros s2 s3 HQ2; cbn.
    - by intros [= <-].
    - destruct (step a s2) as [s4|] eqn:Hs; [|done].
      apply IH. by eapply Hstep. }
  intros He. destruct (Hexec sched s s' HQ He) as (? & ? & ? & _ & Hm).
  repeat (split; [done|]). intros Hne Hret. unfold returned in Hret.
  rewrite Hret in Hm. done.
Qed.

(** C3 (amended): when [process] raises while worker [w] handles item
    [K], the exception ends that worker and nothing else: the main
    thread, the queue, its count of unfinished tasks and every other
    worker are as they were, and whoever could move before can still
    move; this holds whatever the number of workers and whatever the
    other items do.  If at least two workers were asked for and [K] is
    the only item on which [process] raises, the batch is not lost:
    the remaining threads can go on until every item other than [K] is
    processed.  With a single worker nothing is processed any more: the
    items still in the queue stay there for ever, unprocessed, and while
    there is one the call never returns. *)
Theorem failure_confined_to_its_worker
    (s : state) (w : nat) (t : thread) (K : Z) :
  reachable s -> workers s !! w = Some t -> pc t = WWork K ->
  snd (download_item http disk K) = None ->
  exists s',
    step (Worker w) s = Some s'
    /\ workers s' !! w = Some (at_pc t WDead) /\ (w, K) ∈ crashed s'
    /\ main s' = main s /\ queue s' = queue s /\ unfinished s' = unfinished s
    /\ (forall w', w' <> w -> workers s' !! w' = workers s !! w')
    /\ (forall a, a <> Worker w -> is_Some (step a s) -> is_Some (step a s'))
    /\ (2 <= nthreads ->
        (forall i, start <= i < stop -> i <> K ->
           snd (download_item http disk i) = Some tt) ->
        exists sched s'',
          exec sched s' = Some s''
          /\ forall i, start <= i < stop -> i <> K ->
               i ∈ (snd <$> processed s''))
    /\ (nthreads = 1 ->
        forall sched s'', exec sched s' = Some s'' ->
          processed s'' = processed s' /\ queue s'' = queue s'
          /\ (forall i, i ∈ queue s' -> i ∉ (snd <$> processed s''))
          /\ (queue s' <> [] -> ~ returned s'')).
Proof.
  intros Hr Hw Hpc Hraise.
  assert (exists s', step (Worker w) s = Some s') as [s' Hs].
  { cbn. unfold DownloadThread_run, download_worker. rewrite Hw, Hpc.
    destruct (download_item http disk K) as [out [[]|]]; by eexists. }
  assert (reachable s') as Hr'.
  { apply (reachable_exec [Worker w] s s' Hr). cbn [Pool.exec].
    by rewrite Hs. }
  destruct (work_step_frame w t K s s' Hw Hpc Hs) as (Hm & Hq & Hu & _).
  destruct (work_step_raises w t K s s' Hw Hpc Hs Hraise) as [Hdead Hcr].
  exists s'. split; [done|]. split; [done|]. split; [done|].
  split; [done|]. split; [done|]. split; [done|].
  split; [intros w' Hne; by eapply step_worker_frame|].
  split; [intros a Hne; by eapply work_step_keeps_enabled|].
  split.
  - intros Hn Honly.
    destruct (completion K Honly (work_left nthreads s') s' (or_introl Hn) Hr')
      as (sched & s'' & He & Hall); [lia|].
    exists sched, s''. split; [done|]. intros i Hi HiK.
    rewrite Forall_forall in Hall. destruct (Hall i) as [|Hin]; [|done|done].
    unfold range. apply elem_of_seqZ. lia.
  - intros Hone sched s'' He.
    destruct (lone_dead_worker s' s'' w (at_pc t WDead) sched Hone Hr' Hdead
                eq_refl He) as (_ & Hq' & Ht' & Hret).
    assert (processed s'' = processed s') as Hp
      by (unfold processed; by rewrite Ht').
    split; [done|]. split; [done|]. split; [|done].
    intros i Hi Hin. rewrite Hp in Hin.
    pose proof (reachable_inv s' Hr') as I.
    pose proof (inv_items _ _ _ _ _ _ I) as Hperm.
    assert (NoDup ((snd <$> claims s') ++ queue s' ++ todo s')) as Hnd.
    { rewrite Hperm. unfold range. apply NoDup_seqZ. }
    apply NoDup_app in Hnd as (_ & Hdisj & _).
    apply list_elem_of_fmap in Hin as ([w0 i0] & -> & Hin).
    apply (Hdisj i0).
    + apply list_elem_of_fmap. exists (w0, i0). split; [done|].
      apply (inv_owner _ _ _ _ _ _ I), elem_of_app. by left.
    + apply elem_of_app. by left.
Qed.

(** *** Pages that are not found *)

(** C9 (the code at work): a worker whose page for item [i] contains
    "Not Found" and no comic image reports nothing, whether [i] is 404
    or not.  The worker searches what [rd.read()] returns, and after a
    request that has preloaded the body that is the empty string: the
    message 'Failed to download comic' is never printed.  The worker is
    back at the head of its loop with the request for the page as its
    only trace, whereas the loop of [download_xkcd], which searches
    [rd.data], notices the page and clears its flag (unless [i] is
    404). *)
Theorem not_found_never_reported
    (s : state) (w : nat) (t : thread) (i : Z) (data : string) :
  workers s !! w = Some t -> pc t = WWork i ->
  http (page_url i) = Some data ->
  search_comic data = None -> search_literal "Not Found" data = true ->
  download_item http disk i = ([Get (page_url i)], Some tt)
  /\ step (Worker w) s
     = Some (log (Done w i [Get (page_url i)])
               (with_worker w (at_pc t WLoop) s))
  /\ List.filter is_print (fst (download_item http disk i)) = []
  /\ forall content,
       xkcd_item http disk i content
       = ([Get (page_url i)], Some (if i =? 404 then content else false)).
Proof.
  intros Hw Hpc Hpage Hcomic Hnf.
  assert (download_item http disk i = ([Get (page_url i)], Some tt)) as Hd.
  { rewrite download_item_page_only. by rewrite Hpage. }
  split; [exact Hd|]. split; [|split].
  - cbn. unfold DownloadThread_run, download_worker. by rewrite Hw, Hpc, Hd.
  - by rewrite Hd.
  - intros content. unfold xkcd_item, request, bind. rewrite Hpage.
    cbn [fmap option_fmap option_map rd_data body]. rewrite Hcomic, Hnf.
    by destruct (i =? 404).
Qed.

End Steps.

(** *** The theorems at work on concrete runs *)

Lemma reach_two_claims : reachable web_not_found disk_any 2 0 2 state_two_claims.
Proof. exists sched_two_claims. reflexivity. Qed.

Lemma reach_early_return : reachable web_not_found disk_any 1 0 1 state_early_return.
Proof. exists sched_early_return. reflexivity. Qed.


Lemma reach_empty_batch : reachable web_not_found disk_any 1 1 0 state_empty_batch.
Proof. exists sched_empty_batch. reflexivity. Qed.

Lemma reach_no_worker : reachable web_not_found disk_any 0 0 1 state_no_worker.
Proof. exists sched_no_worker. reflexivity. Qed.

Lemma reach_crash : reachable web_raise0 disk_any 1 0 2 state_crash.
Proof. exists sched_crash. reflexivity. Qed.

Lemma no_item_claimed_twice_witness :
  NoDup (snd <$> claims state_two_claims)
  /\ NoDup (claims state_two_claims)
  /\ forall w1 w2 i,
       (w1, i) ∈ claims state_two_claims -> (w2, i) ∈ claims state_two_claims ->
       w1 = w2.
Proof.
  apply (no_item_claimed_twice web_not_found disk_any 2 0 2 state_two_claims).
  exists sched_two_claims. reflexivity.
Defined.

(** C1 (the code at work): [download_xkcd_threaded(1, 0, 1)] can return
    when its one item has been claimed and marked done but not yet
    processed: at the return nothing is processed, although one item was
    enqueued. *)
Theorem returns_before_processing :
  reachable web_not_found disk_any 1 0 1 state_early_return
  /\ returned state_early_return
  /\ claims state_early_return = [(0%nat, 0)]
  /\ processed state_early_return = []
  /\ length (processed state_early_return) <> Z.to_nat (1 - 0).
Proof.
  split; [exact reach_early_return|]. repeat split. cbn. lia.
Qed.



(** C6, as stated, fails: with a negative item count,
    [download_xkcd_threaded(1, 1, 0)] starts its worker and returns; with
    no worker, [download_xkcd_threaded(0, 0, 1)] does not fail either: it
    comes to a halt in [q.join()]. *)
Lemma malformed_configuration_not_rejected :
  (reachable web_not_found disk_any 1 1 0 state_empty_batch
   /\ returned state_empty_batch /\ length (workers state_empty_batch) = 1%nat)
  /\ (reachable web_not_found disk_any 0 0 1 state_no_worker
      /\ main state_no_worker = MJoin /\ stuck web_not_found disk_any 0 state_no_worker).
Proof.
  split; (split; [exact reach_empty_batch || exact reach_no_worker|]);
    repeat split.
  intros [|w]; [reflexivity|]. by destruct w.
Qed.

Lemma malformed_configuration_is_run_witness :
  (forall s, reachable web_not_found disk_any 1 1 0 s -> trace s = [])
  /\ (forall s, reachable web_not_found disk_any 1 1 0 s -> 1 = 0 -> workers s = [])
  /\ (forall s, reachable web_not_found disk_any 1 1 0 s -> 1 = 0 -> 1 < 0 -> ~ returned s)
  /\ (0 <= 1 ->
      exists s, reachable web_not_found disk_any 1 1 0 s /\ returned s
        /\ length (workers s) = Z.to_nat 1).
Proof. apply (malformed_configuration_is_run web_not_found disk_any 1 1 0). right. lia. Defined.

(** Away from comic 0, [web_raise0] answers "404 Not Found". *)
Lemma web_raise0_elsewhere (i : Z) :
  i <> 0 -> web_raise0 (page_url i) = Some "404 Not Found".
Proof.
  intros Hne. unfold web_raise0.
  destruct (String.eqb_spec (page_url i) "http://www.xkcd.com/0/") as [E|]; [|done].
  exfalso. apply Hne. unfold page_url, str in E.
  change "http://www.xkcd.com/0/" with ("http://www.xkcd.com/" +:+ "0/") in E.
  apply (inj (String.app _)) in E.
  apply (inj pretty). change (pretty 0) with "0".
  destruct (pretty i) as [|c [|c' r]]; cbv in E; simplify_eq; try done.
  by destruct r.
Qed.

Lemma web_raise0_only_0 (i : Z) :
  0 <= i < 2 -> i <> 0 -> snd (download_item web_raise0 disk_any i) = Some tt.
Proof.
  intros _ Hne. rewrite download_item_page_only.
  by rewrite (web_raise0_elsewhere i Hne).
Qed.

(** C3, as stated, fails: with one worker, items 0 and 1 and a request
    for comic 0 that raises, the worker dies on item 0; item 1 stays in
    the queue, unprocessed, the main thread waits in [q.join()], and no
    thread can ever move again. *)
Lemma single_worker_crash_stalls_batch :
  reachable web_raise0 disk_any 1 0 2 state_crash
  /\ crashed state_crash = [(0%nat, 0)]
  /\ queue state_crash = [1]
  /\ (1 ∉ (snd <$> processed state_crash))
  /\ ~ returned state_crash
  /\ stuck web_raise0 disk_any 1 state_crash.
Proof.
  split; [exact reach_crash|]. repeat split; try done.
  - intros H. by apply elem_of_nil in H.
  - intros [|w]; [reflexivity|]. by destruct w.
Qed.

Lemma failure_confined_to_its_worker_witness :
  exists s',
    step web_raise0 disk_any 2 (Worker 0) state_before_crash = Some s'
    /\ workers s' !! 0%nat = Some (at_pc (thread_at (WWork 0)) WDead)
    /\ (0%nat, 0) ∈ crashed s'
    /\ main s' = main state_before_crash
    /\ queue s' = queue state_before_crash
    /\ unfinished s' = unfinished state_before_crash
    /\ (forall w', w' <> 0%nat ->
          workers s' !! w' = workers state_before_crash !! w')
    /\ (forall a, a <> Worker 0 ->
          is_Some (step web_raise0 disk_any 2 a state_before_crash) ->
          is_Some (step web_raise0 disk_any 2 a s'))
    /\ (2 <= 2 ->
        (forall i, 0 <= i < 2 -> i <> 0 ->
           snd (download_item web_raise0 disk_any i) = Some tt) ->
        exists sched s'',
          exec web_raise0 disk_any 2 sched s' = Some s''
          /\ forall i, 0 <= i < 2 -> i <> 0 -> i ∈ (snd <$> processed s''))
    /\ (2 = 1 ->
        forall sched s'', exec web_raise0 disk_any 2 sched s' = Some s'' ->
          processed s'' = processed s' /\ queue s'' = queue s'
          /\ (forall i, i ∈ queue s' -> i ∉ (snd <$> processed s''))
          /\ (queue s' <> [] -> ~ returned s'')).
Proof.
  apply (failure_confined_to_its_worker web_raise0 disk_any 2 0 2
           state_before_crash 0 (thread_at (WWork 0)) 0).
  - exists sched_before_crash. reflexivity.
  - reflexivity.
  - reflexivity.
  - reflexivity.
Defined.

Lemma not_found_never_reported_witness :
  download_item web_not_found disk_any 0 = ([Get (page_url 0)], Some tt)
  /\ step web_not_found disk_any 1 (Worker 0) state_early_return
     = Some (log (Done 0 0 [Get (page_url 0)])
               (with_worker 0 (at_pc (thread_at (WWork 0)) WLoop)
                  state_early_return))
  /\ List.filter is_print (fst (download_item web_not_found disk_any 0)) = []
  /\ forall content,
       xkcd_item web_not_found disk_any 0 content
       = ([Get (page_url 0)], Some (if 0 =? 404 then content else false)).
Proof.
  apply (not_found_never_reported web_not_found disk_any 1 state_early_return
           0 (thread_at (WWork 0)) 0 "404 Not Found"); reflexivity.
Defined.

(** The run behind C9: the state the worker of [state_early_return]
    leaves carries the request for the page of item 0, which says
    "Not Found", and no message. *)
Example worker_reports_nothing :
  reachable web_not_found disk_any 1 0 1 state_worked
  /\ web_not_found (page_url 0) = Some "404 Not Found"
  /\ trace state_worked = [Claim 0 0; Done 0 0 [Get "http://www.xkcd.com/0/"]].
Proof.
  split; [|done]. exists (sched_early_return ++ [W0]). reflexivity.
Qed.

End PoolFacts.

(** ** More on the sequential downloader *)

Module SequentialMore.
Import Scrape Sequential Pool Observe Inputs SequentialFacts.

#[local] Arguments download_item : simpl never.

Section MoreLoop.
Variable http : web.
Variable disk : files.

Lemma xkcd_loop_app (l1 l2 : list Z) (content : bool) :
  xkcd_loop http disk (l1 ++ l2) content
  = bind (xkcd_loop http disk l1 content) (xkcd_loop http disk l2).
Proof.
  revert content. induction l1 as [|i l1 IH]; intros content;
    cbn [app xkcd_loop].
  - unfold bind, ret. by destruct (xkcd_loop http disk l2 content).
  - unfold bind in *.
    destruct (xkcd_item http disk i content) as [e1 [c1|]]; [|done].
    rewrite IH. destruct (xkcd_loop http disk l1 c1) as [e2 [c2|]]; [|done].
    destruct (xkcd_loop http disk l2 c2). by rewrite app_assoc.
Qed.

(** X8: the loop body of [download_xkcd] and the worker's treatment of
    an item begin alike, with the request for the page, and the worker
    stops there: it never asks for an image, writes or prints, and it
    raises exactly when that request raises.  The two do the same
    exactly when the loop finds no comic image on the page, or no
    page. *)
Theorem loop_body_and_worker_differ (i : Z) (content : bool) :
  download_item http disk i
  = ([Get (page_url i)], (fun _ => tt) <$> http (page_url i))
  /\ (exists more, fst (xkcd_item http disk i content)
                   = Get (page_url i) :: more)
  /\ (fst (xkcd_item http disk i content) = fst (download_item http disk i)
      <-> match http (page_url i) with
          | Some data => search_comic data = None
          | None => True
          end).
Proof.
  split; [apply PoolFacts.download_item_page_only|].
  rewrite PoolFacts.download_item_page_only. cbn [fst].
  unfold xkcd_item, request, bind, write_file.
  destruct (http (page_url i)) as [data|];
    cbn [fmap option_fmap option_map rd_data body]; [|by split; [eexists|]].
  destruct (search_comic data) as [m|].
  - destruct (http (img_url m)) as [r|]; cbn [fmap option_fmap option_map];
      [destruct (disk _)|]; cbn; (split; [by eexists|]); by split.
  - destruct (search_literal "Not Found" data && negb (i =? 404)); cbn;
      (split; [by eexists|]); by split.
Qed.

(** One iteration whose requests are answered and whose file can be
    opened: what it leaves behind. *)
Lemma xkcd_item_answered (i : Z) (content : bool) :
  all_answer http [i] -> all_open http disk [i] ->
  exists evs, xkcd_item http disk i content
              = (evs, Some (content && negb (not_found http i)))
    /\ gets evs = S (writes evs) /\ (writes evs <= 1)%nat
    /\ List.filter is_print evs = [].
Proof.
  intros Hans Hopen. destruct (Hans i) as (data & Hpage & Himg); [by left|].
  unfold xkcd_item, not_found, request, bind. rewrite Hpage.
  cbn [fmap option_fmap option_map rd_data body].
  destruct (search_comic data) as [m|] eqn:Hm.
  - destruct (Himg m eq_refl) as [r Hr]. rewrite Hr.
    cbn [fmap option_fmap option_map]. unfold write_file.
    rewrite (Hopen i data m) by (done || by left). cbn.
    eexists. split; [by rewrite andb_true_r|]. cbn. repeat split; lia.
  - destruct (search_literal "Not Found" data && negb (i =? 404)); cbn;
      (eexists; split; [by rewrite ?andb_true_r, ?andb_false_r|]);
      cbn; repeat split; lia.
Qed.

Lemma writes_app (l1 l2 : list event) : writes (l1 ++ l2) = (writes l1 + writes l2)%nat.
Proof. unfold writes. by rewrite List.filter_app, length_app. Qed.

Lemma xkcd_loop_answered (items : list Z) (content : bool) :
  all_answer http items -> all_open http disk items ->
  exists evs,
    xkcd_loop http disk items content
    = (evs, Some (content && forallb (fun i => negb (not_found http i)) items))
    /\ gets evs = (length items + writes evs)%nat
    /\ (writes evs <= length items)%nat
    /\ List.filter is_print evs = [].
Proof.
  revert content. induction items as [|i rest IH]; intros content Hans Hopen.
  - exists []. cbn. by rewrite andb_true_r.
  - destruct (xkcd_item_answered i content) as (e1 & H1 & Hg1 & Hw1 & Hp1).
    { intros j Hj. apply Hans. apply list_elem_of_singleton in Hj. subst. by left. }
    { intros j data m Hj. apply Hopen. apply list_elem_of_singleton in Hj.
      subst. by left. }
    destruct (IH (content && negb (not_found http i)))
      as (e2 & H2 & Hg2 & Hw2 & Hp2).
    { intros j Hj. apply Hans. by right. }
    { intros j data m Hj. apply Hopen. by right. }
    exists (e1 ++ e2). cbn [xkcd_loop forallb]. unfold bind. rewrite H1, H2.
    split; [by rewrite andb_assoc|].
    rewrite gets_app, writes_app, List.filter_app, Hp1, Hp2. cbn.
    repeat split; lia.
Qed.

(** X9: when its requests are answered and its files can be opened,
    [download_xkcd] returns, having issued exactly one GET per item of
    the range plus one per file it has written; it writes at most one
    file per item and prints nothing; over an empty range
    ([stop <= start]) it does nothing at all. *)
Theorem download_xkcd_counts (start stop : Z) :
  all_answer http (range start stop) ->
  all_open http disk (range start stop) ->
  exists evs content,
    download_xkcd http disk start stop = (evs, Some content)
    /\ gets evs = (Z.to_nat (stop - start) + writes evs)%nat
    /\ (writes evs <= Z.to_nat (stop - start))%nat
    /\ List.filter is_print evs = []
    /\ (stop <= start -> evs = [] /\ content = true).
Proof.
  intros Hans Hopen.
  destruct (xkcd_loop_answered (range start stop) true Hans Hopen)
    as (evs & Hrun & Hg & Hw & Hp).
  unfold range in Hg, Hw. rewrite length_seqZ in Hg, Hw.
  eexists evs, _. split; [exact Hrun|].
  split; [done|]. split; [done|]. split; [done|].
  intros Hle.
  assert (seqZ start (stop - start) = []) as Hnil
    by (apply length_zero_iff_nil; rewrite length_seqZ; lia).
  unfold range in Hrun. rewrite Hnil in Hrun. cbn in Hrun.
  unfold range. rewrite Hnil. unfold ret in Hrun. by simplify_eq.
Qed.

(** X10: when the requests are answered and the files can be opened,
    the flag [content] that [download_xkcd] computes is false at the
    end exactly when some item of the range other than 404 had a page
    without a comic image that said "Not Found". *)
Theorem content_flag_meaning (start stop : Z) :
  all_answer http (range start stop) ->
  all_open http disk (range start stop) ->
  exists evs content,
    download_xkcd http disk start stop = (evs, Some content)
    /\ (content = false <->
        exists i, start <= i < stop /\ not_found http i = true).
Proof.
  intros Hans Hopen.
  destruct (xkcd_loop_answered (range start stop) true Hans Hopen)
    as (evs & Hrun & _).
  eexists evs, _. split; [exact Hrun|]. cbn [andb]. split.
  - intros Hf. apply not_true_iff_false in Hf.
    rewrite forallb_forall in Hf.
    destruct (decide (Exists (fun i => not_found http i = true) (range start stop)))
      as [Hex|Hnex].
    + apply Exists_exists in Hex as (i & Hi & Hnf). exists i. split; [|done].
      unfold range in Hi. apply elem_of_seqZ in Hi. lia.
    + exfalso. apply Hf. intros i Hi. apply negb_true_iff.
      apply not_true_iff_false. intros Hnf. apply Hnex.
      apply Exists_exists. exists i. split; [by apply list_elem_of_In | done].
  - intros (i & Hi & Hnf). apply not_true_iff_false. rewrite forallb_forall.
    intros Hall. specialize (Hall i). rewrite Hnf in Hall. cbn in Hall.
    assert (false = true); [|done]. apply Hall. apply list_elem_of_In.
    unfold range. apply elem_of_seqZ. lia.
Qed.

(** The loop up to item [j], when nothing raises before it. *)
Lemma download_xkcd_up_to (start stop j : Z) :
  start <= j < stop ->
  all_answer http (range start j) -> all_open http disk (range start j) ->
  exists e1 c1,
    download_xkcd http disk start j = (e1, Some c1)
    /\ download_xkcd http disk start stop
       = bind (e1, Some c1)
           (fun c => bind (xkcd_item http disk j c)
                       (xkcd_loop http disk (seqZ (Z.succ j) (Z.pred (stop - j))))).
Proof.
  intros Hj Hans Hopen.
  destruct (xkcd_loop_answered (range start j) true Hans Hopen) as (e1 & H1 & _).
  eexists e1, _. split; [exact H1|].
  unfold download_xkcd, range in *.
  replace (stop - start) with ((j - start) + (stop - j)) by lia.
  rewrite seqZ_app by lia. rewrite xkcd_loop_app, H1.
  replace (start + (j - start)) with j by lia.
  by rewrite (seqZ_cons j) by lia.
Qed.

(** X11: a page request that raises ends [download_xkcd] on the spot:
    the call does what it does for the items before (when nothing
    raises there), issues the failing GET, and raises; no later item is
    fetched. *)
Theorem download_xkcd_stops_at_raise (start stop j : Z) :
  start <= j < stop ->
  all_answer http (range start j) -> all_open http disk (range start j) ->
  http (page_url j) = None ->
  download_xkcd http disk start stop
  = (fst (download_xkcd http disk start j) ++ [Get (page_url j)], None).
Proof.
  intros Hj Hans Hopen Hraise.
  destruct (download_xkcd_up_to start stop j Hj Hans Hopen)
    as (e1 & c1 & H1 & ->).
  rewrite H1. cbn [fst]. unfold bind, xkcd_item, request.
  by rewrite Hraise.
Qed.

(** X24: a file that cannot be opened ends [download_xkcd] as well: the
    call has requested the page and the image of that item, writes
    nothing for it and raises; no later item is fetched.  (With the
    unescaped dot of the pattern the name of the file can hold a slash,
    and then it cannot be opened unless the directory exists.) *)
Theorem download_xkcd_stops_at_open (start stop j : Z) (data m r : string) :
  start <= j < stop ->
  all_answer http (range start j) -> all_open http disk (range start j) ->
  http (page_url j) = Some data -> search_comic data = Some m ->
  http (img_url m) = Some r ->
  disk (path +:+ str j +:+ last4 (img_url m)) = false ->
  download_xkcd http disk start stop
  = (fst (download_xkcd http disk start j)
       ++ [Get (page_url j); Get (img_url m)], None).
Proof.
  intros Hj Hans Hopen Hpage Hm Himg Hdisk.
  destruct (download_xkcd_up_to start stop j Hj Hans Hopen)
    as (e1 & c1 & H1 & ->).
  rewrite H1. cbn [fst]. unfold xkcd_item, request, bind.
  rewrite Hpage. cbn [fmap option_fmap option_map rd_data body].
  rewrite Hm, Himg. cbn [fmap option_fmap option_map]. unfold write_file.
  by rewrite Hdisk.
Qed.

End MoreLoop.

Lemma web_one_answers (items : list Z) : all_answer web_one items.
Proof.
  intros i _. unfold web_one.
  destruct (String.eqb (page_url i) "http://www.xkcd.com/1/").
  - eexists. split; [reflexivity|]. intros m Hm. vm_compute in Hm.
    injection Hm as <-. by eexists.
  - destruct (String.eqb (page_url i)
                "http://imgs.xkcd.com/comics/barrel_cropped_(1).jpg");
      (eexists; split; [reflexivity|]); intros m Hm; vm_compute in Hm; discriminate.
Qed.

Lemma download_xkcd_counts_witness :
  exists evs content,
    download_xkcd web_one disk_any 0 3 = (evs, Some content)
    /\ gets evs = (Z.to_nat (3 - 0) + writes evs)%nat
    /\ (writes evs <= Z.to_nat (3 - 0))%nat
    /\ List.filter is_print evs = []
    /\ (3 <= 0 -> evs = [] /\ content = true).
Proof.
  apply (download_xkcd_counts web_one disk_any 0 3).
  - apply web_one_answers.
  - apply disk_any_opens.
Defined.

Lemma content_flag_meaning_witness :
  exists evs content,
    download_xkcd web_not_found disk_any 1 4 = (evs, Some content)
    /\ (content = false <->
        exists i, 1 <= i < 4 /\ not_found web_not_found i = true).
Proof.
  apply (content_flag_meaning web_not_found disk_any 1 4).
  - apply web_not_found_answers.
  - apply disk_any_opens.
Defined.

Lemma download_xkcd_stops_at_raise_witness :
  download_xkcd web_raise0 disk_any (-1) 2
  = (fst (download_xkcd web_raise0 disk_any (-1) 0) ++ [Get (page_url 0)], None).
Proof.
  apply (download_xkcd_stops_at_raise web_raise0 disk_any (-1) 2 0);
    [lia | | apply disk_any_opens | reflexivity].
  intros i Hi. exists "404 Not Found".
  change (range (-1) 0) with [-1] in Hi. apply list_elem_of_singleton in Hi.
  subst i. split; [reflexivity|]. intros m Hm. vm_compute in Hm. discriminate.
Defined.

Lemma download_xkcd_stops_at_open_witness :
  download_xkcd web_slash disk_flat 1 3
  = (fst (download_xkcd web_slash disk_flat 1 1)
       ++ [Get (page_url 1); Get (img_url "/comics/a/png")], None).
Proof.
  apply (download_xkcd_stops_at_open web_slash disk_flat 1 3 1
           "<img src=//imgs.xkcd.com/comics/a/png>" "/comics/a/png" "PNG");
    try reflexivity; try lia.
  - intros i Hi. by apply elem_of_nil in Hi.
  - intros i data m Hi. by apply elem_of_nil in Hi.
Defined.

(** The run behind X24: the file "xkcd_1/png" cannot be opened, and the
    page of comic 2 is never requested. *)
Example download_xkcd_slash_run :
  download_xkcd web_slash disk_flat 1 3
  = ([Get "http://www.xkcd.com/1/"; Get "http://imgs.xkcd.com/comics/a/png"],
     None)
  /\ path +:+ str 1 +:+ last4 (img_url "/comics/a/png") = "xkcd_1/png"
  /\ disk_flat "xkcd_1/png" = false.
Proof. repeat split. Qed.

End SequentialMore.

(** ** More on the threaded downloader *)

Module PoolMore.
Import Scrape Pool Observe Inputs PoolFiles PoolFacts.

#[local] Arguments download_item : simpl never.

Ltac open_state :=
  unfold joined, spawned, todo, claims, processed, crashed in *;
  cbn [main queue unfinished workers trace with_main with_worker log
       q_put spawn with_queue with_unfinished] in *.

Section MoreSteps.
Variable http : web.
Variable disk : files.
Variables nthreads start stop : Z.

#[local] Abbreviation step := (step http disk nthreads).
#[local] Abbreviation exec := (exec http disk nthreads).
#[local] Abbreviation trans := (trans http disk nthreads).
#[local] Abbreviation reachable := (reachable http disk nthreads start stop).
#[local] Abbreviation inv := (inv http disk nthreads start stop).

(** X1: the queue is first in, first out, and so is the pool: at every
    moment the items claimed so far (in the order of the claims), the
    items in the queue and the items the main thread has still to put
    are, one after the other, exactly [range(start, stop)]. *)
Theorem claims_in_queue_order (s : state) :
  reachable s ->
  (snd <$> claims s) ++ queue s ++ todo s = range start stop.
Proof.
  revert s. apply (reachable_ind http disk nthreads start stop); [done|].
  intros a s s' _ I Ht. destruct Ht; open_state;
    repeat match goal with H : main _ = _ |- _ => rewrite H in I; clear H end;
    repeat match goal with H : queue _ = _ |- _ => rewrite H in I; clear H end;
    try assumption.
  - rewrite <- I, <- (app_assoc (queue s)). reflexivity.
  - rewrite omap_app, fmap_app, <- I, <- app_assoc. reflexivity.
  - rewrite omap_app. cbn. by rewrite app_nil_r.
  - rewrite omap_app. cbn. by rewrite app_nil_r.
Qed.

(** *** What the queue's counter guarantees *)

Lemma owing_le_sum (l : list thread) (w : nat) (t : thread) :
  l !! w = Some t -> (owing t <= sum_list (owing <$> l))%nat.
Proof.
  revert w. induction l as [|a l IH]; intros [|w] H; simplify_eq/=; [lia|].
  specialize (IH w H). lia.
Qed.

(** X2: [q.task_done()] is never called once too often: a worker that
    has taken an item always finds the count of unfinished tasks
    positive, so the call decrements it and the worker goes on to fetch
    its item; the ValueError of [task_done] cannot happen. *)
Theorem task_done_never_raises (s : state) (w : nat) (t : thread) (i : Z) :
  reachable s -> workers s !! w = Some t -> pc t = WTaskDone i ->
  (0 < unfinished s)%nat
  /\ step (Worker w) s
     = Some (with_worker w (at_pc t (WWork i))
               (with_unfinished (unfinished s - 1) s)).
Proof.
  intros Hr Hw Hpc. pose proof (reachable_inv http disk nthreads start stop s Hr) as I.
  pose proof (inv_count _ _ _ _ _ _ I) as Hc.
  pose proof (owing_le_sum _ _ _ Hw) as Hle. unfold owing in Hle at 1.
  rewrite Hpc in Hle. cbn in Hle.
  split; [lia|]. cbn. unfold DownloadThread_run, download_worker, q_task_done.
  rewrite Hw, Hpc. destruct (unfinished s) as [|n]; [lia|].
  by replace (S n - 1)%nat with n by lia.
Qed.

(** *** How many items are in flight *)

Lemma held_le_length (l : list thread) :
  (length (concat (held <$> l)) <= length l)%nat.
Proof.
  induction l as [|a l IH]; cbn; [lia|]. rewrite length_app.
  unfold held at 1. destruct (pc a); cbn; lia.
Qed.

(** X3: the pool bounds the concurrency: there are never more than
    [nthreads] workers, never more than [nthreads] items taken from the
    queue and not yet finished, and no two workers hold the same item. *)
Theorem at_most_nthreads_in_flight (s : state) :
  reachable s ->
  (length (workers s) <= Z.to_nat nthreads)%nat
  /\ (length (concat (held <$> workers s)) <= Z.to_nat nthreads)%nat
  /\ NoDup (concat (held <$> workers s)).
Proof.
  intros Hr. pose proof (reachable_inv http disk nthreads start stop s Hr) as I.
  assert (length (workers s) <= Z.to_nat nthreads)%nat as Hlen.
  { pose proof (inv_spawned _ _ _ _ _ _ I) as Hsp. unfold spawned in Hsp.
    destruct (main s); try lia. rewrite Hsp. cbn. lia. }
  split; [exact Hlen|]. split.
  - pose proof (held_le_length (workers s)). lia.
  - pose proof (claims_NoDup http disk nthreads start stop s Hr) as Hnd.
    rewrite (inv_ledger _ _ _ _ _ _ I) in Hnd. by apply NoDup_app in Hnd as [? _].
Qed.

(** *** Processing happens once *)

Lemma trace_faithful (s : state) :
  reachable s -> Forall (entry_faithful http disk) (trace s).
Proof.
  revert s. apply (reachable_ind http disk nthreads start stop); [by constructor|].
  intros a s s' _ I Ht. destruct Ht; open_state; try assumption.
  all: apply Forall_app; split; [assumption|]; by repeat constructor.
Qed.

Lemma processed_returned (s : state) (w : nat) (i : Z) :
  reachable s -> (w, i) ∈ processed s -> snd (download_item http disk i) = Some tt.
Proof.
  intros Hr Hin. pose proof (trace_faithful s Hr) as Hf.
  unfold processed in Hin. apply list_elem_of_omap in Hin as (e & He & Hd).
  rewrite Forall_forall in Hf. specialize (Hf e He).
  destruct e; cbn in Hd; simplify_eq. cbn in Hf. by rewrite Hf.
Qed.

(** X4: no item is processed twice; an item is processed only by the
    worker that claimed it, only if it belongs to the batch, and only if
    its download returned. *)
Theorem no_item_processed_twice (s : state) :
  reachable s ->
  NoDup (snd <$> processed s)
  /\ forall w i, (w, i) ∈ processed s ->
       (w, i) ∈ claims s /\ start <= i < stop
       /\ snd (download_item http disk i) = Some tt.
Proof.
  intros Hr. destruct (processed_NoDup http disk nthreads start stop s Hr) as [Hnd Hown].
  split; [exact Hnd|]. intros w i Hin. split; [by apply Hown|]. split.
  - eapply claims_in_range; [exact Hr | by apply Hown].
  - by eapply processed_returned.
Qed.

(** *** Downloads that do not raise *)

(** X5: when no download of the batch raises, no worker is ever ended:
    nothing crashes and no thread dies. *)
Theorem no_raise_no_death (s : state) :
  no_download_raises http disk start stop -> reachable s ->
  crashed s = [] /\ Forall (fun t => pc t <> WDead) (workers s).
Proof.
  intros Hok Hr. pose proof (reachable_inv http disk nthreads start stop s Hr) as I.
  assert (crashed s = []) as Hc.
  { destruct (crashed s) as [|[w i] l] eqn:E; [done|]. exfalso.
    assert ((w, i) ∈ crashed s) as Hin by (rewrite E; by left).
    pose proof (inv_crashed _ _ _ _ _ _ I w i Hin) as Hnone.
    rewrite (Hok i) in Hnone; [done|].
    apply (claims_in_range http disk nthreads start stop s w i Hr),
      (inv_owner _ _ _ _ _ _ I), elem_of_app. by right. }
  split; [exact Hc|]. apply Forall_forall. intros t Ht.
  pose proof (inv_dead _ _ _ _ _ _ I) as Hd. rewrite Hc in Hd. cbn in Hd.
  pose proof (sum_zero dead _ t Hd Ht) as H0. unfold dead in H0.
  intros Hpc. rewrite Hpc in H0. cbn in H0. lia.
Qed.

(** *** The test of [q.empty()] and the call of [q.get()] are two steps *)

Lemma drained_step (a : actor) (s s' : state) (w : nat) (t : thread) :
  todo s = [] -> queue s = [] -> workers s !! w = Some t -> pc t = WGet ->
  step a s = Some s' ->
  todo s' = [] /\ queue s' = [] /\ workers s' !! w = Some t.
Proof.
  intros Htodo Hq Hw Hpc Hs. apply step_trans in Hs.
  destruct Hs; open_state; cbn [todo main] in *;
    repeat match goal with H : main _ = _ |- _ => rewrite H in Htodo end;
    try done.
  { split; [done|]. split; [done|]. by apply lookup_app_l_Some. }
  all: try congruence.
  all: split; [done|]; split; [done|].
  all: match goal with
       | |- <[?w' := _]> _ !! _ = _ =>
           destruct (decide (w' = w)) as [->|Hne];
           [congruence | by rewrite list_lookup_insert_ne]
       end.
Qed.

(** X6: a worker that saw the queue non-empty but finds it empty when it
    calls [q.get()] (another worker took the last item in between) waits
    for ever: once the main thread has put all its items, the queue stays
    empty, and in every continuation of the execution that worker is
    still where it was, unable to move. *)
Theorem loser_of_the_race_is_blocked
    (s s' : state) (w : nat) (t : thread) (sched : list actor) :
  todo s = [] -> queue s = [] -> workers s !! w = Some t -> pc t = WGet ->
  exec sched s = Some s' ->
  queue s' = [] /\ workers s' !! w = Some t /\ step (Worker w) s' = None.
Proof.
  intros Htodo Hq Hw Hpc He.
  assert (todo s' = [] /\ queue s' = [] /\ workers s' !! w = Some t) as (_ & Hq' & Hw').
  { revert s Htodo Hq Hw He. induction sched as [|a sched IH]; intros s Htodo Hq Hw He.
    - cbn in He. by simplify_eq.
    - cbn in He. destruct (Pool.step http disk nthreads a s) as [s1|] eqn:Hs; [|done].
      destruct (drained_step a s s1 w t Htodo Hq Hw Hpc Hs) as (? & ? & ?).
      by eapply IH. }
  repeat split; try done.
  cbn. unfold DownloadThread_run, download_worker, q_get. by rewrite Hw', Hpc, Hq'.
Qed.

(** *** The batch can be brought to its end *)

Lemma nothing_held_nothing_owed (l : list thread) :
  concat (held <$> l) = [] -> sum_list (owing <$> l) = O.
Proof.
  induction l as [|a l IH]; cbn; [done|]. intros [Ha Hl]%app_eq_nil.
  rewrite (IH Hl). unfold held, owing in *. by destruct (pc a).
Qed.

(** When every item is processed, each is processed once, nothing is in
    the queue or in a worker's hands, and nothing is unfinished. *)
Lemma all_processed_quiet (s : state) :
  reachable s ->
  (forall i, start <= i < stop -> i ∈ (snd <$> processed s)) ->
  snd <$> processed s ≡ₚ range start stop
  /\ crashed s = [] /\ queue s = [] /\ todo s = [] /\ unfinished s = O.
Proof.
  intros Hr Hall. pose proof (reachable_inv http disk nthreads start stop s Hr) as I.
  pose proof (claims_NoDup http disk nthreads start stop s Hr) as Hnd.
  pose proof (inv_ledger _ _ _ _ _ _ I) as Hledger.
  pose proof (inv_items _ _ _ _ _ _ I) as Hitems.
  assert (range start stop ⊆+ (snd <$> processed s)) as Hsub.
  { apply NoDup_submseteq; [apply NoDup_seqZ|].
    intros i Hi. apply Hall. unfold range in Hi. apply elem_of_seqZ in Hi. lia. }
  apply submseteq_length in Hsub.
  pose proof (f_equal length (eq_refl (range start stop))) as _.
  assert (length ((snd <$> claims s) ++ queue s ++ todo s) = length (range start stop))
    as Hl1 by (by rewrite Hitems).
  assert (length (snd <$> claims s)
          = length (concat (held <$> workers s) ++ (snd <$> processed s)
                      ++ (snd <$> crashed s))) as Hl2 by (by rewrite Hledger).
  rewrite !length_app in Hl1, Hl2. rewrite !length_fmap in *.
  assert (length (concat (held <$> workers s)) = O) as Hh by lia.
  assert (length (crashed s) = O) as Hc by lia.
  assert (length (queue s) = O) as Hq by lia.
  assert (length (todo s) = O) as Ht by lia.
  apply length_zero_iff_nil in Hh, Hc, Hq, Ht.
  split; [|split; [done|split; [done|split; [done|]]]].
  - symmetry. apply submseteq_length_Permutation; [|rewrite !length_fmap; lia].
    apply NoDup_submseteq; [apply NoDup_seqZ|].
    intros i Hi. apply Hall. unfold range in Hi. apply elem_of_seqZ in Hi. lia.
  - rewrite (inv_count _ _ _ _ _ _ I), Hq, (nothing_held_nothing_owed _ Hh). done.
Qed.

(** With nothing unfinished the main thread can run to its return,
    whatever it was doing, and changes nothing of the history. *)
Lemma main_can_return (s : state) :
  unfinished s = O -> todo s = [] ->
  exists sched s', exec sched s = Some s' /\ returned s' /\ trace s' = trace s.
Proof.
  intros Hu Htodo. destruct (main s) as [l|k| |k|] eqn:Hm.
  - unfold todo in Htodo. rewrite Hm in Htodo. subst l.
    destruct (main_spawns_and_returns http disk nthreads (Z.to_nat nthreads)
                (with_main (MSpawn (Z.to_nat nthreads)) s) eq_refl Hu)
      as (sched & s' & He & Hr & _ & Ht).
    exists (Main :: sched), s'. repeat split; try done.
    eapply exec_cons; [|exact He]. cbn. unfold download_xkcd_threaded. by rewrite Hm.
  - destruct (main_spawns_and_returns http disk nthreads k s Hm Hu)
      as (sched & s' & He & Hr & _ & Ht). by exists sched, s'.
  - destruct (main_deletes http disk nthreads (length (workers s))
                (with_main (MDel (length (workers s))) s) eq_refl)
      as (sched & s' & He & Hr & _ & Ht).
    exists (Main :: sched), s'. repeat split; try done.
    eapply exec_cons; [|exact He]. cbn. unfold download_xkcd_threaded.
    by rewrite Hm, Hu.
  - destruct (main_deletes http disk nthreads k s Hm) as (sched & s' & He & Hr & _ & Ht).
    by exists sched, s'.
  - by exists [], s.
Qed.

(** X7: with at least one worker and downloads that do not raise, the
    batch is never lost: every execution, from whatever state, can be
    continued until [download_xkcd_threaded] has returned and every item
    of [range(start, stop)] has been processed, each exactly once. *)
Theorem batch_can_complete_and_return (s : state) :
  1 <= nthreads -> no_download_raises http disk start stop -> reachable s ->
  exists sched s',
    exec sched s = Some s' /\ returned s'
    /\ snd <$> processed s' ≡ₚ range start stop
    /\ NoDup (snd <$> processed s').
Proof.
  intros Hn Hok Hr.
  destruct (batch_can_complete http disk nthreads start stop s Hn Hok Hr)
    as (sched1 & s1 & He1 & Hall).
  assert (reachable s1) as Hr1 by (by eapply reachable_exec).
  destruct (all_processed_quiet s1 Hr1 Hall) as (Hperm & _ & _ & Htodo & Hu).
  destruct (main_can_return s1 Hu Htodo) as (sched2 & s2 & He2 & Hret & Htr).
  exists (sched1 ++ sched2), s2.
  assert (processed s2 = processed s1) as Hp by (unfold processed; by rewrite Htr).
  split; [by rewrite exec_app, He1|]. split; [done|]. rewrite Hp.
  split; [done|]. rewrite Hperm. apply NoDup_seqZ.
Qed.

(** *** What the workers leave behind *)

Lemma faithful_page_only (e : entry) :
  entry_faithful http disk e -> page_only e.
Proof.
  destruct e as [w i|w i out|w i out]; cbn; [done| |];
    rewrite download_item_page_only; by intros [= <- _].
Qed.

Lemma page_only_quiet (tr : list entry) :
  Forall page_only tr ->
  concat (entry_files <$> tr) = [] /\ concat (entry_prints <$> tr) = [].
Proof.
  induction 1 as [|e tr He _ [IHf IHp]]; [done|].
  cbn [fmap list_fmap concat]. rewrite IHf, IHp.
  destruct e as [w i|w i out|w i out]; cbn in *; by subst.
Qed.

(** X12: the threaded downloader downloads nothing.  Whatever the pages
    are, a worker leaves for an item the request for its page and
    nothing else, because it searches what [rd.read()] returns after
    the body has been preloaded: at every moment of every run no file
    has been written and nothing has been printed. *)
Theorem threads_write_nothing (s : state) :
  reachable s ->
  Forall page_only (trace s)
  /\ files_written s = []
  /\ messages_printed s = [].
Proof.
  intros Hr.
  assert (Forall page_only (trace s)) as Hp.
  { eapply Forall_impl; [apply (trace_faithful s Hr)|].
    apply faithful_page_only. }
  split; [done|]. by apply page_only_quiet.
Qed.

End MoreSteps.

Lemma reach_lost_race : reachable web_not_found disk_any 2 0 1 state_lost_race.
Proof. exists sched_lost_race. reflexivity. Qed.

Lemma web_not_found_returns (start stop : Z) :
  no_download_raises web_not_found disk_any start stop.
Proof.
  intros i _. unfold download_item, request, bind, web_not_found.
  change (search_comic "404 Not Found") with (@None string).
  change (search_literal "Not Found" "404 Not Found") with true.
  by destruct (i =? 404).
Qed.

Lemma claims_in_queue_order_witness :
  (snd <$> claims state_two_claims) ++ queue state_two_claims
    ++ todo state_two_claims = range 0 2.
Proof.
  apply (claims_in_queue_order web_not_found disk_any 2 0 2 state_two_claims).
  exists sched_two_claims. reflexivity.
Defined.

Lemma task_done_never_raises_witness :
  (0 < unfinished state_two_claims)%nat
  /\ step web_not_found disk_any 2 (Worker 0) state_two_claims
     = Some (with_worker 0 (at_pc (thread_at (WTaskDone 0)) (WWork 0))
               (with_unfinished (unfinished state_two_claims - 1) state_two_claims)).
Proof.
  apply (task_done_never_raises web_not_found disk_any 2 0 2 state_two_claims 0
           (thread_at (WTaskDone 0)) 0).
  - exists sched_two_claims. reflexivity.
  - reflexivity.
  - reflexivity.
Defined.

Lemma at_most_nthreads_in_flight_witness :
  (length (workers state_two_claims) <= Z.to_nat 2)%nat
  /\ (length (concat (held <$> workers state_two_claims)) <= Z.to_nat 2)%nat
  /\ NoDup (concat (held <$> workers state_two_claims)).
Proof.
  apply (at_most_nthreads_in_flight web_not_found disk_any 2 0 2 state_two_claims).
  exists sched_two_claims. reflexivity.
Defined.

Lemma no_item_processed_twice_witness :
  NoDup (snd <$> processed state_all_done)
  /\ forall w i, (w, i) ∈ processed state_all_done ->
       (w, i) ∈ claims state_all_done /\ 0 <= i < 1
       /\ snd (download_item web_not_found disk_any i) = Some tt.
Proof.
  apply (no_item_processed_twice web_not_found disk_any 1 0 1 state_all_done).
  exists sched_all_done. reflexivity.
Defined.

Lemma no_raise_no_death_witness :
  crashed state_all_done = []
  /\ Forall (fun t => pc t <> WDead) (workers state_all_done).
Proof.
  apply (no_raise_no_death web_not_found disk_any 1 0 1 state_all_done).
  - apply web_not_found_returns.
  - exists sched_all_done. reflexivity.
Defined.

Lemma loser_of_the_race_is_blocked_witness :
  queue state_after_race = []
  /\ workers state_after_race !! 1%nat = Some (thread_at WGet)
  /\ step web_not_found disk_any 2 (Worker 1) state_after_race = None.
Proof.
  apply (loser_of_the_race_is_blocked web_not_found disk_any 2 state_lost_race
           state_after_race 1 (thread_at WGet) sched_after_race); reflexivity.
Defined.

Lemma batch_can_complete_and_return_witness :
  exists sched s',
    exec web_not_found disk_any 2 sched state_lost_race = Some s' /\ returned s'
    /\ snd <$> processed s' ≡ₚ range 0 1
    /\ NoDup (snd <$> processed s').
Proof.
  apply (batch_can_complete_and_return web_not_found disk_any 2 0 1 state_lost_race).
  - lia.
  - apply web_not_found_returns.
  - exists sched_lost_race. reflexivity.
Defined.

Lemma threads_write_nothing_witness :
  Forall page_only (trace state_one_file)
  /\ files_written state_one_file = []
  /\ messages_printed state_one_file = [].
Proof.
  apply (threads_write_nothing web_one disk_any 1 1 2 state_one_file).
  exists sched_one_file. reflexivity.
Defined.

(** The run behind X12: comic 1 exists; the sequential downloader saves
    its image, the threaded downloader has only asked for its page. *)
Example one_comic_two_downloaders :
  download_xkcd web_one disk_any 1 2
  = ([Get "http://www.xkcd.com/1/";
      Get "http://imgs.xkcd.com/comics/barrel_cropped_(1).jpg";
      WriteFile "xkcd_1.jpg" "JFIF"], Some true)
  /\ reachable web_one disk_any 1 1 2 state_one_file
  /\ processed state_one_file = [(0%nat, 1)]
  /\ trace state_one_file
     = [Claim 0 1; Done 0 1 [Get "http://www.xkcd.com/1/"]].
Proof.
  split; [reflexivity|]. split; [|done]. exists sched_one_file. reflexivity.
Qed.

End PoolMore.

(** ** The shape of a match and of a file name *)

Module ScrapeMore.
Import Scrape Sequential Observe Inputs.

Lemma app_cons (c : ascii) (a b : string) :
  String c a +:+ b = String c (a +:+ b).
Proof. reflexivity. Qed.

Lemma app_assoc_str (a b c : string) : (a +:+ b) +:+ c = a +:+ (b +:+ c).
Proof. induction a as [|x a IH]; [done|]. rewrite !app_cons. by f_equal. Qed.

Lemma length_app_str (a b : string) :
  String.length (a +:+ b) = (String.length a + String.length b)%nat.
Proof. induction a as [|x a IH]; [done|]. rewrite app_cons. cbn. by f_equal. Qed.

Lemma drop_str_app (a b : string) : drop_str (String.length a) (a +:+ b) = b.
Proof. induction a as [|x a IH]; [by destruct b|]. by rewrite app_cons. Qed.

Lemma substring_app (a b : string) (k : nat) :
  substring 0 (String.length a + k) (a +:+ b) = a +:+ substring 0 k b.
Proof.
  induction a as [|x a IH]; [done|]. rewrite !app_cons. cbn. by f_equal.
Qed.

Lemma substring_0_0 (s : string) : substring 0 0 s = EmptyString.
Proof. by destruct s. Qed.

Lemma prefix_split (p s : string) :
  String.prefix p s = true -> s = p +:+ drop_str (String.length p) s.
Proof.
  revert s. induction p as [|x p IH]; intros s H.
  - by destruct s.
  - destruct s as [|y s]; [done|]. cbn in H.
    destruct (ascii_dec x y) as [->|]; [|done].
    rewrite app_cons. cbn. f_equal. by apply IH.
Qed.

(** [.(jpg|png)] at the head of a string. *)
Lemma ext_here_split (s : string) :
  ext_here s = true ->
  exists c ext post, s = String c (ext +:+ post)
    /\ c <> "010"%char /\ (ext = "jpg" \/ ext = "png").
Proof.
  destruct s as [|c t]; [done|]. cbn [ext_here]. intros H.
  apply andb_prop in H as [Hc Ht]. apply orb_prop in Ht.
  assert (c <> "010"%char) as Hnl.
  { intros ->. by rewrite Ascii.eqb_refl in Hc. }
  destruct Ht as [Ht | Ht]; apply prefix_split in Ht.
  - exists c, "jpg", (drop_str 3 t). split; [by f_equal|]. split; [done|by left].
  - exists c, "png", (drop_str 3 t). split; [by f_equal|]. split; [done|by right].
Qed.

Lemma star_back_ext (k : nat) (s : string) (j : nat) :
  star_back k s = Some j -> (j <= k)%nat /\ ext_here (drop_str j s) = true.
Proof.
  induction k as [|k IH]; cbn [star_back].
  - destruct (ext_here (drop_str 0 s)) eqn:E; [|done].
    intros [= <-]. split; [lia|done].
  - destruct (ext_here (drop_str (S k) s)) eqn:E.
    + intros [= <-]. split; [lia|done].
    + intros H. apply IH in H as [? ?]. split; [lia|done].
Qed.

(** The first [j] characters of a string whose class run is at least
    [j] long are class characters. *)
Lemma class_run_split (s : string) (j : nat) :
  (j <= class_run s)%nat ->
  exists body, s = body +:+ drop_str j s
    /\ String.length body = j /\ all_in_class body = true.
Proof.
  revert s. induction j as [|j IH]; intros s H.
  - exists EmptyString. split; [by destruct s|done].
  - destruct s as [|c t]; [cbn in H; lia|]. cbn [class_run] in H.
    destruct (in_class c) eqn:Hc; [|lia].
    destruct (IH t) as (body & Ht & Hlen & Hall); [lia|].
    exists (String c body). rewrite app_cons. cbn [drop_str].
    split; [by f_equal|]. split; [cbn; by f_equal|].
    cbn [all_in_class]. by rewrite Hc.
Qed.

Lemma match_here_shape (s m : string) :
  match_here s = Some m ->
  exists body c ext post,
    s = "/comics/" +:+ body +:+ String c (ext +:+ post)
    /\ m = "/comics/" +:+ body +:+ String c ext
    /\ all_in_class body = true
    /\ c <> "010"%char /\ (ext = "jpg" \/ ext = "png").
Proof.
  unfold match_here. destruct (String.prefix "/comics/" s) eqn:Hp; [|done].
  apply prefix_split in Hp. change (String.length "/comics/") with 8%nat in Hp.
  destruct (star_back _ _) as [j|] eqn:Hj; [|done]. intros [= <-].
  apply star_back_ext in Hj as [Hle Hext].
  destruct (class_run_split _ _ Hle) as (body & Hrest & Hlen & Hall).
  destruct (ext_here_split _ Hext) as (c & ext & post & Htail & Hc & Hx).
  rewrite Htail in Hrest.
  exists body, c, ext, post.
  assert (s = "/comics/" +:+ body +:+ String c (ext +:+ post)) as Hs.
  { rewrite Hp at 1. by rewrite <- Hrest. }
  split; [done|]. split; [|done].
  transitivity (substring 0
    (String.length "/comics/" + (String.length body + 4))
    ("/comics/" +:+ body +:+ String c (ext +:+ post))).
  { rewrite <- Hs. f_equal. cbn. lia. }
  rewrite substring_app, substring_app. do 2 f_equal.
  destruct Hx as [-> | ->]; rewrite !app_cons; cbn [substring];
    by rewrite substring_0_0.
Qed.

(** [re.search] returns what the pattern matches at some position of
    the page. *)
Lemma search_comic_position (data m : string) :
  search_comic data = Some m ->
  exists pre t, data = pre +:+ t /\ match_here t = Some m.
Proof.
  induction data as [|x t IH]; cbn [search_comic].
  - destruct (match_here "") as [m'|] eqn:Hm; [|done]. intros [= <-].
    by exists EmptyString, EmptyString.
  - destruct (match_here (String x t)) as [m'|] eqn:Hm.
    + intros [= <-]. by exists EmptyString, (String x t).
    + intros H. destruct (IH H) as (pre & t' & -> & Ht').
      by exists (String x pre), t'.
Qed.

(** X13: what [re.search] with the pattern of the downloaders returns is
    a piece of the page: "/comics/", then characters of the class
    [a-z0-9_()], then ONE character that is not a newline (the dot of
    the pattern is not escaped, so it need not be a dot), then "jpg" or
    "png". *)
Theorem search_comic_shape (data m : string) :
  search_comic data = Some m ->
  exists pre body c ext post,
    data = pre +:+ "/comics/" +:+ body +:+ String c (ext +:+ post)
    /\ m = "/comics/" +:+ body +:+ String c ext
    /\ all_in_class body = true
    /\ c <> "010"%char /\ (ext = "jpg" \/ ext = "png").
Proof.
  intros H. destruct (search_comic_position data m H) as (pre & t & -> & Ht).
  destruct (match_here_shape _ _ Ht)
    as (body & c & ext & post & -> & Hm & Hb & Hc & Hx).
  by exists pre, body, c, ext, post.
Qed.

Lemma search_comic_shape_witness :
  search_comic "x/comics/abcjpg" = Some "/comics/abcjpg" /\
  exists pre body c ext post,
    "x/comics/abcjpg" = pre +:+ "/comics/" +:+ body +:+ String c (ext +:+ post)
    /\ "/comics/abcjpg" = "/comics/" +:+ body +:+ String c ext
    /\ all_in_class body = true
    /\ c <> "010"%char /\ (ext = "jpg" \/ ext = "png").
Proof.
  split; [reflexivity|].
  apply (search_comic_shape "x/comics/abcjpg" "/comics/abcjpg"). reflexivity.
Defined.

(** [imgurl[-4:]] of a match is its last four characters: the character
    the dot matched and the extension. *)
Lemma last4_img_url (body : string) (c : ascii) (ext : string) :
  ext = "jpg" \/ ext = "png" ->
  last4 (img_url ("/comics/" +:+ body +:+ String c ext)) = String c ext.
Proof.
  intros Hx. unfold last4, img_url.
  rewrite <- !app_assoc_str.
  set (a := ("http://imgs.xkcd.com" +:+ "/comics/") +:+ body).
  rewrite length_app_str.
  replace (String.length (String c ext)) with 4%nat
    by (destruct Hx as [-> | ->]; reflexivity).
  replace (String.length a + 4 - 4)%nat with (String.length a) by lia.
  apply drop_str_app.
Qed.

Lemma app_inj_tail (a a' b b' : string) :
  String.length b = String.length b' -> a +:+ b = a' +:+ b' -> a = a'.
Proof.
  intros Hb. revert a'. induction a as [|x a IH]; intros [|y a'] H.
  - done.
  - apply (f_equal String.length) in H.
    rewrite !length_app_str in H. cbn in H. lia.
  - apply (f_equal String.length) in H.
    rewrite !length_app_str in H. cbn in H. lia.
  - rewrite !app_cons in H. injection H as -> H. f_equal. by apply IH.
Qed.

Section Files.
Variable http : web.
Variable disk : files.

(** The file an iteration of the loop saves its item to. *)
Lemma xkcd_item_file (i : Z) (content : bool) (name r : string) :
  WriteFile name r ∈ fst (xkcd_item http disk i content) ->
  exists data m,
    http (page_url i) = Some data /\ search_comic data = Some m
    /\ http (img_url m) = Some r
    /\ name = path +:+ str i +:+ last4 (img_url m)
    /\ disk name = true
    /\ xkcd_item http disk i content
       = ([Get (page_url i); Get (img_url m); WriteFile name r], Some content).
Proof.
  unfold xkcd_item, request, bind, write_file, ret.
  destruct (http (page_url i)) as [data|] eqn:Hd.
  2:{ cbn. intros H. apply list_elem_of_singleton in H. done. }
  cbn [fmap option_fmap option_map rd_data body].
  destruct (search_comic data) as [m|] eqn:Hm.
  - destruct (http (img_url m)) as [r'|] eqn:Hr;
      cbn [fmap option_fmap option_map].
    + destruct (disk (path +:+ str i +:+ last4 (img_url m))) eqn:Ho;
        cbn; intros H;
        repeat (apply elem_of_cons in H as [H|H]; [try done|]);
        try (by apply elem_of_nil in H).
      injection H as -> ->. exists data, m. by rewrite Ho.
    + cbn. intros H.
      repeat (apply elem_of_cons in H as [H|H]; [try done|]).
      by apply elem_of_nil in H.
  - destruct (search_literal "Not Found" data && negb (i =? 404)); cbn;
      intros H; repeat (apply elem_of_cons in H as [H|H]; [try done|]);
      by apply elem_of_nil in H.
Qed.

(** The name of a file the loop writes ends in the last four characters
    of the match. *)
Lemma written_file_name (i : Z) (content : bool) (name r : string) :
  WriteFile name r ∈ fst (xkcd_item http disk i content) ->
  exists (c : ascii) (ext : string),
    name = "xkcd_" +:+ str i +:+ String c ext
    /\ (ext = "jpg" \/ ext = "png").
Proof.
  intros H. destruct (xkcd_item_file _ _ _ _ H)
    as (data & m & _ & Hm & _ & -> & _).
  destruct (search_comic_position _ _ Hm) as (pre & t & _ & Ht).
  destruct (match_here_shape _ _ Ht)
    as (body & c & ext & post & _ & -> & _ & _ & Hx).
  exists c, ext. by rewrite last4_img_url.
Qed.

(** X14: an iteration of [download_xkcd] writes a file only for a page
    on which it found a comic image.  The file is named "xkcd_", the
    number of the item, and the last four characters of the match: the
    character the unescaped dot matched and "jpg" or "png".  Its content
    is the answer to the request for the image; the iteration makes no
    other request than the two and leaves the flag as it was. *)
Theorem file_named_after_item (i : Z) (content : bool) (name r : string) :
  WriteFile name r ∈ fst (xkcd_item http disk i content) ->
  exists (data m : string) (c : ascii) (ext : string),
    http (page_url i) = Some data /\ search_comic data = Some m
    /\ http (img_url m) = Some r
    /\ name = "xkcd_" +:+ str i +:+ String c ext
    /\ c <> "010"%char /\ (ext = "jpg" \/ ext = "png")
    /\ disk name = true
    /\ xkcd_item http disk i content
       = ([Get (page_url i); Get (img_url m); WriteFile name r], Some content).
Proof.
  intros H. destruct (xkcd_item_file _ _ _ _ H)
    as (data & m & Hd & Hm & Hr & Hn & Ho & Hevs).
  destruct (search_comic_position _ _ Hm) as (pre & t & _ & Ht).
  destruct (match_here_shape _ _ Ht)
    as (body & c & ext & post & _ & Hmm & _ & Hc & Hx).
  exists data, m, c, ext. split; [done|]. split; [done|]. split; [done|].
  split; [rewrite Hn, Hmm; by rewrite last4_img_url|].
  split; [done|]. split; [done|]. done.
Qed.

(** X15: [download_xkcd] never saves two different items to the same
    file, whatever the pages say. *)
Theorem files_of_items_differ
    (i j : Z) (ci cj : bool) (name1 r1 name2 r2 : string) :
  i <> j ->
  WriteFile name1 r1 ∈ fst (xkcd_item http disk i ci) ->
  WriteFile name2 r2 ∈ fst (xkcd_item http disk j cj) ->
  name1 <> name2.
Proof.
  intros Hij H1 H2 E. apply Hij.
  destruct (written_file_name _ _ _ _ H1) as (c1 & e1 & -> & Hx1).
  destruct (written_file_name _ _ _ _ H2) as (c2 & e2 & -> & Hx2).
  rewrite <- !app_assoc_str in E.
  apply app_inj_tail in E.
  2:{ destruct Hx1 as [-> | ->], Hx2 as [-> | ->]; reflexivity. }
  apply (inj (String.app "xkcd_")) in E. by apply (inj pretty) in E.
Qed.

End Files.

Lemma file_named_after_item_witness :
  exists (data m : string) (c : ascii) (ext : string),
    web_one (page_url 1) = Some data /\ search_comic data = Some m
    /\ web_one (img_url m) = Some "JFIF"
    /\ "xkcd_1.jpg" = "xkcd_" +:+ str 1 +:+ String c ext
    /\ c <> "010"%char /\ (ext = "jpg" \/ ext = "png")
    /\ disk_any "xkcd_1.jpg" = true
    /\ xkcd_item web_one disk_any 1 true
       = ([Get (page_url 1); Get (img_url m); WriteFile "xkcd_1.jpg" "JFIF"],
          Some true).
Proof.
  apply (file_named_after_item web_one disk_any 1 true "xkcd_1.jpg" "JFIF").
  vm_compute. do 2 right. left.
Defined.

Lemma files_of_items_differ_witness : "xkcd_1.png" <> "xkcd_2.png".
Proof.
  apply (files_of_items_differ web_same_image disk_any 1 2 true true
           "xkcd_1.png" "PNG" "xkcd_2.png" "PNG").
  - lia.
  - vm_compute. do 2 right. left.
  - vm_compute. do 2 right. left.
Defined.

End ScrapeMore.

(** ** The race on a global counter *)

Module RaceFacts.
Import Race.

Lemma finished_insert (l : list fpc) (t : nat) (p p' : fpc) :
  l !! t = Some p ->
  (finished (<[t:=p']> l) + is_done p = finished l + is_done p')%nat.
Proof.
  unfold finished. revert t.
  induction l as [|a l IH]; intros [|t] H; simplify_eq/=; [lia|].
  specialize (IH t H). lia.
Qed.

Lemma finished_all (l : list fpc) :
  (forall j, (j < length l)%nat -> l !! j = Some FDone) ->
  finished l = length l.
Proof.
  unfold finished. induction l as [|a l IH]; intros H; [done|].
  pose proof (H 0%nat ltac:(cbn; lia)) as H0. cbn in H0. simplify_eq.
  cbn. f_equal. apply IH. intros j Hj. apply (H (S j)). cbn. lia.
Qed.

Lemma finished_new (k : nat) : finished (replicate k FNew) = 0%nat.
Proof. unfold finished. induction k; [done|]. by cbn. Qed.

#[local] Arguments finished : simpl never.

Section RaceSteps.
Variables (nthreads : nat) (n0 : Z).

#[local] Abbreviation initial := (initial nthreads n0).
#[local] Abbreviation move := (move nthreads).
#[local] Abbreviation run := (run nthreads).
#[local] Abbreviation reached := (reached nthreads n0).
#[local] Abbreviation safe := (safe nthreads n0).

Lemma run_app (l1 l2 : list mover) (s : world) :
  run (l1 ++ l2) s = run l1 s ≫= run l2.
Proof.
  revert s. induction l1 as [|a l1 IH]; intros s; [done|].
  cbn. destruct (move a s); [apply IH|done].
Qed.

Lemma safe_initial : safe initial.
Proof.
  pose proof (finished_new nthreads) as Hf.
  split; unfold Race.initial; cbn [n threads caller out]; rewrite ?Hf.
  - apply length_replicate.
  - lia.
  - lia.
  - lia.
  - intros t v H. apply lookup_replicate in H as [? _]. done.
  - intros i j _ Hj. apply lookup_replicate. split; [done|lia].
  - intros [?|?]; done.
  - done.
  - intros v H. by apply elem_of_nil in H.
Qed.

Lemma move_safe (a : mover) (s s' : world) :
  safe s -> move a s = Some s' -> safe s'.
Proof.
  intros I. destruct a as [|t]; cbn.
  - (* the calling thread *)
    unfold threaded_foo. destruct (caller s) as [i|i| |] eqn:Hm.
    + destruct (decide (i < nthreads)%nat) as [Hi|Hi]; intros [= <-].
      * pose proof (safe_fresh _ _ _ I i i Hm ltac:(lia)) as Hnew.
        pose proof (finished_insert _ _ _ FLoad Hnew) as Hf. cbn in Hf.
        assert (finished (<[i:=FLoad]> (threads s)) = finished (threads s))
          as Hfin by lia.
        split; cbn; rewrite ?Hfin.
        -- rewrite length_insert. apply I.
        -- apply I.
        -- apply I.
        -- apply I.
        -- intros t v. destruct (decide (t = i)) as [->|Hne].
           ++ rewrite list_lookup_insert_eq; [done|].
              rewrite (safe_len _ _ _ I). lia.
           ++ rewrite list_lookup_insert_ne by done. apply I.
        -- intros i' j [= <-] Hj. rewrite list_lookup_insert_ne by lia.
           apply (safe_fresh _ _ _ I i j Hm). lia.
        -- intros [?|?]; done.
        -- done.
        -- intros v Hv. destruct (safe_out _ _ _ I v Hv) as [? _]. congruence.
      * split; cbn.
        -- apply I.
        -- apply I.
        -- apply I.
        -- apply I.
        -- apply I.
        -- done.
        -- intros [?|?]; done.
        -- intros i' j [= <-] ?. lia.
        -- intros v Hv. destruct (safe_out _ _ _ I v Hv) as [? _]. congruence.
    + destruct (decide (i < nthreads)%nat) as [Hi|Hi].
      * destruct (threads s !! i) as [[| | |]|] eqn:Hti; try done.
        intros [= <-]. split; cbn.
        -- apply I.
        -- apply I.
        -- apply I.
        -- apply I.
        -- apply I.
        -- done.
        -- intros [?|?]; done.
        -- intros i' j [= <-] Hj ?. destruct (decide (j = i)) as [->|?];
             [done|]. apply (safe_joined _ _ _ I i j Hm); lia.
        -- intros v Hv. destruct (safe_out _ _ _ I v Hv) as [? _]. congruence.
      * intros [= <-]. split; cbn.
        -- apply I.
        -- apply I.
        -- apply I.
        -- apply I.
        -- apply I.
        -- done.
        -- intros _ j Hj. apply (safe_joined _ _ _ I i j Hm); lia.
        -- done.
        -- intros v Hv. destruct (safe_out _ _ _ I v Hv) as [? _]. congruence.
    + intros [= <-]. split; cbn.
      * apply I.
      * apply I.
      * apply I.
      * apply I.
      * apply I.
      * done.
      * intros _. apply (safe_end _ _ _ I). by left.
      * done.
      * intros v Hv. apply elem_of_app in Hv as [Hv|Hv].
        -- destruct (safe_out _ _ _ I v Hv) as [? _]. congruence.
        -- apply list_elem_of_singleton in Hv. done.
    + done.
  - (* a thread *)
    unfold foo. destruct (threads s !! t) as [[| |v|]|] eqn:Ht; try done.
    + (* the read *)
      intros [= <-].
      pose proof (finished_insert _ _ _ (FStore (n s)) Ht) as Hf. cbn in Hf.
      assert (finished (<[t:=FStore (n s)]> (threads s)) = finished (threads s))
        as Hfin by lia.
      assert (t < length (threads s))%nat as Hlt by by eapply lookup_lt_Some.
      split; cbn; rewrite ?Hfin.
      * rewrite length_insert. apply I.
      * apply I.
      * apply I.
      * apply I.
      * intros t' v. destruct (decide (t' = t)) as [->|Hne].
        -- rewrite list_lookup_insert_eq by done. intros [= <-].
           split; apply I.
        -- rewrite list_lookup_insert_ne by done. apply I.
      * intros i j Hm Hj. destruct (decide (j = t)) as [->|Hne].
        -- pose proof (safe_fresh _ _ _ I i t Hm Hj). congruence.
        -- rewrite list_lookup_insert_ne by done.
           by apply (safe_fresh _ _ _ I i).
      * intros Hm j Hj. pose proof (safe_end _ _ _ I Hm t) as Hd.
        rewrite (safe_len _ _ _ I) in Hlt. specialize (Hd Hlt). congruence.
      * intros i j Hm Hj Hjn. destruct (decide (j = t)) as [->|Hne].
        -- pose proof (safe_joined _ _ _ I i t Hm Hj Hjn). congruence.
        -- rewrite list_lookup_insert_ne by done.
           by apply (safe_joined _ _ _ I i).
      * intros v Hv. destruct (safe_out _ _ _ I v Hv) as [Hm _].
        pose proof (safe_end _ _ _ I (or_intror Hm) t) as Hd.
        rewrite (safe_len _ _ _ I) in Hlt. specialize (Hd Hlt). congruence.
    + (* the write *)
      intros [= <-].
      pose proof (finished_insert _ _ _ FDone Ht) as Hf. cbn in Hf.
      assert (finished (<[t:=FDone]> (threads s))
              = S (finished (threads s))) as Hfin by lia.
      assert (t < length (threads s))%nat as Hlt by by eapply lookup_lt_Some.
      pose proof (safe_read _ _ _ I t v Ht) as Hv.
      split; cbn; rewrite ?Hfin.
      * rewrite length_insert. apply I.
      * lia.
      * lia.
      * lia.
      * intros t' v'. destruct (decide (t' = t)) as [->|Hne].
        -- by rewrite list_lookup_insert_eq.
        -- rewrite list_lookup_insert_ne by done. intros H.
           pose proof (safe_read _ _ _ I t' v' H). lia.
      * intros i j Hm Hj. destruct (decide (j = t)) as [->|Hne].
        -- pose proof (safe_fresh _ _ _ I i t Hm Hj). congruence.
        -- rewrite list_lookup_insert_ne by done.
           by apply (safe_fresh _ _ _ I i).
      * intros Hm j Hj. pose proof (safe_end _ _ _ I Hm t) as Hd.
        rewrite (safe_len _ _ _ I) in Hlt. specialize (Hd Hlt). congruence.
      * intros i j Hm Hj Hjn. destruct (decide (j = t)) as [->|Hne].
        -- by rewrite list_lookup_insert_eq.
        -- rewrite list_lookup_insert_ne by done.
           by apply (safe_joined _ _ _ I i).
      * intros v' Hv'. destruct (safe_out _ _ _ I v' Hv') as [Hm _].
        pose proof (safe_end _ _ _ I (or_intror Hm) t) as Hd.
        rewrite (safe_len _ _ _ I) in Hlt. specialize (Hd Hlt). congruence.
Qed.

Lemma run_safe (sched : list mover) (s s' : world) :
  safe s -> run sched s = Some s' -> safe s'.
Proof.
  revert s. induction sched as [|a sched IH]; intros s I; cbn.
  - by intros [= <-].
  - destruct (move a s) as [s1|] eqn:Hs; [|done].
    apply IH. by eapply move_safe.
Qed.

Lemma reached_safe (s : world) : reached s -> safe s.
Proof. intros [sched H]. eapply run_safe; [apply safe_initial|done]. Qed.

(** X16: what [threaded_foo] prints lies between [n + 1] and
    [n + nthreads], where [n] is the value of the global when it is
    called (and it is [n] when there are no threads): no update is
    counted twice, and at least one is counted.  It prints only after the
    last thread has finished. *)
Theorem printed_between (s : world) (v : Z) :
  reached s -> v ∈ out s ->
  n0 + Z.min 1 (Z.of_nat nthreads) <= v <= n0 + Z.of_nat nthreads
  /\ v = n s /\ finished (threads s) = nthreads.
Proof.
  intros Hr Hv. apply reached_safe in Hr as I.
  destruct (safe_out _ _ _ I v Hv) as [Hm ->].
  pose proof (safe_end _ _ _ I (or_intror Hm)) as Hall.
  rewrite <- (safe_len _ _ _ I) in Hall.
  apply finished_all in Hall. rewrite (safe_len _ _ _ I) in Hall.
  pose proof (safe_lo _ _ _ I). pose proof (safe_hi _ _ _ I).
  pose proof (safe_pos _ _ _ I). rewrite Hall in *.
  split; [|done]. lia.
Qed.

(** *** Schedules *)

Lemma run_starts (j i : nat) (nn : Z) (o : list Z) :
  (i + j)%nat = nthreads ->
  run (replicate (j + 1) Caller)
    {| n := nn; threads := replicate i FLoad ++ replicate j FNew;
       caller := TStart i; out := o |}
  = Some {| n := nn; threads := replicate nthreads FLoad; caller := TJoin 0;
            out := o |}.
Proof.
  revert i. induction j as [|j IH]; intros i Hij.
  - cbn. destruct (decide (i < nthreads)%nat); [lia|].
    rewrite app_nil_r. do 3 f_equal. lia.
  - cbn [Nat.add replicate Race.run Race.move threaded_foo caller threads n out].
    destruct (decide (i < nthreads)%nat); [|lia].
    rewrite insert_app_r_alt by (rewrite length_replicate; lia).
    rewrite length_replicate, Nat.sub_diag. cbn [insert list_insert].
    rewrite cons_middle, app_assoc, <- replicate_S_end.
    apply IH. lia.
Qed.

Lemma foo_load (pre rest : list fpc) (nn : Z) (m : tpc) (o : list Z) :
  foo (length pre)
    {| n := nn; threads := pre ++ FLoad :: rest; caller := m; out := o |}
  = Some {| n := nn; threads := pre ++ FStore nn :: rest; caller := m;
            out := o |}.
Proof.
  unfold foo. cbn [threads n caller out].
  rewrite list_lookup_middle by done.
  rewrite insert_app_r_alt by lia. by rewrite Nat.sub_diag.
Qed.

Lemma foo_store (pre rest : list fpc) (nn v : Z) (m : tpc) (o : list Z) :
  foo (length pre)
    {| n := nn; threads := pre ++ FStore v :: rest; caller := m; out := o |}
  = Some {| n := v + 1; threads := pre ++ FDone :: rest; caller := m;
            out := o |}.
Proof.
  unfold foo. cbn [threads n caller out].
  rewrite list_lookup_middle by done.
  rewrite insert_app_r_alt by lia. by rewrite Nat.sub_diag.
Qed.

Lemma run_loads (a : nat) (pre rest : list fpc) (nn : Z) (m : tpc)
    (o : list Z) :
  run (Thread <$> seq (length pre) a)
    {| n := nn; threads := pre ++ replicate a FLoad ++ rest;
       caller := m; out := o |}
  = Some {| n := nn; threads := pre ++ replicate a (FStore nn) ++ rest;
            caller := m; out := o |}.
Proof.
  revert pre. induction a as [|a IH]; intros pre; [done|].
  cbn [seq fmap list_fmap replicate app Race.run Race.move].
  rewrite foo_load.
  rewrite cons_middle, app_assoc.
  replace (S (length pre)) with (length (pre ++ [FStore nn]))
    by (rewrite length_app; cbn; lia).
  rewrite IH. by rewrite <- app_assoc.
Qed.

Lemma run_stores (a : nat) (pre rest : list fpc) (nn v : Z) (m : tpc)
    (o : list Z) :
  run (Thread <$> seq (length pre) a)
    {| n := nn; threads := pre ++ replicate a (FStore v) ++ rest;
       caller := m; out := o |}
  = Some {| n := match a with O => nn | S _ => v + 1 end;
            threads := pre ++ replicate a FDone ++ rest;
            caller := m; out := o |}.
Proof.
  revert pre nn. induction a as [|a IH]; intros pre nn; [done|].
  cbn [seq fmap list_fmap replicate app Race.run Race.move].
  rewrite foo_store.
  rewrite cons_middle, app_assoc.
  replace (S (length pre)) with (length (pre ++ [FDone]))
    by (rewrite length_app; cbn; lia).
  rewrite IH. rewrite <- app_assoc. by destruct a.
Qed.

Lemma run_serial (b : nat) (pre : list fpc) (nn : Z) (m : tpc) (o : list Z) :
  run (seq (length pre) b ≫= fun t => [Thread t; Thread t])
    {| n := nn; threads := pre ++ replicate b FLoad; caller := m; out := o |}
  = Some {| n := nn + Z.of_nat b; threads := pre ++ replicate b FDone;
            caller := m; out := o |}.
Proof.
  revert pre nn. induction b as [|b IH]; intros pre nn.
  - cbn. do 2 f_equal. lia.
  - cbn [seq mbind list_bind replicate app Race.run Race.move].
    rewrite foo_load, foo_store.
    rewrite cons_middle, app_assoc.
    replace (S (length pre)) with (length (pre ++ [FDone]))
      by (rewrite length_app; cbn; lia).
    rewrite IH. rewrite <- app_assoc. do 2 f_equal. lia.
Qed.

Lemma run_joins (j i : nat) (nn : Z) (o : list Z) :
  (i + j)%nat = nthreads ->
  run (replicate (j + 2) Caller)
    {| n := nn; threads := replicate nthreads FDone; caller := TJoin i;
       out := o |}
  = Some {| n := nn; threads := replicate nthreads FDone; caller := TEnd;
            out := o ++ [nn] |}.
Proof.
  revert i. induction j as [|j IH]; intros i Hij.
  - cbn. destruct (decide (i < nthreads)%nat); [lia|]. done.
  - cbn [Nat.add replicate Race.run Race.move threaded_foo caller threads n out].
    destruct (decide (i < nthreads)%nat); [|lia].
    rewrite lookup_replicate_2 by done. apply IH. lia.
Qed.

Lemma run_racy (a b : nat) :
  (S a + b)%nat = nthreads ->
  run (racy (S a) b) initial
  = Some {| n := n0 + 1 + Z.of_nat b; threads := replicate nthreads FDone;
            caller := TEnd; out := [n0 + 1 + Z.of_nat b] |}.
Proof.
  intros Hab.
  assert (forall p : fpc,
    replicate nthreads p = replicate (S a) p ++ replicate b p) as Hsplit.
  { intros p. rewrite <- Hab. apply replicate_add. }
  unfold racy, Race.initial. rewrite Hab, run_app.
  change (replicate nthreads FNew)
    with (replicate 0 FLoad ++ replicate nthreads FNew).
  rewrite (run_starts nthreads 0 n0 []) by done. cbn [mbind option_bind].
  rewrite (Hsplit FLoad).
  pose proof (run_loads (S a) [] (replicate b FLoad) n0 (TJoin 0) []) as Hl.
  pose proof (run_stores (S a) [] (replicate b FLoad) n0 n0 (TJoin 0) [])
    as Hs.
  rewrite !app_nil_l in Hl, Hs. change (length (@nil fpc)) with 0%nat in Hl, Hs.
  rewrite run_app, Hl. cbn [mbind option_bind].
  rewrite run_app, Hs. cbn [mbind option_bind].
  replace (S a) with (length (replicate (S a) FDone)) at 1
    by apply length_replicate.
  rewrite run_app, (run_serial b (replicate (S a) FDone)).
  cbn [mbind option_bind].
  rewrite <- (Hsplit FDone).
  by rewrite (run_joins nthreads 0).
Qed.

(** X17: every count between one and [nthreads] can come out.  When
    [lost + 1] threads read [n] before any of them writes it back, and
    the other threads run one after the other, [lost] of the updates
    are overwritten, and [threaded_foo] prints [n + nthreads - lost]. *)
Theorem updates_can_be_lost (lost : nat) :
  (lost < nthreads)%nat ->
  exists s,
    run (racy (S lost) (nthreads - S lost)) initial = Some s
    /\ caller s = TEnd
    /\ out s = [n0 + Z.of_nat nthreads - Z.of_nat lost].
Proof.
  intros Hl. eexists. split; [apply run_racy; lia|]. cbn.
  split; [done|]. f_equal. lia.
Qed.

End RaceSteps.

Lemma printed_between_witness :
  n0_sample + Z.min 1 2 <= 1 <= n0_sample + 2
  /\ 1 = n state_lost_update /\ finished (threads state_lost_update) = 2%nat.
Proof.
  apply (printed_between 2 n0_sample state_lost_update 1).
  - exists (racy 2 0). reflexivity.
  - cbn. by left.
Defined.

Lemma updates_can_be_lost_witness :
  exists s, Race.run 3 (racy 2 1) (Race.initial 3 0) = Some s
    /\ caller s = TEnd /\ out s = [0 + 3 - 1].
Proof. apply (updates_can_be_lost 3 0 1). lia. Defined.

End RaceFacts.

(** ** The other Monte Carlo estimators *)

Module MonteCarloMoreFacts.
Import MonteCarlo MonteCarloMore MonteCarloFacts.

Lemma np_sum_total (f : Z -> Z) (rs : list Z) : np_sum (f <$> rs) = total f rs.
Proof. reflexivity. Qed.

Lemma total_bounds (f : Z -> Z) (rs : list Z) (c : Z) :
  (forall r, r ∈ rs -> 0 <= f r <= c) ->
  0 <= total f rs <= Z.of_nat (length rs) * c.
Proof.
  unfold total. induction rs as [|r rs IH]; intros H; [cbn; lia|].
  cbn [fmap list_fmap foldr length].
  pose proof (H r ltac:(by left)).
  assert (forall r', r' ∈ rs -> 0 <= f r' <= c) as H' by
    (intros r' Hr'; apply H; by right).
  specialize (IH H'). change (list_fmap Z Z f rs) with (f <$> rs). lia.
Qed.

Lemma div_negative (n p : Z) : n < 0 -> 1 <= p -> n / p < 0.
Proof. intros Hn Hp. apply Z.div_lt_upper_bound; lia. Qed.

Section Ranks.
Variables (size : Z) (hits : Z -> Z -> Z).

Lemma comm_scatter_const (c rank : Z) :
  0 <= rank < size ->
  comm_scatter size ((fun _ => c) <$> seqZ 0 size) rank = Some c.
Proof.
  intros Hr. unfold comm_scatter.
  destruct (Z.leb_spec 0 rank); [|lia]. destruct (Z.ltb_spec rank size); [|lia].
  cbn [andb]. rewrite list_lookup_fmap.
  rewrite (lookup_seqZ_lt 0 size (Z.to_nat rank)) by lia. done.
Qed.

(** The view of a rank of the send/receive program, when nothing
    raises. *)
Lemma sendrcv_view (arrival : list Z) (n_samples rank : Z) :
  0 <= n_samples -> 1 <= size -> arrival ≡ₚ seqZ 1 (size - 1) ->
  monte_carlo_area_sendrcv size hits arrival n_samples rank
  = Some {| n_samples_per_task := n_samples / size;
            n_in_circle := hits rank (n_samples / size);
            draws_sum := n_samples / size * size;
            n_in_circle_sum :=
              if rank =? 0
              then NpInt (total (fun r => hits r (n_samples / size))
                            (ranks size))
              else NpArray 0 |}.
Proof.
  intros Hn Hsize Hperm. unfold monte_carlo_area_sendrcv.
  rewrite draw_some by (apply Z.div_pos; lia). do 2 f_equal.
  destruct (rank =? 0); [|done]. f_equal.
  rewrite foldl_add_total, (total_perm _ _ _ Hperm).
  unfold ranks. rewrite (seqZ_cons 0 size) by lia. cbn.
  replace (Z.pred size) with (size - 1) by lia. reflexivity.
Qed.

(** The view of a rank of the scatter/gather program, when nothing
    raises. *)
Lemma scattergather_view (n_samples rank : Z) :
  0 <= n_samples -> 1 <= size -> 0 <= rank < size ->
  monte_carlo_area_scattergather size hits n_samples rank
  = Some {| n_samples_per_task := n_samples / size;
            n_in_circle := hits rank (n_samples / size);
            draws_sum := n_samples / size * size;
            n_in_circle_sum :=
              if rank =? 0
              then NpInt (total (fun r => hits r (n_samples / size))
                            (ranks size))
              else NpArray 0 |}.
Proof.
  intros Hn Hsize Hrank. unfold monte_carlo_area_scattergather.
  rewrite comm_scatter_const by done.
  rewrite draw_some by (apply Z.div_pos; lia). do 2 f_equal.
  unfold comm_gather. destruct (rank =? 0); [|done]. f_equal.
  rewrite np_sum_total. apply total_ext. intros r Hr.
  unfold ranks in Hr. apply elem_of_seqZ in Hr.
  by rewrite comm_scatter_const by lia.
Qed.

(** X18: from the same draws, with [n_samples >= 0], the three MPI
    programs hold the same numbers at every rank: the send/receive
    variant in whatever order the messages reach rank 0, and the
    scatter/gather variant, agree with [monte_carlo_area_reduce] in
    whatever order [reduce] combines.  At rank 0 the three views are
    equal; at the other ranks the zero is a one-entry array in two of
    them and a Python int in the third, which shows only when
    [draws_sum] is zero.  With [n_samples < 0] all three raise. *)
Theorem mpi_variants_agree (arrival order : list Z) (n_samples rank : Z) :
  1 <= size -> arrival ≡ₚ seqZ 1 (size - 1) -> order ≡ₚ ranks size ->
  0 <= rank < size ->
  (0 <= n_samples ->
     exists v1 v2 v3,
       monte_carlo_area_reduce size hits order n_samples rank = Some v1
       /\ monte_carlo_area_sendrcv size hits arrival n_samples rank = Some v2
       /\ monte_carlo_area_scattergather size hits n_samples rank = Some v3
       /\ same_numbers v2 v1 /\ same_numbers v3 v1
       /\ (rank = 0 -> v2 = v1 /\ v3 = v1)
       /\ (draws_sum v1 <> 0 -> area v2 = area v1 /\ area v3 = area v1))
  /\ (n_samples < 0 ->
      monte_carlo_area_reduce size hits order n_samples rank = None
      /\ monte_carlo_area_sendrcv size hits arrival n_samples rank = None
      /\ monte_carlo_area_scattergather size hits n_samples rank = None).
Proof.
  intros Hsize Hperm Hord Hrank. split; intros Hn.
  - rewrite reduce_view, sendrcv_view, scattergather_view by done.
    eexists _, _, _. split; [reflexivity|]. split; [reflexivity|].
    split; [reflexivity|].
    unfold same_numbers, area, comm_reduce_sum.
    cbn [n_samples_per_task n_in_circle draws_sum n_in_circle_sum].
    destruct (Z.eqb_spec rank 0) as [->|Hne].
    + pose proof (comm_reduce_sum_root size order
                    (fun r => hits r (n_samples / size)) Hord) as Hred.
      unfold comm_reduce_sum in Hred. cbn in Hred. simplify_eq.
      rewrite !Hred. done.
    + cbn [value]. repeat split; try done.
      all: destruct (Z.eqb_spec (n_samples / size * size) 0); done.
  - pose proof (div_negative n_samples size Hn Hsize) as Hneg.
    unfold monte_carlo_area_reduce, monte_carlo_area_sendrcv,
      monte_carlo_area_scattergather.
    rewrite comm_scatter_const by done. by rewrite !draw_none by done.
Qed.

(** X19: when every draw counts at most as many hits as it has points
    and [n_samples >= size], the estimate of [monte_carlo_area_reduce]
    at rank 0 is a fraction between 0 and 4 with a positive
    denominator, and every other rank holds the estimate 0.  With fewer
    samples than processes nobody draws a point and the denominator is
    zero: rank 0 divides numpy numbers and gets not-a-number, every
    other rank divides Python ints and raises ZeroDivisionError. *)
Theorem estimate_between_0_and_4 (order : list Z) (n_samples rank : Z) :
  1 <= size -> 0 <= n_samples -> order ≡ₚ ranks size ->
  (forall r n, 0 <= n -> 0 <= hits r n <= n) ->
  exists v,
    monte_carlo_area_reduce size hits order n_samples rank = Some v
    /\ (size <= n_samples ->
        exists num den,
          area v = Ratio num den /\ 0 < den /\ 0 <= num <= 4 * den
          /\ (rank <> 0 -> num = 0))
    /\ (n_samples < size ->
        area v = if rank =? 0 then NotANumber else ZeroDivisionError).
Proof.
  intros Hsize Hn Hord Hhits.
  pose proof (Z.div_pos n_samples size Hn ltac:(lia)) as Hdiv.
  rewrite reduce_view by done. eexists. split; [reflexivity|].
  unfold area, comm_reduce_sum.
  cbn [n_samples_per_task n_in_circle draws_sum n_in_circle_sum].
  pose proof (comm_reduce_sum_root size order
                (fun r => hits r (n_samples / size)) Hord) as Hred.
  unfold comm_reduce_sum in Hred. cbn in Hred. simplify_eq.
  pose proof (total_bounds (fun r => hits r (n_samples / size))
                (ranks size) (n_samples / size)
                ltac:(intros; by apply Hhits)) as Hb.
  unfold ranks in Hb at 3. rewrite length_seqZ in Hb.
  split.
  - intros Hge.
    assert (1 <= n_samples / size) as Hper.
    { apply Z.div_le_lower_bound; lia. }
    destruct (Z.eqb_spec (n_samples / size * size) 0); [nia|].
    eexists _, _. split; [reflexivity|]. split; [nia|].
    destruct (Z.eqb_spec rank 0) as [->|Hne]; cbn [value].
    + rewrite Hred. split; [lia|done].
    + split; [lia|done].
  - intros Hlt. rewrite Z.div_small in * by lia.
    cbn [Z.mul Z.eqb]. destruct (Z.eqb_spec rank 0) as [->|Hne]; [|done].
    rewrite Hred. assert (total (fun r => hits r 0) (ranks size) = 0) as ->
      by lia. done.
Qed.

End Ranks.

Lemma mapM_all_some {A B} (f : A -> option B) (g : A -> B) (l : list A) :
  (forall x, x ∈ l -> f x = Some (g x)) -> mapM f l = Some (g <$> l).
Proof.
  induction l as [|x l IH]; intros H; [done|]. cbn.
  rewrite (H x) by by left. cbn. rewrite IH; [done|].
  intros y Hy. apply H. by right.
Qed.

Lemma np_sum_fst_pool (hits : Z -> Z -> Z) (c : Z) (rs : list Z) :
  np_sum (fst <$> ((fun x => (hits x c, c)) <$> rs))
  = total (fun r => hits r c) rs.
Proof. unfold total, np_sum. by rewrite <- list_fmap_compose. Qed.

Lemma np_sum_snd_pool (hits : Z -> Z -> Z) (c : Z) (rs : list Z) :
  np_sum (snd <$> ((fun x => (hits x c, c)) <$> rs))
  = Z.of_nat (length rs) * c.
Proof.
  rewrite <- total_const. unfold total, np_sum.
  by rewrite <- list_fmap_compose.
Qed.

(** X20: from the same draws, with [n_proc >= 1] and [n_samples >= 0],
    the two pool variants print the estimate that rank 0 of the MPI
    program with [n_proc] processes computes, and
    [monte_carlo_area_async] announces the calls and the results before
    it.  With [n_samples < 0] the first call of [counts_in_a_circle]
    raises: [monte_carlo_area_mp] prints nothing, and
    [monte_carlo_area_async] has printed 'Function called' only. *)
Theorem pool_agrees_with_mpi
    (hits : Z -> Z -> Z) (order : list Z) (n_proc n_samples : Z) :
  1 <= n_proc -> order ≡ₚ ranks n_proc ->
  (0 <= n_samples ->
     exists v,
       monte_carlo_area_reduce n_proc hits order n_samples 0 = Some v
       /\ monte_carlo_area_mp hits n_proc n_samples = Some (area v)
       /\ monte_carlo_area_async hits n_proc n_samples
          = (["Function called"; "Results returned"], Some (area v)))
  /\ (n_samples < 0 ->
      monte_carlo_area_mp hits n_proc n_samples = None
      /\ monte_carlo_area_async hits n_proc n_samples
         = (["Function called"], None)).
Proof.
  intros Hp Hord. unfold monte_carlo_area_mp, monte_carlo_area_async.
  destruct (Z.ltb_spec n_proc 1); [lia|]. split; intros Hn.
  - pose proof (Z.div_pos n_samples n_proc Hn ltac:(lia)) as Hdiv.
    rewrite reduce_view by done. eexists. split; [reflexivity|].
    assert (pool_results hits n_proc n_samples
            = Some ((fun x => (hits x (n_samples / n_proc), n_samples / n_proc))
                      <$> seqZ 0 n_proc)) as ->.
    { unfold pool_results. apply mapM_all_some. intros x _.
      unfold counts_in_a_circle. by rewrite draw_some. }
    cbn [fmap option_fmap option_map].
    match goal with |- Some ?a = Some ?b /\ _ => assert (a = b) as -> end;
      [|done].
    unfold pool_area, area.
    cbn [n_samples_per_task n_in_circle draws_sum n_in_circle_sum value].
    rewrite (comm_reduce_sum_root n_proc order _ Hord).
    rewrite np_sum_fst_pool, np_sum_snd_pool, length_seqZ. cbn [value].
    replace (Z.of_nat (Z.to_nat n_proc) * (n_samples / n_proc))
      with (n_samples / n_proc * n_proc) by lia.
    unfold ranks. by destruct (n_samples / n_proc * n_proc =? 0).
  - pose proof (div_negative n_samples n_proc Hn Hp) as Hneg.
    assert (pool_results hits n_proc n_samples = None) as ->; [|done].
    unfold pool_results. rewrite (seqZ_cons 0 n_proc) by lia. cbn.
    unfold counts_in_a_circle. by rewrite draw_none.
Qed.

Lemma hits_sample_bounds (r n : Z) : 0 <= n -> 0 <= hits_sample r n <= n.
Proof. intros Hn. unfold hits_sample. lia. Qed.

Lemma mpi_variants_agree_witness :
  (0 <= 10 ->
     exists v1 v2 v3,
       monte_carlo_area_reduce 3 hits_sample [2; 0; 1] 10 1 = Some v1
       /\ monte_carlo_area_sendrcv 3 hits_sample [2; 1] 10 1 = Some v2
       /\ monte_carlo_area_scattergather 3 hits_sample 10 1 = Some v3
       /\ same_numbers v2 v1 /\ same_numbers v3 v1
       /\ (1 = 0 -> v2 = v1 /\ v3 = v1)
       /\ (draws_sum v1 <> 0 -> area v2 = area v1 /\ area v3 = area v1))
  /\ (10 < 0 ->
      monte_carlo_area_reduce 3 hits_sample [2; 0; 1] 10 1 = None
      /\ monte_carlo_area_sendrcv 3 hits_sample [2; 1] 10 1 = None
      /\ monte_carlo_area_scattergather 3 hits_sample 10 1 = None).
Proof.
  apply (mpi_variants_agree 3 hits_sample [2; 1] [2; 0; 1] 10 1); [lia| | |lia].
  - vm_compute. apply perm_swap.
  - vm_compute. by rewrite (Permutation_cons_append [0; 1] 2).
Defined.

Lemma estimate_between_0_and_4_witness :
  exists v,
    monte_carlo_area_reduce 3 hits_sample [2; 0; 1] 10 0 = Some v
    /\ (3 <= 10 ->
        exists num den,
          area v = Ratio num den /\ 0 < den /\ 0 <= num <= 4 * den
          /\ (0 <> 0 -> num = 0))
    /\ (10 < 3 ->
        area v = if 0 =? 0 then NotANumber else ZeroDivisionError).
Proof.
  apply (estimate_between_0_and_4 3 hits_sample [2; 0; 1] 10 0); [lia|lia| |].
  - vm_compute. by rewrite (Permutation_cons_append [0; 1] 2).
  - apply hits_sample_bounds.
Defined.

Lemma pool_agrees_with_mpi_witness :
  (0 <= 10 ->
     exists v,
       monte_carlo_area_reduce 3 hits_sample [2; 0; 1] 10 0 = Some v
       /\ monte_carlo_area_mp hits_sample 3 10 = Some (area v)
       /\ monte_carlo_area_async hits_sample 3 10
          = (["Function called"; "Results returned"], Some (area v)))
  /\ (10 < 0 ->
      monte_carlo_area_mp hits_sample 3 10 = None
      /\ monte_carlo_area_async hits_sample 3 10
         = (["Function called"], None)).
Proof.
  apply (pool_agrees_with_mpi hits_sample [2; 0; 1] 3 10); [lia|].
  vm_compute. by rewrite (Permutation_cons_append [0; 1] 2).
Defined.

(** The runs behind X19 and X20: two samples over three processes, and a
    negative number of samples. *)
Example too_few_samples :
  (area <$> monte_carlo_area_reduce 3 hits_sample [0; 1; 2] 2 0)
    = Some NotANumber
  /\ (area <$> monte_carlo_area_reduce 3 hits_sample [0; 1; 2] 2 1)
    = Some ZeroDivisionError
  /\ monte_carlo_area_async hits_sample 2 (-3) = (["Function called"], None).
Proof. repeat split. Qed.

End MonteCarloMoreFacts.

(** ** The least-squares losses *)

Module LossFacts.
Import Fitting Loss FittingFacts.
Local Open Scope R_scope.

Lemma np_sub_same_length (a b : list R) :
  length a = length b -> np_sub a b = Some (zip_with Rminus a b).
Proof. intros H. unfold np_sub. by rewrite H, Nat.eqb_refl. Qed.

Lemma sum_squares_nonneg (d : list R) : 0 <= np_sum ((fun r => r ^ 2) <$> d).
Proof.
  induction d as [|r d IH]; cbn; [lra|].
  pose proof (pow2_ge_0 r). unfold np_sum in IH. cbn in *. lra.
Qed.

Lemma sum_squares_zero (d : list R) :
  np_sum ((fun r => r ^ 2) <$> d) = 0 <-> Forall (fun r => r = 0) d.
Proof.
  induction d as [|r d IH]; cbn.
  - split; [constructor|done].
  - pose proof (pow2_ge_0 r) as Hr. pose proof (sum_squares_nonneg d) as Hd.
    unfold np_sum in *. cbn in *. split.
    + intros H. constructor; [nra|]. apply IH. lra.
    + intros H. apply Forall_cons in H as [-> H]. apply IH in H. lra.
Qed.

Lemma zip_with_minus_zero (a b : list R) :
  length a = length b ->
  Forall (fun r => r = 0) (zip_with Rminus a b) <-> b = a.
Proof.
  revert b. induction a as [|x a IH]; intros [|y b] Hlen;
    try discriminate Hlen.
  - split; [done|intros _; constructor].
  - cbn. cbn in Hlen. split.
    + intros H. apply Forall_cons in H as [Hxy H].
      apply IH in H; [|lia]. f_equal; [lra|done].
    + intros [= -> ->]. constructor; [lra|]. apply IH; [lia|done].
Qed.

(** X21: the least-squares loss is never negative, and when the model
    returns as many values as there are data it is zero exactly when
    the model reproduces the data. *)
Theorem loss_zero_iff_exact_fit (params : list R) (func : model)
    (y_data x_data pred : list R) :
  func x_data params = Some pred -> length pred = length y_data ->
  exists v, loss_function params func y_data x_data = Some v
    /\ 0 <= v /\ (v = 0 <-> pred = y_data).
Proof.
  intros Hf Hlen. unfold loss_function, residuals. rewrite Hf.
  rewrite np_sub_same_length by done.
  eexists. split; [done|]. split; [apply sum_squares_nonneg|].
  rewrite sum_squares_zero. by apply zip_with_minus_zero.
Qed.

(** Whatever the frequency [p5], the squared residuals of
    [nonlinear_func] stay below a bound that does not depend on it. *)
Lemma nonlinear_loss_bounded (p1 p2 p3 p4 : R) (x_data y_data : list R) :
  exists C, forall p5,
    np_sum ((fun r => r ^ 2) <$>
      zip_with Rminus y_data
        ((fun x => nonlinear_func x p1 p2 p3 p4 p5) <$> x_data)) <= C.
Proof.
  revert y_data. induction x_data as [|x xs IH]; intros [|y ys];
    try (exists 0; intros; cbn; lra).
  destruct (IH ys) as [C HC].
  exists (2 * (y - (p1 + p2 * x + p3 * x * x)) ^ 2 + 2 * p4 ^ 2 + C).
  intros p5. specialize (HC p5). cbn [fmap list_fmap zip_with np_sum foldr].
  unfold np_sum in HC. unfold nonlinear_func at 1.
  pose proof (SIN_bound (x * p5)) as [Hlo Hhi].
  set (s := sin (x * p5)) in *. set (a := y - (p1 + p2 * x + p3 * x * x)).
  assert ((y - (p1 + p2 * x + p3 * x * x + p4 * s)) ^ 2
          <= 2 * a ^ 2 + 2 * p4 ^ 2) as Hterm.
  { replace (y - (p1 + p2 * x + p3 * x * x + p4 * s)) with (a - p4 * s)
      by (subst a; lra).
    assert (s ^ 2 <= 1) by nra.
    assert (0 <= (a + p4 * s) ^ 2) by apply pow2_ge_0.
    assert (0 <= p4 ^ 2) by apply pow2_ge_0.
    nra. }
  change (list_fmap R R) with (@fmap list _ R R) in *. lra.
Qed.

(** X22: the penalty of [loss_function2] is linear in the last
    parameter, so with [nonlinear_func] the loss has no minimum: for
    any weight [l] other than zero, and the default [-1e3] is one, it
    falls below every bound as the last parameter grows. *)
Theorem loss_function2_unbounded_below
    (p1 p2 p3 p4 l B : R) (x_data y_data : list R) :
  length x_data = length y_data -> l <> 0 ->
  exists p5 v,
    loss_function2 [p1; p2; p3; p4; p5] nonlinear_func_star y_data x_data l
      = Some v
    /\ v < B.
Proof.
  intros Hlen Hl.
  destruct (nonlinear_loss_bounded p1 p2 p3 p4 x_data y_data) as [C HC].
  exists ((B - C - 1) / l). eexists. split.
  - unfold loss_function2, loss_function, residuals, nonlinear_func_star.
    cbn [length Nat.leb arg lookup list_lookup].
    rewrite np_sub_same_length by (by rewrite length_fmap).
    cbn [last]. reflexivity.
  - specialize (HC ((B - C - 1) / l)).
    replace (l * ((B - C - 1) / l)) with (B - C - 1) by (field; done).
    lra.
Qed.

Lemma foldl_plus (acc : R) (l : list R) :
  foldl Rplus acc l = acc + np_sum l.
Proof.
  revert acc. induction l as [|a l IH]; intros acc; cbn; [lra|].
  rewrite IH. unfold np_sum. lra.
Qed.

(** X23: for [sigma > 0] and arrays of one length, the log-likelihood
    is the least-squares loss of the line, scaled and shifted:
    [lnlike = -(2 N ln(sigma) + loss / sigma^2)].  For a fixed [sigma]
    the most likely line is the one of least loss. *)
Theorem lnlike_is_scaled_loss (b m sigma : R) (x y : list R) :
  0 < sigma -> length x = length y ->
  exists S,
    loss_function [m; b] linear_func_star y x = Some S
    /\ lnlike (Num b, Num m, Num sigma) (Num <$> x) (Num <$> y)
       = Some (Num (- (2 * INR (length x) * ln sigma + S / sigma ^ 2))).
Proof.
  intros Hs Hlen.
  unfold loss_function, residuals, linear_func_star.
  cbn [length Nat.leb arg lookup list_lookup].
  rewrite np_sub_same_length by (by rewrite length_fmap).
  eexists. split; [reflexivity|].
  unfold lnlike.
  rewrite array_sub_same_length by (by rewrite !length_fmap).
  assert (lnlike_term (Num sigma) <$>
            zip_with fsub (Num <$> y)
              ((fun xi => Fitting.linear_func xi (Num m) (Num b)) <$> (Num <$> x))
          = Num <$> ((fun r => 2 * ln sigma + r ^ 2 / sigma ^ 2) <$>
               zip_with Rminus y ((fun x => linear_func_real x m b) <$> x)))
    as ->.
  { clear Hlen. revert y. induction x as [|a x IH]; intros [|c y]; try done.
    cbn [fmap list_fmap zip_with]. f_equal; [|apply IH].
    unfold lnlike_term, Fitting.linear_func, linear_func_real, fsub.
    cbn [fmul fadd fneg flog fdiv].
    rewrite Rltb_false, !Reqb_false by lra. rewrite fpow_num.
    cbn [fadd fmul]. f_equal. field. lra. }
  unfold fsum. rewrite fsum_from. cbn [fneg]. do 3 f_equal.
  rewrite foldl_plus, Rplus_0_l.
  clear Hs. revert y Hlen. induction x as [|a x IH]; intros [|c y] Hlen;
    try done.
  - cbn. unfold Rdiv. lra.
  - cbn [length] in Hlen. specialize (IH y ltac:(lia)).
    cbn [fmap list_fmap zip_with np_sum foldr length]. rewrite S_INR.
    unfold np_sum in IH.
    change (list_fmap R R) with (@fmap list _ R R) in *.
    rewrite IH. unfold Rdiv. lra.
Qed.

Lemma loss_zero_iff_exact_fit_witness :
  exists v, loss_function [1; 0] linear_func_star [1; 2] [1; 2] = Some v
    /\ 0 <= v
    /\ (v = 0 <-> [linear_func_real 1 1 0; linear_func_real 2 1 0] = [1; 2]).
Proof.
  apply (loss_zero_iff_exact_fit [1; 0] linear_func_star [1; 2] [1; 2]
           [linear_func_real 1 1 0; linear_func_real 2 1 0]); reflexivity.
Defined.

Lemma loss_function2_unbounded_below_witness :
  exists p5 v,
    loss_function2 [0; 0; 0; 1; p5] nonlinear_func_star [1] [1] l_default
      = Some v
    /\ v < 0.
Proof.
  apply (loss_function2_unbounded_below 0 0 0 1 l_default 0 [1] [1]).
  - reflexivity.
  - unfold l_default. lra.
Defined.

Lemma lnlike_is_scaled_loss_witness :
  exists S,
    loss_function [1; 0] linear_func_star [1] [1] = Some S
    /\ lnlike (Num 0, Num 1, Num 1) [Num 1] [Num 1]
       = Some (Num (- (2 * INR 1 * ln 1 + S / 1 ^ 2))).
Proof. apply (lnlike_is_scaled_loss 0 1 1 [1] [1]); [lra|reflexivity]. Defined.

End LossFacts.
